(** * Felzenszwalb-Huttenlocher segmentation: union-find forest and merge passes

    A shallow embedding of [src/union_find.py] and [src/fh_segmentation.py].

    Conventions.
    - Python exceptions are an error result ([res]); a function that can raise
      returns [res A].
    - A numpy 1-D array is a [list]; indexing goes through [np_index], which
      implements numpy's rule for integer indices: [0 <= i < n] addresses
      element [i], [-n <= i < 0] addresses element [n + i], any other
      integer raises [IndexError], or [OverflowError] when it is in the
      unsigned half of the 64-bit range.
    - A binary64 number is the rational it denotes.  [float64] rounds a
      rational to 53 significant bits, to nearest, ties to even; it is the
      conversion of an integer to [float] and the rounding of a binary64
      difference, square or sum.  The exponent range is looked at in
      [float(k)] only, where Python raises [OverflowError]; infinities, NaN
      and the reduced precision of subnormal results have no counterpart,
      so a statement about thresholds speaks of values within the normal
      range.
    - [UnionFind.parent] is created by [np.arange] and is only ever written
      with values read back from it, so its elements are indices; they are
      kept as [nat].  [rank] is a counter array kept as [nat] as well.
    - The recursion of [find] is given a budget of [len(parent) + 1] frames;
      running out is [RecursionError].  The budget is shown never to run out
      on a forest built by [UnionFind(size)], [find] and [union]; the
      interpreter's own recursion limit is not modelled.
    - An image is a 2-D or 3-D numpy array with its element type; arrays
      live in a store and are handed around by location, so that writing
      through one name shows through every other name of the same array.
    - [np.random] is a stream of draws given to the entry point, and
      [skimage.filters.gaussian] a function parameter of it. *)

From Stdlib Require Import ZArith QArith Qround Qpower Qabs Lqa Lia.
From stdpp Require Import base tactics option list numbers sorting gmap.

Local Open Scope Z_scope.

(** ** Exceptions *)

Inductive pyexc : Type :=
  | IndexError
  | RecursionError
  | ValueError
  | TypeError
  | OverflowError.

Inductive res (A : Type) : Type :=
  | Ok (a : A)
  | Raise (e : pyexc).
Arguments Ok {A} a.
Arguments Raise {A} e.

Definition res_bind {A B : Type} (m : res A) (f : A -> res B) : res B :=
  match m with
  | Ok a => f a
  | Raise e => Raise e
  end.

Notation "'let?' x ':=' m 'in' k" :=
  (res_bind m (fun x => k))
  (at level 10, x pattern, m at level 100, k at level 200).

Definition res_map {A B : Type} (f : A -> B) (m : res A) : res B :=
  let? a := m in Ok (f a).

Definition is_ok {A : Type} (m : res A) : bool :=
  match m with Ok _ => true | Raise _ => false end.

(** What a Python call hands back when the callee's value matters:
    [None] or an integer. *)
Inductive pyval : Type :=
  | PyNone
  | PyInt (z : Z).

(** ** numpy integer indexing *)

(** An out-of-bounds index raises [IndexError], with one exception: a Python
    integer from [2^63] to [2^64 - 1] becomes an unsigned 64-bit scalar on
    the way, which does not convert to the signed index type, and numpy
    raises [OverflowError].  (Beyond 64 bits the integer becomes an object
    array, which is no index: [IndexError] again.)  The lists of the model
    are not bounded in length as numpy's arrays are, below [2^63] elements;
    [OverflowError] is kept to indices past the end, which changes nothing
    for an array that numpy can hold. *)
Definition index_too_large (n : nat) (i : Z) : bool :=
  (2 ^ 63 <=? i) && (i <? 2 ^ 64) && (Z.of_nat n <? i).

Definition np_index (n : nat) (i : Z) : res nat :=
  if (0 <=? i) && (i <? Z.of_nat n) then Ok (Z.to_nat i)
  else if (- Z.of_nat n <=? i) && (i <? 0) then Ok (Z.to_nat (i + Z.of_nat n))
  else if index_too_large n i then Raise OverflowError
  else Raise IndexError.

Definition np_get {A : Type} (a : list A) (i : Z) : res A :=
  let? k := np_index (length a) i in
  match a !! k with
  | Some x => Ok x
  | None => Raise IndexError
  end.

Definition np_set {A : Type} (a : list A) (i : Z) (x : A) : res (list A) :=
  let? k := np_index (length a) i in
  Ok (<[k := x]> a).

(** ** The forest *)

Record UnionFind : Type := mkUnionFind {
  parent : list nat;
  rank : list nat;
  num_sets : Z
}.

Definition set_parent (self : UnionFind) (p : list nat) : UnionFind :=
  mkUnionFind p (rank self) (num_sets self).

Definition set_rank (self : UnionFind) (r : list nat) : UnionFind :=
  mkUnionFind (parent self) r (num_sets self).

Definition set_num_sets (self : UnionFind) (k : Z) : UnionFind :=
  mkUnionFind (parent self) (rank self) k.

(** [UnionFind.__init__] for a size that is a natural number. *)
Definition new (size : nat) : UnionFind :=
  mkUnionFind (seq 0 size) (replicate size 0%nat) (Z.of_nat size).

(** [UnionFind(size)] for any Python integer: [np.zeros] refuses a negative
    dimension. *)
Definition UnionFind_init (size : Z) : res UnionFind :=
  if size <? 0 then Raise ValueError else Ok (new (Z.to_nat size)).

(** [UnionFind.find], with an explicit recursion budget. *)
Fixpoint find_rec (fuel : nat) (self : UnionFind) (i : Z)
  : res (UnionFind * nat) :=
  match fuel with
  | O => Raise RecursionError
  | S fuel' =>
      let? p := np_get (parent self) i in
      let? self :=
        (if negb (Z.of_nat p =? i) then
           let? (self1, r) := find_rec fuel' self (Z.of_nat p) in
           let? par := np_set (parent self1) i r in
           Ok (set_parent self1 par)
         else Ok self) in
      let? r := np_get (parent self) i in
      Ok (self, r)
  end.

Definition find (self : UnionFind) (i : Z) : res (UnionFind * nat) :=
  find_rec (S (length (parent self))) self i.

(** [UnionFind.union]: the method has no [return] statement, so the caller
    always receives [None]. *)
Definition union (self : UnionFind) (i j : Z) : res (UnionFind * pyval) :=
  let? (self, root_i) := find self i in
  let? (self, root_j) := find self j in
  if negb (root_i =? root_j)%nat then
    let? ri := np_get (rank self) (Z.of_nat root_i) in
    let? rj := np_get (rank self) (Z.of_nat root_j) in
    let? self :=
      (if (ri <? rj)%nat then
         let? par := np_set (parent self) (Z.of_nat root_i) root_j in
         Ok (set_parent self par)
       else if (rj <? ri)%nat then
         let? par := np_set (parent self) (Z.of_nat root_j) root_i in
         Ok (set_parent self par)
       else
         let? par := np_set (parent self) (Z.of_nat root_j) root_i in
         let self := set_parent self par in
         let? rk := np_set (rank self) (Z.of_nat root_i) (ri + 1)%nat in
         Ok (set_rank self rk)) in
    Ok (set_num_sets self (num_sets self - 1), PyNone)
  else Ok (self, PyNone).

(** [[self.find(i) for i in idx]]: the finds run left to right on the same
    object, each seeing the compressions of the previous ones. *)
Fixpoint find_each (self : UnionFind) (idx : list nat)
  : res (UnionFind * list nat) :=
  match idx with
  | [] => Ok (self, [])
  | i :: rest =>
      let? (self, r) := find self (Z.of_nat i) in
      let? (self, rs) := find_each self rest in
      Ok (self, r :: rs)
  end.

Definition find_all (self : UnionFind) : res (UnionFind * list nat) :=
  find_each self (seq 0 (length (parent self))).

(** [for a in l: s = body(s, a)], stopping at the first exception. *)
Fixpoint res_fold {A S : Type} (body : S -> A -> res S) (l : list A) (s : S)
  : res S :=
  match l with
  | [] => Ok s
  | a :: l' => let? s' := body s a in res_fold body l' s'
  end.

(** Python's [sorted]: a stable sort.  [lt y x] says that [y] goes strictly
    before [x]; an element is placed after everything that goes strictly
    before it and in front of everything else, so elements that compare equal
    keep the order they came in. *)
Fixpoint sorted_insert {A : Type} (lt : A -> A -> bool) (x : A) (l : list A)
  : list A :=
  match l with
  | [] => [x]
  | y :: l' => if lt y x then y :: sorted_insert lt x l' else x :: y :: l'
  end.

Definition sorted {A : Type} (lt : A -> A -> bool) (l : list A) : list A :=
  foldr (sorted_insert lt) [] l.

(** ** Component sizes and ranking *)

(** Insertion into an ascending list without duplicates. *)
Fixpoint unique_insert (x : nat) (l : list nat) : list nat :=
  match l with
  | [] => [x]
  | y :: l' =>
      if (x <? y)%nat then x :: l
      else if (x =? y)%nat then l
      else y :: unique_insert x l'
  end.

Definition count_eq (x : nat) (l : list nat) : nat :=
  length (filter (fun y => y = x) l).

(** [np.unique(roots, return_counts=True)] zipped: the distinct values in
    ascending order, each with its number of occurrences. *)
Definition np_unique_counts (roots : list nat) : list (nat * nat) :=
  (fun r => (r, count_eq r roots)) <$> foldr unique_insert [] roots.

(** [UnionFind.get_component_sizes].  The dictionary is kept as the list of
    its items in insertion order, which is what [.items()] iterates. *)
Definition get_component_sizes (self : UnionFind)
  : res (UnionFind * list (nat * nat)) :=
  let? (self, roots) := find_all self in
  Ok (self, np_unique_counts roots).

(** [key=lambda x: x[1], reverse=True]: larger size goes first. *)
Definition size_before (y x : nat * nat) : bool := (snd x <? snd y)%nat.

(** [l[:n]] for a Python integer [n]. *)
Definition slice_to {A : Type} (l : list A) (n : Z) : list A :=
  if 0 <=? n then take (Z.to_nat n) l
  else take (length l - Z.to_nat (- n)) l.

(** [roots, sizes = zip] of the unpacked items: unpacking needs two columns,
    and an empty list of items gives none. *)
Definition unzip2 (items : list (nat * nat)) : res (list nat * list nat) :=
  match items with
  | [] => Raise ValueError
  | _ => Ok (items.*1, items.*2)
  end.

(** [UnionFind.get_largest_components]. *)
Definition get_largest_components (self : UnionFind) (n : Z)
  : res (UnionFind * (list nat * list nat)) :=
  let? (self, component_sizes) := get_component_sizes self in
  let sorted_components := sorted size_before component_sizes in
  if n <=? Z.of_nat (length sorted_components) then
    let? cols := unzip2 (slice_to sorted_components n) in
    Ok (self, cols)
  else
    let? cols := unzip2 sorted_components in
    Ok (self, cols).

(** ** binary64 arithmetic *)

(** The nearest integer, a half going to the even neighbour. *)
Definition round_half_even (q : Q) : Z :=
  let f := Qfloor q in
  match (q - inject_Z f ?= 1 # 2)%Q with
  | Lt => f
  | Gt => f + 1
  | Eq => if Z.even f then f else f + 1
  end.

(** [floor (log2 q)] of a positive [q]. *)
Definition ilog2 (q : Q) : Z :=
  let e := Z.log2 (Qnum q) - Z.log2 (Zpos (Qden q)) in
  if Qle_bool (2 ^ e) q then e else e - 1.

(** A positive number rounded to 53 significant bits. *)
Definition round53 (q : Q) : Q :=
  let s := 52 - ilog2 q in
  (inject_Z (round_half_even (q * 2 ^ s)) * 2 ^ (- s))%Q.

(** The binary64 number nearest to [q], in lowest terms. *)
Definition float64 (q : Q) : Q :=
  Qred (match Qnum q with
        | Z0 => 0%Q
        | Zpos _ => round53 q
        | Zneg _ => (- round53 (- q))%Q
        end).

(** Python's [float(k)] on a number [k]: the nearest binary64 number;
    OverflowError when that would be [2^1024] or beyond. *)
Definition py_float (k : Q) : res Q :=
  let f := float64 k in
  if Qle_bool (2 ^ 1024) (Qabs f) then Raise OverflowError else Ok f.

(** ** Pixel buffers

    A numpy image is its element type, its shape and its elements in
    row-major order.  [channels = None] is a 2-D array, [Some c] a 3-D array
    with [c] channels.  Elements are rationals: an integer element type holds
    integral values, and arithmetic on them wraps the way numpy's does;
    a [Float64] element is a binary64 number, and arithmetic on them
    rounds. *)

Inductive dtype : Type :=
  | UInt8
  | Int64
  | Float64.

Record ndarray : Type := mkArray {
  dt : dtype;
  height : nat;
  width : nat;
  channels : option nat;
  data : list Q
}.

Definition ndim (a : ndarray) : nat :=
  match channels a with None => 2 | Some _ => 3 end.

Definition pixel_len (a : ndarray) : nat :=
  match channels a with None => 1 | Some c => c end.

Definition array_ok (a : ndarray) : Prop :=
  length (data a) = (height a * width a * pixel_len a)%nat.

Definition wrap_u8 (z : Z) : Z := z mod 256.
Definition wrap_u64 (z : Z) : Z := z mod 2 ^ 64.
Definition wrap_i64 (z : Z) : Z := (z + 2 ^ 63) mod 2 ^ 64 - 2 ^ 63.

(** Element-wise [a - b] and [a ** 2] at the array's element type (the result
    keeps that type, as numpy's promotion rules have it since NumPy 2; under
    the older rules only the scalar square of a [uint8] is widened, the
    subtraction wraps all the same). *)
Definition elt_sub (d : dtype) (a b : Q) : Q :=
  match d with
  | UInt8 => inject_Z (wrap_u8 (Qfloor a - Qfloor b))
  | Int64 => inject_Z (wrap_i64 (Qfloor a - Qfloor b))
  | Float64 => float64 (a - b)
  end.

Definition elt_sq (d : dtype) (a : Q) : Q :=
  match d with
  | UInt8 => inject_Z (wrap_u8 (Qfloor a * Qfloor a))
  | Int64 => inject_Z (wrap_i64 (Qfloor a * Qfloor a))
  | Float64 => float64 (a * a)
  end.

Definition Qsum (l : list Q) : Q := foldr Qplus 0%Q l.

(** [np.sum] of a 1-D array: small unsigned integers accumulate in [uint64],
    [int64] in [int64]; binary64 numbers are added one after the other from
    zero, each sum rounded.  (numpy sums an array of fewer than eight
    elements, as a pixel of an image is, in such a plain loop; the blocks it
    uses for longer arrays are not modelled.) *)
Definition np_sum (d : dtype) (l : list Q) : Q :=
  match d with
  | UInt8 => inject_Z (wrap_u64 (Qfloor (Qsum l)))
  | Int64 => inject_Z (wrap_i64 (Qfloor (Qsum l)))
  | Float64 => fold_left (fun acc x => float64 (acc + x)) l 0%Q
  end.

(** [image[y, x]]: the [pixel_len] elements of that pixel. *)
Definition np_pixel (a : ndarray) (y x : nat) : res (list Q) :=
  if (y <? height a)%nat && (x <? width a)%nat then
    let c := pixel_len a in
    let px := take c (drop ((y * width a + x) * c) (data a)) in
    if (length px =? c)%nat then Ok px else Raise IndexError
  else Raise IndexError.

(** [image[y, x] = v] for [v] with [length v] elements: a scalar when the
    array is 2-D, a 1-D array otherwise, which must broadcast to the pixel. *)
Definition np_store (a : ndarray) (y x : nat) (v : list Q) : res ndarray :=
  if (y <? height a)%nat && (x <? width a)%nat then
    let c := pixel_len a in
    let? px :=
      (if (length v =? c)%nat then Ok v
       else match v with
            | [s] => Ok (replicate c s)
            | _ => Raise ValueError
            end) in
    let off := ((y * width a + x) * c)%nat in
    Ok (mkArray (dt a) (height a) (width a) (channels a)
          (take off (data a) ++ px ++ drop (off + c) (data a)))
  else Raise IndexError.

Definition zeros_like (a : ndarray) : ndarray :=
  mkArray (dt a) (height a) (width a) (channels a)
    (replicate (length (data a)) 0%Q).

(** ** The adjacency graph *)

Definition edge : Type := Q * nat * nat.

Definition weight_of (e : edge) : Q := fst (fst e).

(** The tuple [(weight, u, v)]. *)
Definition mk_edge (weight : Q) (u v : nat) : edge := (weight, u, v).

(** How two pixels differ: [np.sum((p - q)**2)] for a colour image,
    [(p - q)**2] on the two scalars otherwise. *)
Definition pixel_diff (image : ndarray) (is_color : bool) (y x y' x' : nat)
  : res Q :=
  let? p := np_pixel image y x in
  let? q := np_pixel image y' x' in
  let d := dt image in
  if is_color then
    Ok (np_sum d (zip_with (fun a b => elt_sq d (elt_sub d a b)) p q))
  else
    match p, q with
    | [a], [b] => Ok (elt_sq d (elt_sub d a b))
    | _, _ => Raise IndexError
    end.

(** Tuple comparison [(w1, u1, v1) < (w2, u2, v2)]: the first component that
    differs decides. *)
Definition edge_lt (e1 e2 : edge) : bool :=
  let '(w1, u1, v1) := e1 in
  let '(w2, u2, v2) := e2 in
  if negb (Qeq_bool w1 w2) then Qle_bool w1 w2
  else if negb (u1 =? u2)%nat then (u1 <? u2)%nat
  else (v1 <? v2)%nat.

Definition graph_pixel (image : ndarray) (is_color : bool) (y : nat)
    (edges : list edge) (x : nat) : res (list edge) :=
  let h := height image in
  let w := width image in
  let u := (y * w + x)%nat in
  let? edges :=
    (if Z.of_nat x <? Z.of_nat w - 1 then
       let v := (y * w + (x + 1))%nat in
       let? diff := pixel_diff image is_color y x y (x + 1) in
       Ok (edges ++ [(diff, u, v)])
     else Ok edges) in
  if Z.of_nat y <? Z.of_nat h - 1 then
    let v := ((y + 1) * w + x)%nat in
    let? diff := pixel_diff image is_color y x (y + 1) x in
    Ok (edges ++ [(diff, u, v)])
  else Ok edges.

Definition graph_row (image : ndarray) (is_color : bool)
    (edges : list edge) (y : nat) : res (list edge) :=
  res_fold (graph_pixel image is_color y) (seq 0 (width image)) edges.

Definition create_graph (image : ndarray) : res (list edge) :=
  let is_color := (ndim image =? 3)%nat in
  let? edges :=
    res_fold (graph_row image is_color) (seq 0 (height image)) [] in
  Ok (sorted edge_lt edges).

(** ** The object store

    Arrays live in a store and are passed by reference, so that an
    assignment through one name is seen through every other name of the same
    array.  A location that holds no array stands for an argument that is not
    an array at all. *)

Abbreviation heap := (list ndarray).
Abbreviation loc := nat (only parsing).

Definition heap_get (h : heap) (l : loc) : res ndarray :=
  match h !! l with
  | Some a => Ok a
  | None => Raise TypeError
  end.

(** A newly created array gets a location no existing array has. *)
Definition heap_alloc (h : heap) (a : ndarray) : heap * loc :=
  (h ++ [a], length h).

(** [name[y, x] = v] *)
Definition heap_store (h : heap) (l : loc) (y x : nat) (v : list Q)
  : res heap :=
  let? a := heap_get h l in
  let? a' := np_store a y x v in
  Ok (<[l := a']> h).

(** ** The segmentation engine *)

(** Python's [min(a, b)]: [b] when [b < a], else [a]. *)
Definition py_min (a b : Q) : Q :=
  if negb (Qle_bool a b) then b else a.

(** Body of the first loop over the edges.  [threshold] is a binary64
    array and [weight] a numpy scalar of the image's element type:
    [weight <= MInt] compares [weight] converted to binary64, and
    [weight + float(k)] is the binary64 sum of the converted [weight] and
    [float(k)]. *)
Definition merge_edge (k : Q) (st : UnionFind * list Q) (e : edge)
  : res (UnionFind * list Q) :=
  let '(uf, threshold) := st in
  let '(weight, u, v) := e in
  let? (uf, root_u) := find uf (Z.of_nat u) in
  let? (uf, root_v) := find uf (Z.of_nat v) in
  if negb (root_u =? root_v)%nat then
    let? tu := np_get threshold (Z.of_nat root_u) in
    let? tv := np_get threshold (Z.of_nat root_v) in
    let MInt := py_min tu tv in
    if Qle_bool (float64 weight) MInt then
      let? (uf, _) := union uf (Z.of_nat root_u) (Z.of_nat root_v) in
      let? (uf, new_root) := find uf (Z.of_nat root_u) in
      let? fk := py_float k in
      let? threshold :=
        np_set threshold (Z.of_nat new_root)
          (float64 (float64 weight + fk)) in
      Ok (uf, threshold)
    else Ok (uf, threshold)
  else Ok (uf, threshold).

(** Body of the second loop: [np.sum(uf.parent == root)] counts the entries
    of the parent array that are equal to [root]. *)
Definition cleanup_edge (min_size : Z) (uf : UnionFind) (e : edge)
  : res UnionFind :=
  let '(weight, u, v) := e in
  let? (uf, root_u) := find uf (Z.of_nat u) in
  let? (uf, root_v) := find uf (Z.of_nat v) in
  if negb (root_u =? root_v)%nat then
    let size_u := count_eq root_u (parent uf) in
    let size_v := count_eq root_v (parent uf) in
    if (Z.of_nat size_u <? min_size) || (Z.of_nat size_v <? min_size) then
      let? (uf, _) := union uf (Z.of_nat root_u) (Z.of_nat root_v) in
      Ok uf
    else Ok uf
  else Ok uf.

(** [np.random.randint(0, 255, size)]: the generator is a stream of draws,
    [ctr] counts the draws made so far. *)
Definition randint (rand : nat -> Z) (ctr size : nat) : list Q * nat :=
  ((fun i => inject_Z (rand (ctr + i)%nat mod 255)) <$> seq 0 size,
   (ctr + size)%nat).

Definition paint_state : Type :=
  heap * UnionFind * gmap nat (list Q) * nat.

Definition paint_pixel (rand : nat -> Z) (is_color : bool) (width : nat)
    (segmented_image : loc) (y : nat) (st : paint_state) (x : nat)
  : res paint_state :=
  let '(h, uf, component_colors, ctr) := st in
  let? (uf, root) := find uf (Z.of_nat (y * width + x)) in
  let '(color, component_colors, ctr) :=
    match component_colors !! root with
    | Some c => (c, component_colors, ctr)
    | None =>
        let '(c, ctr) := randint rand ctr (if is_color then 3 else 1) in
        (c, <[root := c]> component_colors, ctr)
    end in
  let? h := heap_store h segmented_image y x color in
  Ok (h, uf, component_colors, ctr).

Definition paint_row (rand : nat -> Z) (is_color : bool) (width : nat)
    (segmented_image : loc) (st : paint_state) (y : nat) : res paint_state :=
  res_fold (paint_pixel rand is_color width segmented_image y)
    (seq 0 width) st.

(** The first loop, from the fresh forest and the thresholds
    [np.full(num_pixels, float(k))]. *)
Definition first_pass (k : Q) (edges : list edge) (num_pixels : nat)
  : res (UnionFind * list Q) :=
  let? uf := UnionFind_init (Z.of_nat num_pixels) in
  let? fk := py_float k in
  let threshold := replicate num_pixels fk in
  res_fold (merge_edge k) edges (uf, threshold).

(** The second loop, guarded by [if min_size > 0]. *)
Definition second_pass (min_size : Z) (edges : list edge) (uf : UnionFind)
  : res UnionFind :=
  if 0 <? min_size then res_fold (cleanup_edge min_size) edges uf
  else Ok uf.

(** The raster scan that colours the output buffer. *)
Definition paint (rand : nat -> Z) (is_color : bool) (height width : nat)
    (segmented_image : loc) (h : heap) (uf : UnionFind) : res paint_state :=
  res_fold (paint_row rand is_color width segmented_image)
    (seq 0 height) (h, uf, ∅, 0%nat).

Section Engine.

(** [skimage.filters.gaussian(image, sigma, preserve_range=True)], with
    [channel_axis=-1] when the flag is set: an external collaborator that
    returns a new array. *)
Variable gaussian : ndarray -> Q -> bool -> ndarray.

Definition felzenszwalb_huttenlocher (h : heap) (image : loc) (k : Q)
    (min_size : Z) (sigma : Q) (rand : nat -> Z)
  : res (heap * (loc * Z * UnionFind)) :=
  let? img := heap_get h image in
  let height := height img in
  let width := width img in
  let num_pixels := (height * width)%nat in
  let is_color := (ndim img =? 3)%nat in
  let '(h, smoothed_image) :=
    if negb (Qle_bool sigma 0) then
      heap_alloc h (gaussian img sigma is_color)
    else heap_alloc h img in
  let? smoothed := heap_get h smoothed_image in
  let? edges := create_graph smoothed in
  let? (uf, threshold) := first_pass k edges num_pixels in
  let? uf := second_pass min_size edges uf in
  let '(h, segmented_image) := heap_alloc h (zeros_like img) in
  let? st := paint rand is_color height width segmented_image h uf in
  let '(h, uf, _, _) := st in
  Ok (h, (segmented_image, num_sets uf, uf)).

End Engine.

(** ** Vocabulary of the statements *)

(** [root_of par i r]: following [par] from [i] ends at [r], which is its own
    parent. *)
Inductive root_of (par : list nat) : nat -> nat -> Prop :=
  | root_here i : par !! i = Some i -> root_of par i i
  | root_step i p r :
      par !! i = Some p -> p ≠ i -> root_of par p r -> root_of par i r.

(** Where the roots go when root [a] is hung under root [b]. *)
Definition merged (a b r : nat) : nat := if decide (r = a) then b else r.

(** Two parent arrays describe the same partition with the same
    representatives. *)
Definition same_roots (par par' : list nat) : Prop :=
  ∀ i r, root_of par i r ↔ root_of par' i r.

Definition count_roots (par : list nat) : nat :=
  length (filter (fun i => par !! i = Some i) (seq 0 (length par))).

(** The representation invariant of the forest: parents are indices, ranks
    grow strictly towards the root and are bounded, and [num_sets] counts the
    roots. *)
Record wf (uf : UnionFind) : Prop := mk_wf {
  wf_len : length (rank uf) = length (parent uf);
  wf_range : ∀ i p, parent uf !! i = Some p → (p < length (parent uf))%nat;
  wf_rank : ∀ i p, parent uf !! i = Some p → p ≠ i →
            (rank uf !!! i < rank uf !!! p)%nat;
  wf_bound : ∀ i, Z.of_nat (rank uf !!! i) + num_sets uf
                  ≤ Z.of_nat (length (parent uf));
  wf_count : num_sets uf = Z.of_nat (count_roots (parent uf))
}.

(** The size of the component of [root] as the specification has it: the
    number of indices whose root resolves, through [find], to [root]. *)
Definition live_size (uf : UnionFind) (root : nat) : res (UnionFind * nat) :=
  let? (uf, roots) := find_all uf in
  Ok (uf, count_eq root roots).

(** The second loop's body as the specification words it, for comparison
    with [cleanup_edge]: the two sizes are live component sizes. *)
Definition cleanup_edge_live (min_size : Z) (uf : UnionFind) (e : edge)
  : res UnionFind :=
  let '(weight, u, v) := e in
  let? (uf, root_u) := find uf (Z.of_nat u) in
  let? (uf, root_v) := find uf (Z.of_nat v) in
  if negb (root_u =? root_v)%nat then
    let? (uf, size_u) := live_size uf root_u in
    let? (uf, size_v) := live_size uf root_v in
    if (Z.of_nat size_u <? min_size) || (Z.of_nat size_v <? min_size) then
      let? (uf, _) := union uf (Z.of_nat root_u) (Z.of_nat root_v) in
      Ok uf
    else Ok uf
  else Ok uf.

(** Two runs end alike: both return, with related values, or both raise the
    same exception. *)
Definition res_rel {A B : Type} (R : A -> B -> Prop) (m1 : res A) (m2 : res B)
  : Prop :=
  match m1, m2 with
  | Ok a, Ok b => R a b
  | Raise e1, Raise e2 => e1 = e2
  | _, _ => False
  end.

Definition same_shape (a b : ndarray) : Prop :=
  height a = height b ∧ width a = width b ∧ channels a = channels b.

(** Two states of the colouring scan that differ at most in the colours
    drawn: the same forest, output buffers of the same shape at [out], and
    the same roots coloured so far with colours of the same length. *)
Definition paint_sim (out : loc) (s1 s2 : paint_state) : Prop :=
  let '(h1, uf1, cc1, _) := s1 in
  let '(h2, uf2, cc2, _) := s2 in
  uf1 = uf2 ∧
  option_Forall2 same_shape (h1 !! out) (h2 !! out) ∧
  ∀ r : nat,
    option_Forall2 (fun c1 c2 : list Q => length c1 = length c2)
      (cc1 !! r) (cc2 !! r).

(** What the scan needs to go on: a well-formed forest over the pixels, an
    output buffer of the image's shape, and colours that fit a pixel. *)
Definition paint_ready (hh ww : nat) (ch : option nat) (out : nat)
    (st : paint_state) : Prop :=
  let '(h, uf, cc, _) := st in
  wf uf ∧ length (parent uf) = (hh * ww)%nat ∧
  (∃ a, h !! out = Some a ∧ height a = hh ∧ width a = ww ∧ channels a = ch) ∧
  ∀ r c, cc !! r = Some c →
         length c = match ch with None => 1%nat | Some n => n end.

(** The array handed to the graph builder: the smoothed image when
    [sigma > 0], a copy of the input otherwise. *)
Definition smoothed_of (gaussian : ndarray -> Q -> bool -> ndarray)
    (img : ndarray) (sigma : Q) : ndarray :=
  if negb (Qle_bool sigma 0) then gaussian img sigma (ndim img =? 3)%nat
  else img.

(** What a run tells apart from its colours: the output location, the
    segment count and the forest. *)
Definition partition_of (r : heap * (loc * Z * UnionFind))
  : loc * Z * UnionFind := snd r.

(** The [component_sizes] mapping of the forest a run returns. *)
Definition component_sizes_of (m : res (heap * (loc * Z * UnionFind)))
  : res (list (nat * nat)) :=
  let? r := m in
  let? (_, sizes) := get_component_sizes (snd (snd r)) in
  Ok sizes.

(** Both ends of the edge are pixel indices below [n]. *)
Definition edge_in (n : nat) (e : edge) : Prop :=
  (snd (fst e) < n)%nat ∧ (snd e < n)%nat.

(** Ascending weight. *)
Definition weight_le (e1 e2 : edge) : Prop :=
  (weight_of e1 <= weight_of e2)%Q.

(** The order of the ranking: larger size first, and among equal sizes the
    smaller root first. *)
Definition ranked_before (a b : nat * nat) : Prop :=
  (snd b < snd a)%nat ∨ (snd a = snd b ∧ (fst a < fst b)%nat).

(** The forests a client can hold: made by the constructor, then handed
    through calls of [find] and [union] that returned. *)
Inductive built : UnionFind -> Prop :=
  | built_new size : built (new size)
  | built_find uf i uf' r :
      built uf -> find uf i = Ok (uf', r) -> built uf'
  | built_union uf i j uf' v :
      built uf -> union uf i j = Ok (uf', v) -> built uf'.

(** [uf.union(i, j)] for each pair of the list, in order. *)
Definition run_unions (uf : UnionFind) (ops : list (Z * Z)) : res UnionFind :=
  res_fold (fun uf ij => let? (uf', _) := union uf (fst ij) (snd ij) in Ok uf')
    ops uf.

Definition in_range (uf : UnionFind) (i : Z) : Prop :=
  0 ≤ i < Z.of_nat (length (parent uf)).

(** ** Further vocabulary *)

(** [x] and [y] are in the same set: they have a common root. *)
Definition same_set (par : list nat) (x y : nat) : Prop :=
  ∃ r, root_of par x r ∧ root_of par y r.

(** [on_path par i j]: [j] is one of the elements [find(i)] visits, from [i]
    up to its root. *)
Inductive on_path (par : list nat) : nat -> nat -> Prop :=
  | path_here i : (i < length par)%nat -> on_path par i i
  | path_step i p j :
      par !! i = Some p -> p ≠ i -> on_path par p j -> on_path par i j.

(** Every set of [par] lies within one set of [par']. *)
Definition coarsens (par par' : list nat) : Prop :=
  ∀ x y, same_set par x y → same_set par' x y.

(** The edge between two pixels, when their difference is defined. *)
Definition diff_edge (image : ndarray) (y x y' x' : nat) : list edge :=
  match pixel_diff image (ndim image =? 3)%nat y x y' x' with
  | Ok d => [mk_edge d (y * width image + x) (y' * width image + x')]
  | Raise _ => []
  end.

(** What pixel [(y, x)] contributes: the edge to its right neighbour, then
    the edge to the neighbour below. *)
Definition pixel_edges (image : ndarray) (y x : nat) : list edge :=
  (if decide (x + 1 < width image)%nat
   then diff_edge image y x y (x + 1) else []) ++
  (if decide (y + 1 < height image)%nat
   then diff_edge image y x (y + 1) x else []).

Definition grid_edges (image : ndarray) : list edge :=
  seq 0 (height image) ≫= λ y, seq 0 (width image) ≫= pixel_edges image y.

(** The two pixels an edge joins. *)
Definition ends (e : edge) : nat * nat := (snd (fst e), snd e).

(** [at_least par m x]: the set of [x] has at least [m] elements. *)
Definition at_least (par : list nat) (m : Z) (x : nat) : Prop :=
  ∃ members, NoDup members ∧ Forall (λ y, same_set par y x) members ∧
             m ≤ Z.of_nat (length members).

(** An edge that the second loop has nothing more to do about: its ends are
    in one set, or each in a set of at least [m] elements. *)
Definition settled (par : list nat) (m : Z) (e : edge) : Prop :=
  same_set par (snd (fst e)) (snd e) ∨
  (at_least par m (snd (fst e)) ∧ at_least par m (snd e)).

(** Pixel [b] is the right or the lower neighbour of pixel [a] in a raster
    of [h] rows and [w] columns. *)
Definition grid_next (h w a b : nat) : Prop :=
  ∃ y x, (y < h)%nat ∧ (x < w)%nat ∧ a = (y * w + x)%nat ∧
    (((x + 1 < w)%nat ∧ b = (y * w + (x + 1))%nat) ∨
     ((y + 1 < h)%nat ∧ b = ((y + 1) * w + x)%nat)).

(** Some edge of the list goes from [a] to [b]. *)
Definition edge_between (edges : list edge) (a b : nat) : Prop :=
  ∃ d, mk_edge d a b ∈ edges.

(** Two neighbours of one set; [region] chains such steps, in either
    direction. *)
Definition joined (E : nat → nat → Prop) (par : list nat) (a b : nat) : Prop :=
  E a b ∧ same_set par a b.

Definition region (E : nat → nat → Prop) (par : list nat) : relation nat :=
  rtsc (joined E par).

(** A colour drawn by [randint(0, 255)]: integers from 0 to 254. *)
Definition colour_ok (c : list Q) : Prop :=
  Forall (λ q, ∃ z, q = inject_Z z ∧ 0 ≤ z < 255) c.

(** The state of the raster scan, relative to the forest [uf0] and the image
    [img0] it started from. *)
Definition paint_inv (uf0 : UnionFind) (img0 : ndarray) (out : nat)
    (st : paint_state) : Prop :=
  let '(h, uf, cc, _) := st in
  wf uf ∧ same_roots (parent uf0) (parent uf) ∧
  (∃ a, h !! out = Some a ∧ array_ok a ∧ same_shape a img0 ∧
        dt a = dt img0) ∧
  ∀ r c, cc !! r = Some c →
         length c = (if (ndim img0 =? 3)%nat then 3%nat else 1%nat) ∧
         colour_ok c.

(** Pixel [yx] of the output holds the colour of its segment. *)
Definition painted (uf0 : UnionFind) (width out : nat) (yx : nat * nat)
    (st : paint_state) : Prop :=
  let '(h, _, cc, _) := st in
  ∃ a r c, h !! out = Some a ∧
    root_of (parent uf0) (fst yx * width + snd yx) r ∧
    cc !! r = Some c ∧ np_pixel a (fst yx) (snd yx) = Ok c.

(** ** Reading the segments back *)

(** One dictionary of [segment_info]. *)
Record segment_entry : Type := mk_entry {
  seg_id : nat;
  seg_root : nat;
  seg_size : nat;
  seg_mask : list bool
}.

(** The dictionary that [analyze_segments] returns. *)
Record analysis : Type := mk_analysis {
  total_segments : Z;
  largest_segments : list ndarray;
  segment_info : list segment_entry;
  component_sizes : list (nat * nat)
}.

(** [np.array([r == root for r in found])], one entry per pixel in raster
    order. *)
Definition mask_of (root : nat) (found : list nat) : list bool :=
  (fun r => (r =? root)%nat) <$> found.

(** [segment = np.zeros_like(image); segment[mask] = image[mask]]: the
    pixels under the mask are copied, the others stay zero. *)
Definition apply_mask (image : ndarray) (mask : list bool) : ndarray :=
  mkArray (dt image) (height image) (width image) (channels image)
    (imap (fun i q =>
             if default false (mask !! (i / pixel_len image)%nat)
             then q else 0%Q)
       (data image)).

(** Body of the loop over [enumerate(zip(largest_roots, largest_sizes))].
    A comprehension over no pixels makes a [float64] array, which numpy
    refuses as an index. *)
Definition analyze_segment (original_image : ndarray) (num_pixels : nat)
    (st : UnionFind * list ndarray * list segment_entry)
    (it : nat * (nat * nat))
  : res (UnionFind * list ndarray * list segment_entry) :=
  let '(uf, segments, segment_info) := st in
  let '(i, (root, size)) := it in
  let? (uf, found) := find_each uf (seq 0 num_pixels) in
  match found with
  | [] => Raise IndexError
  | _ =>
      let mask := mask_of root found in
      let segment := apply_mask original_image mask in
      Ok (uf, segments ++ [segment],
          segment_info ++ [mk_entry (i + 1) root size mask])
  end.

(** [analyze_segments(original_image, union_find_obj, top_n)]. *)
Definition analyze_segments (original_image : ndarray)
    (union_find_obj : UnionFind) (top_n : Z) : res (UnionFind * analysis) :=
  let num_pixels := (height original_image * width original_image)%nat in
  let? (uf, largest) := get_largest_components union_find_obj top_n in
  let '(largest_roots, largest_sizes) := largest in
  let items := zip largest_roots largest_sizes in
  let? (uf, segments, segment_info) :=
    res_fold (analyze_segment original_image num_pixels)
      (zip (seq 0 (length items)) items) (uf, [], []) in
  let? (uf', sizes) := get_component_sizes uf in
  Ok (uf', mk_analysis (num_sets uf) segments segment_info sizes).

(** Element [j] points directly at a root. *)
Definition flat_at (par : list nat) (j : nat) : Prop :=
  ∃ r, par !! j = Some r ∧ par !! r = Some r.

(** ** The first pass, as the specification words it

    The state of the rule is the label of the component of every pixel and
    a threshold per label.  For an edge [(w, u, v)] with [ru] and [rv] the
    labels of [u] and [v]: nothing happens when [ru = rv]; otherwise, with
    [m = min(threshold[ru], threshold[rv])], the two components are merged
    when [w <= m], and the threshold of the merged component is [w + k].
    The comparison [le] and the addition [add] are those of the number type
    the rule is read in. *)
Definition rule_state : Type := list nat * list Q.

(** Component [a] joins component [b]. *)
Definition relabel (a b : nat) (labels : list nat) : list nat :=
  (λ l, if (l =? a)%nat then b else l) <$> labels.

Definition rule_step (le : Q → Q → bool) (add : Q → Q → Q) (k : Q)
    (st : rule_state) (e : edge) : rule_state :=
  let '(labels, threshold) := st in
  let '(w, u, v) := e in
  match labels !! u, labels !! v with
  | Some ru, Some rv =>
      if (ru =? rv)%nat then st
      else
        match threshold !! ru, threshold !! rv with
        | Some tu, Some tv =>
            let m := py_min tu tv in
            if le w m then
              (relabel rv ru labels, <[ru := add w k]> threshold)
            else st
        | _, _ => st
        end
  | _, _ => st
  end.

(** The rule over the edges in list order, from singleton components that
    all have threshold [k]. *)
Definition rule_pass (le : Q → Q → bool) (add : Q → Q → Q) (k : Q)
    (edges : list edge) (n : nat) : rule_state :=
  fold_left (rule_step le add k) edges (seq 0 n, replicate n k).

(** The rule read over the real numbers. *)
Definition exact_pass (k : Q) (edges : list edge) (n : nat) : rule_state :=
  rule_pass Qle_bool Qplus k edges n.

(** The rule read in binary64: [w] is converted before it is compared, and
    the sum of the converted [w] and [k] is rounded. *)
Definition binary64_le (w m : Q) : bool := Qle_bool (float64 w) m.
Definition binary64_add (w k : Q) : Q := float64 (float64 w + k).

Definition binary64_pass (k : Q) (edges : list edge) (n : nat) : rule_state :=
  rule_pass binary64_le binary64_add (float64 k) edges n.

(** A forest and its threshold array stand for a state of the rule: the
    same pixels are together, and the threshold at the root of a pixel is
    the threshold of its label. *)
Definition refines (n : nat) (uf : UnionFind) (threshold : list Q)
    (st : rule_state) : Prop :=
  length (parent uf) = n ∧ length st.1 = n ∧
  (∀ x y, (x < n)%nat → (y < n)%nat →
     same_set (parent uf) x y ↔ st.1 !! x = st.1 !! y) ∧
  (∀ x r l, root_of (parent uf) x r → st.1 !! x = Some l →
     ∃ t, threshold !! r = Some t ∧ st.2 !! l = Some t).

(** The numbers binary64 holds at full precision, with room for the sum of
    two of them: zero, and the magnitudes from [2^-1022] to [2^1022]. *)
Definition in_binary64_range (q : Q) : Prop :=
  ((q == 0 ∨ 2 ^ (-1022) <= Qabs q) ∧ Qabs q <= 2 ^ 1022)%Q.

(** What the first loop keeps true of its forest and thresholds, against
    the state of the rule. *)
Definition rule_inv (n : nat) (uf : UnionFind) (threshold : list Q)
    (st : rule_state) : Prop :=
  wf uf ∧ length (parent uf) = n ∧ length threshold = n ∧
  length st.1 = n ∧ length st.2 = n ∧
  Forall (λ l, (l < n)%nat) st.1 ∧
  (∀ x y rx ry lx ly,
     root_of (parent uf) x rx → root_of (parent uf) y ry →
     st.1 !! x = Some lx → st.1 !! y = Some ly → rx = ry ↔ lx = ly) ∧
  (∀ x r l, root_of (parent uf) x r → st.1 !! x = Some l →
     threshold !! r = st.2 !! l).

(** * Proofs *)

(** ** Indexing *)

Ltac np_index_tac n i :=
  unfold np_index, index_too_large;
  destruct (Z.leb_spec (2 ^ 63) i), (Z.ltb_spec i (2 ^ 64)),
    (Z.ltb_spec (Z.of_nat n) i),
    (Z.leb_spec 0 i), (Z.ltb_spec i (Z.of_nat n)),
    (Z.leb_spec (- Z.of_nat n) i), (Z.ltb_spec i 0); simpl.

Lemma np_index_nat (n i : nat) : (i < n)%nat → np_index n (Z.of_nat i) = Ok i.
Proof.
  intros Hi. np_index_tac n (Z.of_nat i); try lia; by rewrite Nat2Z.id.
Qed.

Lemma np_index_neg (n : nat) (i : Z) :
  - Z.of_nat n ≤ i < 0 → np_index n i = Ok (Z.to_nat (i + Z.of_nat n)).
Proof. intros Hi. np_index_tac n i; try done; lia. Qed.

Lemma index_too_large_iff (n : nat) (i : Z) :
  index_too_large n i = true ↔ 2 ^ 63 ≤ i < 2 ^ 64 ∧ Z.of_nat n < i.
Proof.
  unfold index_too_large.
  destruct (Z.leb_spec (2 ^ 63) i), (Z.ltb_spec i (2 ^ 64)),
    (Z.ltb_spec (Z.of_nat n) i); simpl; split; try done; lia.
Qed.

Lemma np_index_out (n : nat) (i : Z) :
  index_too_large n i = false →
  i < - Z.of_nat n ∨ Z.of_nat n ≤ i → np_index n i = Raise IndexError.
Proof.
  intros Hf Hi. unfold np_index. rewrite Hf.
  destruct (Z.leb_spec 0 i), (Z.ltb_spec i (Z.of_nat n)),
    (Z.leb_spec (- Z.of_nat n) i), (Z.ltb_spec i 0); simpl; try done; lia.
Qed.

Lemma np_index_overflow (n : nat) (i : Z) :
  index_too_large n i = true → np_index n i = Raise OverflowError.
Proof.
  intros Hf. pose proof (proj1 (index_too_large_iff n i) Hf) as [Hi Hn].
  assert (0 < 2 ^ 63) by (by vm_compute).
  unfold np_index. rewrite Hf.
  destruct (Z.leb_spec 0 i), (Z.ltb_spec i (Z.of_nat n)),
    (Z.leb_spec (- Z.of_nat n) i), (Z.ltb_spec i 0); simpl; try done; lia.
Qed.

Lemma np_index_end (n : nat) : np_index n (Z.of_nat n) = Raise IndexError.
Proof.
  apply np_index_out; [|lia].
  destruct (index_too_large n (Z.of_nat n)) eqn:Hf; [|done].
  apply index_too_large_iff in Hf. lia.
Qed.

Lemma np_index_ok_lt (n : nat) (i : Z) (k : nat) :
  np_index n i = Ok k → (k < n)%nat.
Proof. np_index_tac n i; intros [= <-]; lia. Qed.

Lemma np_get_nat {A} (a : list A) (i : nat) (x : A) :
  a !! i = Some x → np_get a (Z.of_nat i) = Ok x.
Proof.
  intros Hx. unfold np_get.
  rewrite np_index_nat by (by eapply lookup_lt_Some). simpl. by rewrite Hx.
Qed.

Lemma np_set_nat {A} (a : list A) (i : nat) (x : A) :
  (i < length a)%nat → np_set a (Z.of_nat i) x = Ok (<[i := x]> a).
Proof. intros Hi. unfold np_set. by rewrite np_index_nat. Qed.

(** ** Roots *)

Lemma root_of_is_root par i r : root_of par i r → par !! r = Some r.
Proof. induction 1; auto. Qed.

Lemma root_of_functional par i r r' :
  root_of par i r → root_of par i r' → r = r'.
Proof.
  intros H. revert r'. induction H as [i Hi|i p r Hp Hne _ IH]; intros r' H'.
  - inversion H'; subst; [done | congruence].
  - inversion H'; subst; [congruence |].
    apply IH. congruence.
Qed.

Lemma root_of_root par r i : par !! r = Some r → root_of par r i → i = r.
Proof. intros Hr H. eapply root_of_functional; [done | by constructor]. Qed.

Lemma root_of_lt par i r : root_of par i r → (i < length par)%nat.
Proof. destruct 1; by eapply lookup_lt_Some. Qed.

Lemma root_of_idem par i r : root_of par i r → root_of par r r.
Proof. intros H. constructor. by eapply root_of_is_root. Qed.

Lemma same_roots_refl par : same_roots par par.
Proof. by intros i r. Qed.

Lemma same_roots_trans p1 p2 p3 :
  same_roots p1 p2 → same_roots p2 p3 → same_roots p1 p3.
Proof. intros H1 H2 i r. etrans; [apply H1 | apply H2]. Qed.

Lemma same_roots_is_root par par' i :
  same_roots par par' → (i < length par')%nat →
  par !! i = Some i → par' !! i = Some i.
Proof.
  intros Hs Hlt Hi. apply (root_of_is_root par' i i), Hs. by constructor.
Qed.

Lemma root_of_rank uf i r :
  wf uf → root_of (parent uf) i r → i ≠ r → (rank uf !!! i < rank uf !!! r)%nat.
Proof.
  intros Hwf H. induction H as [i Hi|i p r Hp Hne H IH]; [done|].
  intros _. pose proof (wf_rank uf Hwf i p Hp Hne).
  destruct (decide (p = r)) as [->|Hpr]; [done|]. specialize (IH Hpr). lia.
Qed.

(** Path compression keeps every root where it was. *)
Lemma compress_same_roots par i r :
  root_of par i r → i ≠ r → same_roots par (<[i := r]> par).
Proof.
  intros Hir Hne j r'.
  assert (Hr : par !! r = Some r) by (by eapply root_of_is_root).
  assert (Hlt : (i < length par)%nat) by (by eapply root_of_lt).
  split.
  - induction 1 as [j Hj|j p r' Hp Hpj H IH].
    + constructor. rewrite list_lookup_insert_ne; [done|].
      intros ->. apply Hne. symmetry. eapply root_of_root; done.
    + destruct (decide (i = j)) as [<-|Hij].
      * assert (r' = r) as ->.
        { eapply root_of_functional; [|exact Hir]. by econstructor. }
        eapply root_step; [by apply list_lookup_insert_eq | congruence |].
        constructor. by rewrite list_lookup_insert_ne.
      * eapply root_step; [|exact Hpj|exact IH].
        by rewrite list_lookup_insert_ne.
  - induction 1 as [j Hj|j p r' Hp Hpj H IH].
    + destruct (decide (i = j)) as [<-|Hij].
      * rewrite list_lookup_insert_eq in Hj by done. congruence.
      * rewrite list_lookup_insert_ne in Hj by done. by constructor.
    + destruct (decide (i = j)) as [<-|Hij].
      * rewrite list_lookup_insert_eq in Hp by done. injection Hp as <-.
        assert (r' = r) as -> by (by eapply root_of_root). done.
      * rewrite list_lookup_insert_ne in Hp by done. by econstructor.
Qed.

Lemma filter_ext_elem {A} (P1 P2 : A → Prop)
    `{!∀ x, Decision (P1 x), !∀ x, Decision (P2 x)} (l : list A) :
  (∀ x, x ∈ l → P1 x ↔ P2 x) → filter P1 l = filter P2 l.
Proof.
  induction l as [|a l IH]; intros HE; [done|].
  rewrite !filter_cons.
  rewrite IH by (intros x Hx; apply HE; by right).
  destruct (decide (P1 a)) as [Ha|Ha], (decide (P2 a)) as [Hb|Hb]; try done.
  - exfalso. apply Hb, HE; [by left | done].
  - exfalso. apply Ha, HE; [by left | done].
Qed.

(** Dropping one member of a duplicate-free list from a filter shortens the
    result by one. *)
Lemma filter_length_drop_one {A} `{!EqDecision A} (P1 P2 : A → Prop)
    `{!∀ x, Decision (P1 x), !∀ x, Decision (P2 x)} (l : list A) (a : A) :
  NoDup l → a ∈ l → P1 a → ¬ P2 a →
  (∀ x, x ∈ l → x ≠ a → P1 x ↔ P2 x) →
  length (filter P1 l) = S (length (filter P2 l)).
Proof.
  induction l as [|b l IH]; intros Hnd Hin Ha Hna Hext.
  - by apply elem_of_nil in Hin.
  - apply NoDup_cons in Hnd as [Hb Hnd]. rewrite !filter_cons.
    destruct (decide (b = a)) as [->|Hba].
    + rewrite decide_True by done. rewrite decide_False by done. simpl.
      f_equal. f_equal. apply filter_ext_elem. intros x Hx. apply Hext.
      * by right.
      * intros ->. done.
    + assert (a ∈ l) by (apply elem_of_cons in Hin as [?|?]; [congruence|done]).
      assert (length (filter P1 l) = S (length (filter P2 l))) as IH'.
      { apply IH; try done. intros x Hx. apply Hext. by right. }
      assert (P1 b ↔ P2 b) as Hb' by (apply Hext; [by left|done]).
      destruct (decide (P1 b)), (decide (P2 b)); simpl; try lia; tauto.
Qed.

Lemma count_roots_ext par par' :
  length par = length par' →
  (∀ i, (i < length par)%nat → par !! i = Some i ↔ par' !! i = Some i) →
  count_roots par = count_roots par'.
Proof.
  intros Hlen Hext. unfold count_roots. rewrite <- Hlen. f_equal.
  apply filter_ext_elem. intros i Hi. apply Hext.
  apply elem_of_seq in Hi. lia.
Qed.

(** ** [find] *)

Lemma set_parent_id uf : set_parent uf (parent uf) = uf.
Proof. by destruct uf. Qed.

Lemma not_root_ne par i p r :
  par !! i = Some p → p ≠ i → root_of par i r → i ≠ r.
Proof.
  intros Hp Hne Hr ->. apply root_of_is_root in Hr. congruence.
Qed.

Lemma wf_compress uf i r :
  wf uf → root_of (parent uf) i r → i ≠ r →
  wf (set_parent uf (<[i := r]> (parent uf))).
Proof.
  intros Hwf Hir Hne.
  assert (Hr : parent uf !! r = Some r) by (by eapply root_of_is_root).
  assert (Hlt : (i < length (parent uf))%nat) by (by eapply root_of_lt).
  split; simpl; rewrite ?length_insert.
  - apply Hwf.
  - intros j p [(-> & -> & _)|[_ Hp]]%list_lookup_insert_Some.
    + by eapply lookup_lt_Some.
    + by eapply wf_range.
  - intros j p [(-> & -> & _)|[_ Hp]]%list_lookup_insert_Some Hpj.
    + by apply root_of_rank.
    + by apply wf_rank.
  - apply Hwf.
  - rewrite (wf_count uf Hwf). f_equal. apply count_roots_ext.
    + by rewrite length_insert.
    + intros j _. destruct (decide (i = j)) as [<-|Hij].
      * rewrite list_lookup_insert_eq by done. split; [|congruence].
        intros Hi. exfalso. apply Hne. symmetry. by eapply root_of_root.
      * by rewrite list_lookup_insert_ne.
Qed.

Lemma find_rec_spec fuel : ∀ uf i,
  wf uf → (i < length (parent uf))%nat →
  Z.of_nat (length (parent uf)) - num_sets uf - Z.of_nat (rank uf !!! i)
    < Z.of_nat fuel →
  ∃ par' r,
    find_rec fuel uf (Z.of_nat i) = Ok (set_parent uf par', r) ∧
    root_of (parent uf) i r ∧
    same_roots (parent uf) par' ∧
    length par' = length (parent uf) ∧
    wf (set_parent uf par').
Proof.
  induction fuel as [|fuel IH]; intros uf i Hwf Hi Hfuel.
  - pose proof (wf_bound uf Hwf i). lia.
  - destruct (lookup_lt_is_Some_2 _ _ Hi) as [p Hp].
    cbn [find_rec]. rewrite (np_get_nat _ _ _ Hp). cbn [res_bind].
    destruct (decide (p = i)) as [->|Hne].
    + rewrite Z.eqb_refl. cbn [negb res_bind].
      rewrite (np_get_nat _ _ _ Hp). cbn [res_bind].
      exists (parent uf), i. rewrite set_parent_id.
      split_and!; [done | by constructor | apply same_roots_refl | done | done].
    + replace (Z.of_nat p =? Z.of_nat i) with false
        by (symmetry; apply Z.eqb_neq; lia).
      cbn [negb].
      pose proof (wf_rank uf Hwf i p Hp Hne) as Hrk.
      destruct (IH uf p Hwf) as (par1 & r & -> & Hroot & Hsame & Hlen & Hwf1).
      { by eapply wf_range. }
      { lia. }
      cbn [res_bind parent set_parent].
      rewrite np_set_nat by lia. cbn [res_bind].
      assert (Hir : root_of (parent uf) i r) by (by econstructor).
      assert (Hir' : i ≠ r) by (by eapply not_root_ne).
      rewrite (np_get_nat _ i r) by (apply list_lookup_insert_eq; lia).
      cbn [res_bind].
      exists (<[i := r]> par1), r.
      assert (root_of par1 i r) by (by apply Hsame).
      split_and!; [done | done | | by rewrite length_insert |].
      * eapply same_roots_trans; [done|]. by apply compress_same_roots.
      * by apply (wf_compress (set_parent uf par1) i r).
Qed.

Lemma find_spec uf i :
  wf uf → (i < length (parent uf))%nat →
  ∃ par' r,
    find uf (Z.of_nat i) = Ok (set_parent uf par', r) ∧
    root_of (parent uf) i r ∧
    same_roots (parent uf) par' ∧
    length par' = length (parent uf) ∧
    wf (set_parent uf par').
Proof.
  intros Hwf Hi. apply find_rec_spec; [done..|].
  pose proof (wf_bound uf Hwf i). pose proof (wf_count uf Hwf). lia.
Qed.

Lemma root_exists uf i :
  wf uf → (i < length (parent uf))%nat → ∃ r, root_of (parent uf) i r.
Proof.
  intros Hwf Hi. destruct (find_spec uf i Hwf Hi) as (? & r & _ & ? & _).
  by exists r.
Qed.

Lemma root_of_range uf i r :
  wf uf → root_of (parent uf) i r → (r < length (parent uf))%nat.
Proof. intros Hwf H. apply root_of_is_root in H. by eapply lookup_lt_Some. Qed.

Lemma count_roots_pos uf :
  wf uf → (0 < length (parent uf))%nat → (0 < count_roots (parent uf))%nat.
Proof.
  intros Hwf Hn. destruct (root_exists uf 0 Hwf Hn) as [r Hr].
  unfold count_roots.
  assert (r ∈ filter (λ i, parent uf !! i = Some i)
                (seq 0 (length (parent uf)))) as Hin.
  { apply list_elem_of_filter. split; [by eapply root_of_is_root|].
    apply elem_of_seq. pose proof (root_of_range uf 0 r Hwf Hr). lia. }
  destruct (filter _ _); [by apply elem_of_nil in Hin | simpl; lia].
Qed.

Lemma np_index_nonneg_inv (n : nat) (i : Z) (k : nat) :
  np_index n i = Ok k → 0 ≤ i → i = Z.of_nat k.
Proof. np_index_tac n i; intros [= <-]; lia. Qed.

(** Any index numpy accepts is resolved to the root of the element it
    addresses. *)
Lemma find_index uf i k :
  wf uf → np_index (length (parent uf)) i = Ok k →
  ∃ par' r,
    find uf i = Ok (set_parent uf par', r) ∧
    root_of (parent uf) k r ∧
    same_roots (parent uf) par' ∧
    length par' = length (parent uf) ∧
    wf (set_parent uf par').
Proof.
  intros Hwf Hk. pose proof (np_index_ok_lt _ _ _ Hk) as Hlt.
  destruct (Z.le_gt_cases 0 i) as [Hi|Hi].
  { rewrite (np_index_nonneg_inv _ _ _ Hk Hi). by apply find_spec. }
  destruct (lookup_lt_is_Some_2 _ _ Hlt) as [p Hp].
  unfold find. cbn [find_rec]. unfold np_get at 1.
  rewrite Hk. cbn [res_bind]. rewrite Hp. cbn [res_bind].
  replace (Z.of_nat p =? i) with false by (symmetry; apply Z.eqb_neq; lia).
  cbn [negb].
  destruct (find_rec_spec (length (parent uf)) uf p Hwf)
    as (par1 & r & -> & Hroot & Hsame & Hlen & Hwf1).
  { by eapply wf_range. }
  { pose proof (count_roots_pos uf Hwf). pose proof (wf_count uf Hwf). lia. }
  cbn [res_bind parent set_parent]. unfold np_set, np_get.
  rewrite Hlen, Hk. cbn [res_bind parent set_parent].
  rewrite length_insert, Hlen, Hk.
  cbn [res_bind]. rewrite list_lookup_insert_eq by lia.
  exists (<[k := r]> par1), r.
  destruct (decide (p = k)) as [->|Hne].
  - assert (r = k) as -> by (by eapply root_of_root).
    rewrite list_insert_id by (eapply same_roots_is_root; [done|lia|done]).
    done.
  - assert (Hir : root_of (parent uf) k r) by (by econstructor).
    assert (Hir' : k ≠ r) by (by eapply not_root_ne).
    assert (root_of par1 k r) by (by apply Hsame).
    split_and!; [done | done | | by rewrite length_insert |].
    + eapply same_roots_trans; [done|]. by apply compress_same_roots.
    + by apply (wf_compress (set_parent uf par1) k r).
Qed.

Lemma find_index_error uf i e :
  np_index (length (parent uf)) i = Raise e →
  find uf i = Raise e.
Proof.
  intros Hk. unfold find. cbn [find_rec]. unfold np_get at 1. by rewrite Hk.
Qed.

Lemma np_index_cases n i :
  (∃ k, np_index n i = Ok k) ∨ (∃ e, np_index n i = Raise e).
Proof. destruct (np_index n i); eauto. Qed.

(** A call of [find] that returns leaves a well-formed forest with the same
    roots, ranks and count. *)
Lemma find_ok_inv uf i uf' r :
  wf uf → find uf i = Ok (uf', r) →
  wf uf' ∧ same_roots (parent uf) (parent uf') ∧
  length (parent uf') = length (parent uf) ∧
  rank uf' = rank uf ∧ num_sets uf' = num_sets uf ∧
  ∃ k, np_index (length (parent uf)) i = Ok k ∧ root_of (parent uf) k r.
Proof.
  intros Hwf Hfind.
  destruct (np_index_cases (length (parent uf)) i) as [[k Hk]|[e Hk]].
  - destruct (find_index uf i k Hwf Hk) as (par' & r' & Hf & ? & ? & ? & ?).
    rewrite Hf in Hfind. injection Hfind as <- <-.
    split_and!; try done. by exists k.
  - by rewrite (find_index_error _ _ _ Hk) in Hfind.
Qed.

(** ** [union] *)

Lemma link_roots par a b x r :
  par !! a = Some a → par !! b = Some b → a ≠ b →
  root_of par x r → root_of (<[a := b]> par) x (merged a b r).
Proof.
  intros Ha Hb Hab. unfold merged.
  assert (Hlt : (a < length par)%nat) by (by eapply lookup_lt_Some).
  induction 1 as [x Hx|x p r Hp Hpx H IH].
  - case_decide as Hxa.
    + subst x. eapply root_step; [by apply list_lookup_insert_eq | done |].
      constructor. by rewrite list_lookup_insert_ne.
    + constructor. by rewrite list_lookup_insert_ne.
  - eapply root_step; [|exact Hpx|exact IH].
    rewrite list_lookup_insert_ne; [done|]. congruence.
Qed.

Lemma count_roots_link par a b :
  par !! a = Some a → a ≠ b →
  count_roots par = S (count_roots (<[a := b]> par)).
Proof.
  intros Ha Hab. unfold count_roots. rewrite length_insert.
  assert (Hlt : (a < length par)%nat) by (by eapply lookup_lt_Some).
  apply (filter_length_drop_one _ _ _ a).
  - apply NoDup_seq.
  - apply elem_of_seq. lia.
  - done.
  - rewrite list_lookup_insert_eq by done. congruence.
  - intros x _ Hx. by rewrite list_lookup_insert_ne.
Qed.

(** The forest after hanging root [a] under root [b], with the rank array
    [rk'] that goes with it. *)
Lemma wf_link uf a b rk' :
  wf uf → parent uf !! a = Some a → parent uf !! b = Some b → a ≠ b →
  (rk' = rank uf ∧ (rank uf !!! a < rank uf !!! b)%nat) ∨
  (rk' = <[b := (rank uf !!! b + 1)%nat]> (rank uf) ∧
   rank uf !!! a = rank uf !!! b) →
  wf (mkUnionFind (<[a := b]> (parent uf)) rk' (num_sets uf - 1)).
Proof.
  intros Hwf Ha Hb Hab Hrk.
  assert (Hlta : (a < length (parent uf))%nat) by (by eapply lookup_lt_Some).
  assert (Hltb : (b < length (parent uf))%nat) by (by eapply lookup_lt_Some).
  pose proof (wf_len uf Hwf) as Hlen.
  assert (Hmono : ∀ i, (rank uf !!! i ≤ rk' !!! i ≤ rank uf !!! i + 1)%nat).
  { intros i. destruct Hrk as [[-> _]|[-> _]]; [lia|].
    destruct (decide (b = i)) as [<-|Hbi].
    - rewrite list_lookup_total_insert_eq by lia. lia.
    - rewrite list_lookup_total_insert_ne by done. lia. }
  assert (Hkeep : ∀ i, i ≠ b → rk' !!! i = rank uf !!! i).
  { intros i Hi. destruct Hrk as [[-> _]|[-> _]]; [done|].
    by rewrite list_lookup_total_insert_ne. }
  split; cbn [parent rank num_sets]; rewrite ?length_insert.
  - destruct Hrk as [[-> _]|[-> _]]; by rewrite ?length_insert.
  - intros j p [(<- & <- & _)|[_ Hp]]%list_lookup_insert_Some; [done|].
    by eapply wf_range.
  - intros j p [(<- & <- & _)|[Hja Hp]]%list_lookup_insert_Some Hpj.
    + rewrite (Hkeep a) by done.
      destruct Hrk as [[-> ?]|[-> Heq]]; [done|].
      rewrite list_lookup_total_insert_eq by lia. lia.
    + pose proof (wf_rank uf Hwf j p Hp Hpj).
      rewrite (Hkeep j) by congruence. pose proof (Hmono p). lia.
  - intros i. pose proof (wf_bound uf Hwf i). pose proof (Hmono i). lia.
  - rewrite (wf_count uf Hwf), (count_roots_link _ a b) by done. lia.
Qed.

Lemma union_spec uf i j ki kj ri rj :
  wf uf →
  np_index (length (parent uf)) i = Ok ki →
  np_index (length (parent uf)) j = Ok kj →
  root_of (parent uf) ki ri → root_of (parent uf) kj rj →
  ∃ uf',
    union uf i j = Ok (uf', PyNone) ∧ wf uf' ∧
    length (parent uf') = length (parent uf) ∧
    ((ri = rj ∧ num_sets uf' = num_sets uf ∧ rank uf' = rank uf ∧
      same_roots (parent uf) (parent uf')) ∨
     (ri ≠ rj ∧ num_sets uf' = num_sets uf - 1 ∧
      ∃ a b, ((a = ri ∧ b = rj) ∨ (a = rj ∧ b = ri)) ∧
        ∀ x r, root_of (parent uf) x r →
               root_of (parent uf') x (merged a b r))).
Proof.
  intros Hwf Hki Hkj Hri Hrj. unfold union.
  destruct (find_index uf i ki Hwf Hki)
    as (par1 & ri' & -> & Hri' & Hs1 & Hl1 & Hwf1).
  assert (ri' = ri) as -> by (by eapply root_of_functional).
  cbn [res_bind].
  destruct (find_index (set_parent uf par1) j kj Hwf1)
    as (par2 & rj' & -> & Hrj' & Hs2 & Hl2 & Hwf2).
  { cbn [parent set_parent]. by rewrite Hl1. }
  cbn [parent set_parent] in *.
  assert (rj' = rj) as ->.
  { eapply root_of_functional; [|done]. by apply Hs1. }
  cbn [res_bind].
  assert (Hs : same_roots (parent uf) par2) by (by eapply same_roots_trans).
  destruct (decide (ri = rj)) as [->|Hne].
  { rewrite Nat.eqb_refl. cbn [negb]. eexists. split; [done|].
    split_and!; [done | cbn; lia | left; done]. }
  replace (ri =? rj)%nat with false by (symmetry; by apply Nat.eqb_neq).
  cbn [negb rank set_parent].
  pose proof (wf_len uf Hwf) as Hlen.
  assert (Ha : par2 !! ri = Some ri).
  { eapply root_of_is_root, Hs. by eapply root_of_idem. }
  assert (Hb : par2 !! rj = Some rj).
  { eapply root_of_is_root, Hs. by eapply root_of_idem. }
  assert (Hlta : (ri < length par2)%nat) by (by eapply lookup_lt_Some).
  assert (Hltb : (rj < length par2)%nat) by (by eapply lookup_lt_Some).
  rewrite (np_get_nat _ ri (rank uf !!! ri))
    by (apply list_lookup_lookup_total_lt; lia).
  rewrite (np_get_nat _ rj (rank uf !!! rj))
    by (apply list_lookup_lookup_total_lt; lia).
  cbn [res_bind].
  destruct (Nat.ltb_spec (rank uf !!! ri) (rank uf !!! rj)) as [Hlt|Hge];
    [|destruct (Nat.ltb_spec (rank uf !!! rj) (rank uf !!! ri)) as [Hlt|Hge']].
  - cbn [parent]. rewrite np_set_nat by done. cbn [res_bind].
    eexists. split; [done|]. split_and!.
    + apply (wf_link (set_parent uf par2) ri rj); try done. by left.
    + cbn. rewrite length_insert. lia.
    + right. split_and!; [done | done |]. exists ri, rj. split; [by left|].
      intros x r Hx. cbn. apply link_roots; try done. by apply Hs.
  - cbn [parent]. rewrite np_set_nat by done. cbn [res_bind].
    eexists. split; [done|]. split_and!.
    + apply (wf_link (set_parent uf par2) rj ri); try done. by left.
    + cbn. rewrite length_insert. lia.
    + right. split_and!; [done | done |]. exists rj, ri. split; [by right|].
      intros x r Hx. cbn. apply link_roots; try done. by apply Hs.
  - cbn [parent]. rewrite np_set_nat by done. cbn [res_bind rank set_parent].
    rewrite np_set_nat by lia. cbn [res_bind].
    eexists. split; [done|]. split_and!.
    + apply (wf_link (set_parent uf par2) rj ri); try done.
      right. cbn. split; [done | lia].
    + cbn. rewrite length_insert. lia.
    + right. split_and!; [done | done |]. exists rj, ri. split; [by right|].
      intros x r Hx. cbn. apply link_roots; try done. by apply Hs.
Qed.

(** ** Forests reachable through the interface *)

Lemma filter_all {A} (P : A → Prop) `{!∀ x, Decision (P x)} (l : list A) :
  Forall P l → filter P l = l.
Proof.
  induction 1 as [|x l Hx _ IH]; [done|].
  rewrite filter_cons, decide_True by done. by rewrite IH.
Qed.

Lemma wf_new size : wf (new size).
Proof.
  split; cbn [new parent rank num_sets]; rewrite ?length_seq.
  - by rewrite length_replicate.
  - intros i p [-> ?]%lookup_seq. lia.
  - intros i p [-> ?]%lookup_seq. lia.
  - intros i. destruct (decide (i < size)%nat).
    + rewrite lookup_total_replicate_2 by done. lia.
    + rewrite list_lookup_total_alt, lookup_ge_None_2
        by (rewrite length_replicate; lia). simpl. lia.
  - unfold count_roots. rewrite length_seq, filter_all, length_seq; [done|].
    apply Forall_forall. intros i Hi%elem_of_seq.
    rewrite lookup_seq_lt by lia. done.
Qed.

Lemma union_ok_inv uf i j uf' v :
  wf uf → union uf i j = Ok (uf', v) →
  wf uf' ∧ v = PyNone ∧ length (parent uf') = length (parent uf).
Proof.
  intros Hwf Hu.
  destruct (np_index_cases (length (parent uf)) i) as [[ki Hki]|[e Hki]]; last first.
  { unfold union in Hu. by rewrite (find_index_error _ _ _ Hki) in Hu. }
  destruct (find_index uf i ki Hwf Hki) as (par1 & ri & Hf1 & Hri & Hs1 & Hl1 & Hwf1).
  destruct (np_index_cases (length (parent uf)) j) as [[kj Hkj]|[e Hkj]]; last first.
  { unfold union in Hu. rewrite Hf1 in Hu. cbn [res_bind] in Hu.
    rewrite (find_index_error _ _ e) in Hu; [done|]. cbn. by rewrite Hl1. }
  destruct (root_exists uf kj Hwf) as [rj Hrj].
  { by eapply np_index_ok_lt. }
  destruct (union_spec uf i j ki kj ri rj Hwf Hki Hkj Hri Hrj)
    as (uf'' & Hu' & ? & ? & _).
  rewrite Hu' in Hu. by injection Hu as <- <-.
Qed.

Lemma built_wf uf : built uf → wf uf.
Proof.
  induction 1 as [size|uf i uf' r _ IH Hf|uf i j uf' v _ IH Hu].
  - apply wf_new.
  - by apply (find_ok_inv uf i uf' r).
  - by apply (union_ok_inv uf i j uf' v).
Qed.

Lemma in_range_index uf i :
  in_range uf i → np_index (length (parent uf)) i = Ok (Z.to_nat i).
Proof.
  intros [? ?]. rewrite <- (Z2Nat.id i) at 1 by done.
  apply np_index_nat. lia.
Qed.

(** ** A comprehension of [find] calls *)

Lemma find_each_spec idx : ∀ uf,
  wf uf → Forall (λ i, (i < length (parent uf))%nat) idx →
  ∃ par' rs,
    find_each uf idx = Ok (set_parent uf par', rs) ∧
    Forall2 (root_of (parent uf)) idx rs ∧
    same_roots (parent uf) par' ∧
    length par' = length (parent uf) ∧
    wf (set_parent uf par').
Proof.
  induction idx as [|i idx IH]; intros uf Hwf Hidx.
  - exists (parent uf), []. rewrite set_parent_id. cbn.
    split_and!; [done | constructor | apply same_roots_refl | done | done].
  - apply Forall_cons in Hidx as [Hi Hidx]. cbn [find_each].
    destruct (find_spec uf i Hwf Hi) as (par1 & r & -> & Hr & Hs1 & Hl1 & Hwf1).
    cbn [res_bind].
    destruct (IH (set_parent uf par1) Hwf1) as (par2 & rs & -> & Hrs & Hs2 & Hl2 & Hwf2).
    { cbn. by rewrite Hl1. }
    cbn [res_bind parent set_parent] in *.
    exists par2, (r :: rs). split_and!; try done.
    + constructor; [done|].
      eapply Forall2_impl; [exact Hrs|]. intros x y Hxy. by apply Hs1.
    + by eapply same_roots_trans.
    + lia.
Qed.

Lemma find_all_spec uf :
  wf uf →
  ∃ par' rs,
    find_all uf = Ok (set_parent uf par', rs) ∧
    Forall2 (root_of (parent uf)) (seq 0 (length (parent uf))) rs ∧
    same_roots (parent uf) par' ∧
    length par' = length (parent uf) ∧
    wf (set_parent uf par').
Proof.
  intros Hwf. apply find_each_spec; [done|].
  apply Forall_forall. intros i Hi%elem_of_seq. lia.
Qed.

(** The distinct values of a full scan are exactly the roots. *)
Lemma distinct_roots uf rs :
  wf uf →
  Forall2 (root_of (parent uf)) (seq 0 (length (parent uf))) rs →
  length (remove_dups rs) = count_roots (parent uf).
Proof.
  intros Hwf Hrs. unfold count_roots. apply Permutation_length.
  apply NoDup_Permutation.
  - apply NoDup_remove_dups.
  - apply NoDup_filter, NoDup_seq.
  - intros r. rewrite elem_of_remove_dups, list_elem_of_filter, elem_of_seq.
    split.
    + intros [k Hk]%list_elem_of_lookup.
      destruct (Forall2_lookup_r _ _ _ _ _ Hrs Hk) as (i & Hi & Hroot).
      split; [by eapply root_of_is_root|].
      pose proof (root_of_range uf i r Hwf Hroot). lia.
    + intros [Hr [_ Hlt]]. simpl in Hlt.
      destruct (Forall2_lookup_l _ _ _ r r Hrs) as (r' & Hr' & Hroot).
      { by apply lookup_seq_lt. }
      assert (r' = r) as -> by (by eapply root_of_root).
      by eapply list_elem_of_lookup_2.
Qed.

(** ** The forest interface *)

Lemma find_in_range uf i :
  wf uf → in_range uf i →
  ∃ uf' r, find uf i = Ok (uf', r) ∧ root_of (parent uf) (Z.to_nat i) r ∧
           wf uf' ∧ same_roots (parent uf) (parent uf') ∧
           length (parent uf') = length (parent uf) ∧
           num_sets uf' = num_sets uf.
Proof.
  intros Hwf Hi.
  destruct (find_index uf i _ Hwf (in_range_index uf i Hi))
    as (par' & r & Hf & Hr & Hs & Hl & Hwf').
  exists (set_parent uf par'), r. by split_and!.
Qed.

(** C5 (amended).  For a forest built through the interface and in-range [i]
    and [j], [union(i, j)] returns [None]; when [i] and [j] have different
    roots, [num_sets] drops by exactly one and both resolve to one common root
    afterwards; when they have the same root, [num_sets] and every element's
    root stay as they were. *)
Theorem union_num_sets uf i j :
  built uf → in_range uf i → in_range uf j →
  ∃ ufi ri ufj rj uf',
    find uf i = Ok (ufi, ri) ∧ find uf j = Ok (ufj, rj) ∧
    union uf i j = Ok (uf', PyNone) ∧
    (ri ≠ rj →
       num_sets uf' = num_sets uf - 1 ∧
       ∃ u1 u2 r, find uf' i = Ok (u1, r) ∧ find uf' j = Ok (u2, r)) ∧
    (ri = rj →
       num_sets uf' = num_sets uf ∧ same_roots (parent uf) (parent uf')).
Proof.
  intros Hwf%built_wf Hi Hj.
  destruct (find_in_range uf i Hwf Hi) as (ufi & ri & Hfi & Hri & _).
  destruct (find_in_range uf j Hwf Hj) as (ufj & rj & Hfj & Hrj & _).
  destruct (union_spec uf i j _ _ ri rj Hwf (in_range_index _ _ Hi)
              (in_range_index _ _ Hj) Hri Hrj)
    as (uf' & Hu & Hwf' & Hlen & Hcases).
  exists ufi, ri, ufj, rj, uf'. split_and!; try done.
  - intros Hne. destruct Hcases as [[? _]|(_ & Hns & a & b & Hab & Hmap)];
      [done|]. split; [done|].
    assert (in_range uf' i) as Hi' by (unfold in_range in *; lia).
    assert (in_range uf' j) as Hj' by (unfold in_range in *; lia).
    destruct (find_in_range uf' i Hwf' Hi') as (u1 & r1 & Hf1 & Hr1 & _).
    destruct (find_in_range uf' j Hwf' Hj') as (u2 & r2 & Hf2 & Hr2 & _).
    pose proof (Hmap _ _ Hri) as Hmi. pose proof (Hmap _ _ Hrj) as Hmj.
    assert (merged a b ri = merged a b rj) as Heq.
    { unfold merged. destruct Hab as [[-> ->]|[-> ->]]; repeat case_decide;
        congruence. }
    exists u1, u2, r1. split; [done|].
    replace r1 with r2; [done|].
    transitivity (merged a b ri).
    + rewrite Heq. by eapply root_of_functional.
    + by eapply root_of_functional.
  - intros Heq. destruct Hcases as [(_ & ? & _ & ?)|[? _]]; done.
Qed.

Lemma union_num_sets_witness :
  built (new 3) ∧ in_range (new 3) 0 ∧ in_range (new 3) 1 ∧
  ∃ ufi ri ufj rj uf',
    find (new 3) 0 = Ok (ufi, ri) ∧ find (new 3) 1 = Ok (ufj, rj) ∧
    union (new 3) 0 1 = Ok (uf', PyNone) ∧
    (ri ≠ rj →
       num_sets uf' = num_sets (new 3) - 1 ∧
       ∃ u1 u2 r, find uf' 0 = Ok (u1, r) ∧ find uf' 1 = Ok (u2, r)) ∧
    (ri = rj →
       num_sets uf' = num_sets (new 3) ∧
       same_roots (parent (new 3)) (parent uf')).
Proof.
  assert (Hb : built (new 3)) by apply built_new.
  assert (H0 : in_range (new 3) 0) by (unfold in_range; simpl; lia).
  assert (H1 : in_range (new 3) 1) by (unfold in_range; simpl; lia).
  split_and!; [exact Hb | exact H0 | exact H1 |].
  exact (union_num_sets (new 3) 0 1 Hb H0 H1).
Defined.

(** C5, as stated, fails: after a real merge [union] returns [None], not the
    new root, and it returns the same [None] when nothing was merged. *)
Lemma union_return_counterexample :
  res_map snd (union (new 2) 0 1) = Ok PyNone ∧
  res_map (fun r => num_sets (fst r)) (union (new 2) 0 1) = Ok 1 ∧
  res_map snd (union (new 2) 0 0) = Ok PyNone ∧
  res_map (fun r => num_sets (fst r)) (union (new 2) 0 0) = Ok 2 ∧
  ¬ (∃ uf' r, union (new 2) 0 1 = Ok (uf', PyInt r)).
Proof.
  split_and!; try reflexivity.
  intros (uf' & r & H). vm_compute in H. discriminate.
Qed.

Lemma run_unions_wf ops : ∀ uf,
  wf uf →
  Forall (λ ij : Z * Z, in_range uf ij.1 ∧ in_range uf ij.2) ops →
  ∃ uf', run_unions uf ops = Ok uf' ∧ wf uf' ∧
         length (parent uf') = length (parent uf).
Proof.
  induction ops as [|[i j] ops IH]; intros uf Hwf Hops.
  - by exists uf.
  - apply Forall_cons in Hops as [[Hi Hj] Hops]. cbn [fst snd] in *.
    destruct (find_in_range uf i Hwf Hi) as (? & ri & _ & Hri & _).
    destruct (find_in_range uf j Hwf Hj) as (? & rj & _ & Hrj & _).
    destruct (union_spec uf i j _ _ ri rj Hwf (in_range_index _ _ Hi)
                (in_range_index _ _ Hj) Hri Hrj)
      as (uf1 & Hu & Hwf1 & Hlen1 & _).
    destruct (IH uf1 Hwf1) as (uf' & Hrun & Hwf' & Hlen').
    { eapply Forall_impl; [exact Hops|]. unfold in_range.
      intros [a b]. rewrite Hlen1. done. }
    exists uf'. split_and!; [|done|lia].
    unfold run_unions in *. cbn [res_fold fst snd]. rewrite Hu. done.
Qed.

(** C6.  After [new(size)] and any sequence of in-range [union] calls, the
    calls all return, [find] is idempotent at every index, and [num_sets] is
    the number of distinct values [find] takes over all indices. *)
Theorem partition_invariant (size : nat) (ops : list (Z * Z)) :
  Forall (λ ij : Z * Z, (0 ≤ ij.1 < Z.of_nat size) ∧
                        (0 ≤ ij.2 < Z.of_nat size)) ops →
  ∃ uf,
    run_unions (new size) ops = Ok uf ∧
    (∀ i, 0 ≤ i < Z.of_nat size →
       ∃ uf1 r uf2,
         find uf i = Ok (uf1, r) ∧ find uf1 (Z.of_nat r) = Ok (uf2, r)) ∧
    ∃ uf3 roots,
      find_all uf = Ok (uf3, roots) ∧
      length roots = size ∧
      num_sets uf = Z.of_nat (length (remove_dups roots)).
Proof.
  intros Hops.
  destruct (run_unions_wf ops (new size) (wf_new size))
    as (uf & Hrun & Hwf & Hlen).
  { eapply Forall_impl; [exact Hops|]. unfold in_range. cbn.
    rewrite length_seq. done. }
  cbn in Hlen. rewrite length_seq in Hlen.
  exists uf. split_and!; [done | |].
  - intros i Hi.
    assert (in_range uf i) as Hir by (unfold in_range; lia).
    destruct (find_in_range uf i Hwf Hir)
      as (uf1 & r & Hf & Hr & Hwf1 & Hs & Hl1 & _).
    assert (in_range uf1 (Z.of_nat r)) as Hr1.
    { pose proof (root_of_range uf _ r Hwf Hr). unfold in_range. lia. }
    destruct (find_in_range uf1 _ Hwf1 Hr1) as (uf2 & r' & Hf' & Hr' & _).
    rewrite Nat2Z.id in Hr'.
    assert (r' = r) as ->.
    { eapply root_of_root; [|done]. eapply root_of_is_root, Hs. done. }
    by exists uf1, r, uf2.
  - destruct (find_all_spec uf Hwf) as (par' & rs & Hf & Hrs & _).
    exists (set_parent uf par'), rs. split_and!; [done | |].
    + apply Forall2_length in Hrs. rewrite length_seq in Hrs. lia.
    + rewrite (distinct_roots uf rs Hwf Hrs). apply Hwf.
Qed.

Lemma partition_invariant_witness :
  ∃ uf,
    run_unions (new 4) [(0, 1); (2, 3); (1, 3); (0, 2)] = Ok uf ∧
    (∀ i, 0 ≤ i < Z.of_nat 4 →
       ∃ uf1 r uf2,
         find uf i = Ok (uf1, r) ∧ find uf1 (Z.of_nat r) = Ok (uf2, r)) ∧
    ∃ uf3 roots,
      find_all uf = Ok (uf3, roots) ∧
      length roots = 4%nat ∧
      num_sets uf = Z.of_nat (length (remove_dups roots)).
Proof.
  apply (partition_invariant 4 [(0, 1); (2, 3); (1, 3); (0, 2)]).
  repeat (constructor; [simpl; lia|]). constructor.
Defined.

(** C7 (amended).  On a forest built through the interface, of fewer than
    [2^63] elements, and for an integer [i] of at most 64 bits, signed or
    unsigned ([-2^63 <= i < 2^64]): [find(i)] raises [IndexError] exactly
    when [size <= i < 2^63] or [-2^63 <= i < -size], and [OverflowError]
    exactly when [2^63 <= i]; it raises nothing else.  For [0 <= i < size]
    it returns the root of [i]; for [-size <= i < 0] numpy's negative
    indexing applies and it returns the root of [size + i]. *)
Theorem find_raises_iff uf i :
  built uf → Z.of_nat (length (parent uf)) < 2 ^ 63 →
  - 2 ^ 63 ≤ i < 2 ^ 64 →
  (find uf i = Raise IndexError ↔
     i < - Z.of_nat (length (parent uf)) ∨
     Z.of_nat (length (parent uf)) ≤ i < 2 ^ 63) ∧
  (find uf i = Raise OverflowError ↔ 2 ^ 63 ≤ i) ∧
  (∀ e, find uf i = Raise e → e = IndexError ∨ e = OverflowError) ∧
  (0 ≤ i < Z.of_nat (length (parent uf)) →
     ∃ uf' r, find uf i = Ok (uf', r) ∧ root_of (parent uf) (Z.to_nat i) r) ∧
  (- Z.of_nat (length (parent uf)) ≤ i < 0 →
     ∃ uf' r, find uf i = Ok (uf', r) ∧
              root_of (parent uf)
                (Z.to_nat (Z.of_nat (length (parent uf)) + i)) r).
Proof.
  intros Hwf%built_wf Hsize Hi64.
  assert (Hpos : 0 ≤ i < Z.of_nat (length (parent uf)) →
     ∃ uf' r, find uf i = Ok (uf', r) ∧ root_of (parent uf) (Z.to_nat i) r).
  { intros Hi. destruct (find_in_range uf i Hwf Hi) as (uf' & r & ? & ? & _).
    by exists uf', r. }
  assert (Hneg : - Z.of_nat (length (parent uf)) ≤ i < 0 →
     ∃ uf' r, find uf i = Ok (uf', r) ∧
              root_of (parent uf)
                (Z.to_nat (Z.of_nat (length (parent uf)) + i)) r).
  { intros Hi.
    destruct (find_index uf i _ Hwf (np_index_neg _ _ Hi))
      as (par' & r & ? & Hr & _).
    rewrite Z.add_comm in Hr. by exists (set_parent uf par'), r. }
  assert (Hover : 2 ^ 63 ≤ i → find uf i = Raise OverflowError).
  { intros Hi. apply find_index_error, np_index_overflow.
    apply index_too_large_iff. lia. }
  assert (Hindex :
    i < - Z.of_nat (length (parent uf)) ∨
    Z.of_nat (length (parent uf)) ≤ i < 2 ^ 63 → find uf i = Raise IndexError).
  { intros Hi. apply find_index_error, np_index_out; [|lia].
    destruct (index_too_large (length (parent uf)) i) eqn:Hf; [|done].
    apply index_too_large_iff in Hf. lia. }
  assert (Hcases :
    2 ^ 63 ≤ i ∨
    (i < - Z.of_nat (length (parent uf)) ∨
     Z.of_nat (length (parent uf)) ≤ i < 2 ^ 63) ∨
    - Z.of_nat (length (parent uf)) ≤ i < 0 ∨
    0 ≤ i < Z.of_nat (length (parent uf))) by lia.
  split_and!; [| | |done|done].
  - split; [|done]. intros Hf.
    destruct Hcases as [H|[H|[H|H]]]; [|done| |].
    + rewrite Hover in Hf by done. discriminate.
    + destruct (Hneg H) as (? & ? & Hf' & _). congruence.
    + destruct (Hpos H) as (? & ? & Hf' & _). congruence.
  - split; [|done]. intros Hf.
    destruct Hcases as [H|[H|[H|H]]]; [done| | |].
    + rewrite Hindex in Hf by done. discriminate.
    + destruct (Hneg H) as (? & ? & Hf' & _). congruence.
    + destruct (Hpos H) as (? & ? & Hf' & _). congruence.
  - intros e Hf. destruct Hcases as [H|[H|[H|H]]].
    + rewrite Hover in Hf by done. right. congruence.
    + rewrite Hindex in Hf by done. left. congruence.
    + destruct (Hneg H) as (? & ? & Hf' & _). congruence.
    + destruct (Hpos H) as (? & ? & Hf' & _). congruence.
Qed.

Lemma find_raises_iff_witness :
  built (new 3) ∧ Z.of_nat (length (parent (new 3))) < 2 ^ 63 ∧
  - 2 ^ 63 ≤ 2 ^ 63 < 2 ^ 64 ∧
  (find (new 3) (2 ^ 63) = Raise IndexError ↔
     2 ^ 63 < - Z.of_nat (length (parent (new 3))) ∨
     Z.of_nat (length (parent (new 3))) ≤ 2 ^ 63 < 2 ^ 63) ∧
  (find (new 3) (2 ^ 63) = Raise OverflowError ↔ 2 ^ 63 ≤ 2 ^ 63) ∧
  (∀ e, find (new 3) (2 ^ 63) = Raise e →
        e = IndexError ∨ e = OverflowError) ∧
  (0 ≤ 2 ^ 63 < Z.of_nat (length (parent (new 3))) →
     ∃ uf' r, find (new 3) (2 ^ 63) = Ok (uf', r) ∧
              root_of (parent (new 3)) (Z.to_nat (2 ^ 63)) r) ∧
  (- Z.of_nat (length (parent (new 3))) ≤ 2 ^ 63 < 0 →
     ∃ uf' r, find (new 3) (2 ^ 63) = Ok (uf', r) ∧
              root_of (parent (new 3))
                (Z.to_nat (Z.of_nat (length (parent (new 3))) + 2 ^ 63)) r).
Proof.
  assert (Hsize : Z.of_nat (length (parent (new 3))) < 2 ^ 63)
    by (vm_compute; reflexivity).
  assert (Hi : - 2 ^ 63 ≤ 2 ^ 63 < 2 ^ 64)
    by (split; vm_compute; [discriminate | reflexivity]).
  split; [apply built_new|]. split; [exact Hsize|]. split; [exact Hi|].
  exact (find_raises_iff (new 3) (2 ^ 63) (built_new 3) Hsize Hi).
Defined.

(** What [find] does at the ends of the ranges, on a forest of three
    elements. *)
Example find_range_ends :
  find (new 3) 2 = Ok (new 3, 2%nat) ∧
  find (new 3) 3 = Raise IndexError ∧
  find (new 3) (2 ^ 63 - 1) = Raise IndexError ∧
  find (new 3) (2 ^ 63) = Raise OverflowError ∧
  find (new 3) (2 ^ 64 - 1) = Raise OverflowError ∧
  find (new 3) (-3) = Ok (new 3, 0%nat) ∧
  find (new 3) (-4) = Raise IndexError ∧
  find (new 3) (- 2 ^ 63) = Raise IndexError.
Proof. repeat split; vm_compute; reflexivity. Qed.

(** C7, as stated, fails: [-1] is not a pixel index of a forest of size 3,
    yet [find(-1)] returns (the root of element 2). *)
Lemma find_negative_index_counterexample :
  find (new 3) (-1) = Ok (new 3, 2%nat) ∧
  ¬ (find (new 3) (-1) = Raise IndexError ↔ ¬ in_range (new 3) (-1)).
Proof.
  split; [reflexivity|].
  intros [_ H].
  assert (find (new 3) (-1) = Raise IndexError) as Hf.
  { apply H. unfold in_range. simpl. lia. }
  vm_compute in Hf. discriminate.
Qed.

(** ** Sorting *)

Lemma sorted_insert_perm {A} (lt : A → A → bool) x l :
  sorted_insert lt x l ≡ₚ x :: l.
Proof.
  induction l as [|y l IH]; [done|]. cbn [sorted_insert].
  destruct (lt y x); [|done]. rewrite IH. apply Permutation_swap.
Qed.

Lemma sorted_perm {A} (lt : A → A → bool) l : sorted lt l ≡ₚ l.
Proof.
  induction l as [|x l IH]; [done|]. unfold sorted in *. cbn [foldr].
  rewrite sorted_insert_perm. by rewrite IH.
Qed.

(** ** Component sizes and ranking *)

Lemma unique_insert_elem x l y :
  y ∈ unique_insert x l ↔ y = x ∨ y ∈ l.
Proof.
  induction l as [|z l IH]; cbn [unique_insert].
  - rewrite list_elem_of_singleton, elem_of_nil. tauto.
  - destruct (Nat.ltb_spec x z); [by rewrite elem_of_cons|].
    destruct (Nat.eqb_spec x z) as [->|].
    + rewrite elem_of_cons. tauto.
    + rewrite !elem_of_cons, IH. tauto.
Qed.

Lemma unique_insert_ascending x l :
  StronglySorted lt l → StronglySorted lt (unique_insert x l).
Proof.
  induction l as [|z l IH]; cbn [unique_insert]; intros Hs.
  - repeat constructor.
  - apply StronglySorted_cons in Hs as [Hz Hs].
    destruct (Nat.ltb_spec x z).
    + apply StronglySorted_cons. split.
      * constructor; [done|]. eapply Forall_impl; [exact Hz|].
        intros; simpl in *; lia.
      * by apply StronglySorted_cons.
    + destruct (Nat.eqb_spec x z) as [->|].
      * by apply StronglySorted_cons.
      * apply StronglySorted_cons. split; [|by apply IH].
        apply Forall_forall. intros y [->|Hy]%unique_insert_elem; [lia|].
        rewrite Forall_forall in Hz. by apply Hz.
Qed.

Lemma unique_elem l y : y ∈ foldr unique_insert [] l ↔ y ∈ l.
Proof.
  induction l as [|x l IH]; cbn [foldr]; [done|].
  rewrite unique_insert_elem, elem_of_cons, IH. done.
Qed.

Lemma unique_ascending l : StronglySorted lt (foldr unique_insert [] l).
Proof.
  induction l as [|x l IH]; cbn [foldr]; [constructor|].
  by apply unique_insert_ascending.
Qed.

Lemma np_unique_counts_elem roots r s :
  (r, s) ∈ np_unique_counts roots ↔ r ∈ roots ∧ s = count_eq r roots.
Proof.
  unfold np_unique_counts. rewrite list_elem_of_fmap. split.
  - intros (r' & Heq & Hr). rewrite unique_elem in Hr.
    injection Heq as -> ->. by split.
  - intros [Hr ->]. exists r. split; [done|]. by apply unique_elem.
Qed.

Lemma np_unique_counts_ascending roots :
  StronglySorted (λ a b : nat * nat, (a.1 < b.1)%nat) (np_unique_counts roots).
Proof.
  unfold np_unique_counts.
  induction (unique_ascending roots) as [|x l _ IH Hx]; csimpl; [constructor|].
  constructor; [done|]. apply Forall_fmap. eapply Forall_impl; [exact Hx|].
  done.
Qed.

Lemma ranked_insert x s :
  StronglySorted ranked_before s →
  Forall (λ b : nat * nat, (x.1 < b.1)%nat) s →
  StronglySorted ranked_before (sorted_insert size_before x s).
Proof.
  induction s as [|y s IH]; cbn [sorted_insert]; intros Hs Hx.
  - repeat constructor.
  - apply StronglySorted_cons in Hs as [Hy Hs].
    apply Forall_cons in Hx as [Hxy Hx].
    unfold size_before at 1. destruct (Nat.ltb_spec (x.2) (y.2)) as [Hlt|Hge].
    + apply StronglySorted_cons. split; [|by apply IH].
      rewrite sorted_insert_perm. constructor; [by left | done].
    + apply StronglySorted_cons. split; [|by apply StronglySorted_cons].
      constructor.
      * unfold ranked_before. lia.
      * rewrite Forall_forall in Hy, Hx. apply Forall_forall. intros z Hz.
        specialize (Hy z Hz). specialize (Hx z Hz).
        unfold ranked_before in *. lia.
Qed.

(** A stable sort by decreasing size of items that come in increasing root
    order ranks them by size, then root. *)
Lemma ranked_sorted l :
  StronglySorted (λ a b : nat * nat, (a.1 < b.1)%nat) l →
  StronglySorted ranked_before (sorted size_before l).
Proof.
  induction 1 as [|x l _ IH Hx]; unfold sorted in *; cbn [foldr];
    [constructor|].
  apply ranked_insert; [done|]. fold (sorted size_before l).
  by rewrite sorted_perm.
Qed.

Lemma get_component_sizes_spec uf :
  wf uf →
  ∃ par' rs,
    get_component_sizes uf = Ok (set_parent uf par', np_unique_counts rs) ∧
    Forall2 (root_of (parent uf)) (seq 0 (length (parent uf))) rs ∧
    same_roots (parent uf) par' ∧
    length par' = length (parent uf) ∧
    wf (set_parent uf par').
Proof.
  intros Hwf. destruct (find_all_spec uf Hwf) as (par' & rs & Hf & ?).
  exists par', rs. split; [|done]. unfold get_component_sizes. by rewrite Hf.
Qed.

(** C9.  On a non-empty forest built through the interface and for [n >= 1],
    [get_largest_components(n)] returns without error the first [n] entries
    (all of them when there are fewer) of the component list ordered by
    non-increasing size, equal sizes in ascending root order. *)
Theorem largest_components_ranked uf n :
  built uf → (0 < length (parent uf))%nat → 1 ≤ n →
  ∃ uf1 comps all_roots uf' roots sizes full,
    get_component_sizes uf = Ok (uf1, comps) ∧
    Forall2 (root_of (parent uf)) (seq 0 (length (parent uf))) all_roots ∧
    (∀ r s, (r, s) ∈ comps ↔ r ∈ all_roots ∧ s = count_eq r all_roots) ∧
    get_largest_components uf n = Ok (uf', (roots, sizes)) ∧
    full ≡ₚ comps ∧
    StronglySorted ranked_before full ∧
    zip roots sizes = take (Z.to_nat n) full ∧
    length roots = length sizes ∧
    length roots = min (Z.to_nat n) (length comps) ∧
    (Z.of_nat (length comps) ≤ n → zip roots sizes ≡ₚ comps).
Proof.
  intros Hwf%built_wf Hlen Hn.
  destruct (get_component_sizes_spec uf Hwf) as (par' & rs & Hg & Hrs & _).
  set (comps := np_unique_counts rs) in *.
  set (full := sorted size_before comps).
  assert (Hperm : full ≡ₚ comps) by apply sorted_perm.
  assert (Hsorted : StronglySorted ranked_before full).
  { apply ranked_sorted, np_unique_counts_ascending. }
  assert (Hne : (0 < length full)%nat).
  { rewrite Hperm.
    destruct (Forall2_lookup_l _ _ _ 0%nat 0%nat Hrs) as (r & Hr & _).
    { by apply lookup_seq_lt. }
    assert ((r, count_eq r rs) ∈ comps) as Hin.
    { apply np_unique_counts_elem. split; [|done].
      by eapply list_elem_of_lookup_2. }
    destruct comps; [by apply elem_of_nil in Hin | simpl; lia]. }
  assert (Htake : ∃ x items, take (Z.to_nat n) full = x :: items).
  { destruct full as [|x full']; [simpl in Hne; lia|].
    destruct (Z.to_nat n) as [|m] eqn:Hm; [lia|]. simpl. eauto. }
  destruct Htake as (x & items & Htake).
  exists (set_parent uf par'), comps, rs, (set_parent uf par'),
    ((take (Z.to_nat n) full).*1), ((take (Z.to_nat n) full).*2), full.
  split_and!; try done.
  - apply np_unique_counts_elem.
  - unfold get_largest_components. rewrite Hg. cbn [res_bind].
    fold comps. fold full.
    destruct (Z.leb_spec n (Z.of_nat (length full))) as [Hle|Hgt].
    + unfold slice_to.
      replace (0 <=? n) with true by (symmetry; apply Z.leb_le; lia).
      rewrite Htake. done.
    + rewrite take_ge in Htake by lia. rewrite take_ge by lia.
      rewrite Htake. done.
  - apply zip_fst_snd.
  - by rewrite !length_fmap.
  - rewrite length_fmap, length_take, Hperm. done.
  - intros Hall. rewrite zip_fst_snd, take_ge; [done|].
    rewrite Hperm. lia.
Qed.

Lemma built_pairs : built (mkUnionFind [0; 0; 2; 2]%nat [1; 0; 1; 0]%nat 2).
Proof.
  eapply (built_union _ 2 3 _ PyNone).
  - eapply (built_union _ 0 1 _ PyNone); [apply (built_new 4)|].
    vm_compute. reflexivity.
  - vm_compute. reflexivity.
Defined.

Lemma largest_components_ranked_witness :
  let uf := mkUnionFind [0; 0; 2; 2]%nat [1; 0; 1; 0]%nat 2 in
  built uf ∧ (0 < length (parent uf))%nat ∧ 1 ≤ 9 ∧
  ∃ uf1 comps all_roots uf' roots sizes full,
    get_component_sizes uf = Ok (uf1, comps) ∧
    Forall2 (root_of (parent uf)) (seq 0 (length (parent uf))) all_roots ∧
    (∀ r s, (r, s) ∈ comps ↔ r ∈ all_roots ∧ s = count_eq r all_roots) ∧
    get_largest_components uf 9 = Ok (uf', (roots, sizes)) ∧
    full ≡ₚ comps ∧
    StronglySorted ranked_before full ∧
    zip roots sizes = take (Z.to_nat 9) full ∧
    length roots = length sizes ∧
    length roots = min (Z.to_nat 9) (length comps) ∧
    (Z.of_nat (length comps) ≤ 9 → zip roots sizes ≡ₚ comps).
Proof.
  intros uf.
  assert (H1 : (0 < length (parent uf))%nat) by (simpl; lia).
  assert (H2 : 1 ≤ 9) by lia.
  split_and!; [exact built_pairs | exact H1 | exact H2 |].
  exact (largest_components_ranked uf 9 built_pairs H1 H2).
Defined.

(** ** Rounding to binary64 *)

Lemma pow2_pos e : (0 < 2 ^ e)%Q.
Proof. by apply Qpower_0_lt. Qed.

Lemma pow2_add a b : (2 ^ (a + b) == 2 ^ a * 2 ^ b)%Q.
Proof. by apply Qpower_plus. Qed.

Lemma pow2_succ e : (2 ^ (e + 1) == 2 * 2 ^ e)%Q.
Proof. rewrite pow2_add. change (2 ^ 1)%Q with 2%Q. ring. Qed.

Lemma pow2_lt a b : a < b → (2 ^ a < 2 ^ b)%Q.
Proof. intros. by apply Qpower_lt_compat_l. Qed.

Lemma pow2_le a b : a ≤ b → (2 ^ a <= 2 ^ b)%Q.
Proof. intros. by apply Qpower_le_compat_l. Qed.

Lemma pow2_lt_inv a b : (2 ^ a < 2 ^ b)%Q → a < b.
Proof. intros. by eapply Qpower_lt_compat_l_inv. Qed.

Lemma pow2_Z e : 0 ≤ e → (2 ^ e == inject_Z (2 ^ e))%Q.
Proof. intros. by rewrite Zpower_Qpower. Qed.

Lemma pow2_cancel e : (2 ^ e * 2 ^ (- e) == 1)%Q.
Proof. rewrite <- pow2_add, Z.add_opp_diag_r. reflexivity. Qed.

Lemma Qnum_pos q : (0 < q)%Q ↔ 0 < Qnum q.
Proof. unfold Qlt. cbn. lia. Qed.

Lemma ilog2_spec q :
  (0 < q)%Q → (2 ^ ilog2 q <= q)%Q ∧ (q < 2 ^ (ilog2 q + 1))%Q.
Proof.
  intros Hq. unfold ilog2.
  set (a := Z.log2 (Qnum q)). set (b := Z.log2 (Zpos (Qden q))).
  apply Qnum_pos in Hq as Hn.
  destruct (Z.log2_spec (Qnum q) Hn) as [Ha1 Ha2]. fold a in Ha1, Ha2.
  destruct (Z.log2_spec (Zpos (Qden q))) as [Hb1 Hb2]; [lia|].
  fold b in Hb1, Hb2.
  assert (Ha0 : 0 ≤ a) by apply Z.log2_nonneg.
  assert (Hb0 : 0 ≤ b) by apply Z.log2_nonneg.
  assert (Hq' : (q == inject_Z (Qnum q) / inject_Z (Zpos (Qden q)))%Q).
  { rewrite <- Qmake_Qdiv. by destruct q. }
  assert (Hd : (0 < inject_Z (Zpos (Qden q)))%Q) by (unfold Qlt; cbn; lia).
  assert (Hlow : (2 ^ (a - b - 1) < q)%Q).
  { (* 2^a <= n, d < 2^(b+1) *)
    apply (Qmult_lt_r _ _ (2 ^ (b + 1))%Q); [apply pow2_pos|].
    rewrite <- pow2_add. replace (a - b - 1 + (b + 1)) with a by lia.
    apply (Qle_lt_trans _ (inject_Z (Qnum q))).
    { rewrite pow2_Z by done. by rewrite <- Zle_Qle. }
    rewrite Hq' at 2. unfold Qdiv. rewrite <- Qmult_assoc.
    rewrite <- (Qmult_1_r (inject_Z (Qnum q))) at 1.
    apply Qmult_lt_l; [unfold Qlt; cbn; lia|].
    apply (Qmult_lt_l _ _ (inject_Z (Zpos (Qden q)))); [done|].
    rewrite Qmult_1_r, Qmult_assoc, Qmult_inv_r, Qmult_1_l
      by (intros H0; rewrite H0 in Hd; by apply Qlt_irrefl in Hd).
    rewrite pow2_Z by lia. rewrite <- Zlt_Qlt. replace (b + 1) with (Z.succ b) by lia. done. }
  assert (Hhigh : (q < 2 ^ (a - b + 1))%Q).
  { apply (Qmult_lt_r _ _ (2 ^ b)%Q); [apply pow2_pos|].
    rewrite <- pow2_add. replace (a - b + 1 + b) with (a + 1) by lia.
    apply (Qle_lt_trans _ (inject_Z (Qnum q))).
    2:{ rewrite pow2_Z by lia. rewrite <- Zlt_Qlt.
        replace (a + 1) with (Z.succ a) by lia. done. }
    rewrite Hq' at 1. unfold Qdiv. rewrite <- Qmult_assoc.
    rewrite <- (Qmult_1_r (inject_Z (Qnum q))) at 2.
    apply Qmult_le_l; [unfold Qlt; cbn; lia|].
    apply (Qmult_le_l _ _ (inject_Z (Zpos (Qden q)))); [done|].
    rewrite Qmult_1_r, Qmult_assoc, Qmult_inv_r, Qmult_1_l
      by (intros H0; rewrite H0 in Hd; by apply Qlt_irrefl in Hd).
    rewrite pow2_Z by lia. by rewrite <- Zle_Qle. }
  destruct (Qle_bool (2 ^ (a - b)) q) eqn:Hle.
  - apply Qle_bool_iff in Hle. done.
  - split.
    + by apply Qlt_le_weak.
    + replace (a - b - 1 + 1) with (a - b) by lia.
      apply Qnot_le_lt. intros H. apply Qle_bool_iff in H. congruence.
Qed.

Lemma ilog2_unique q e :
  (2 ^ e <= q)%Q → (q < 2 ^ (e + 1))%Q → ilog2 q = e.
Proof.
  intros H1 H2.
  assert (Hq : (0 < q)%Q) by (eapply Qlt_le_trans; [apply pow2_pos | done]).
  destruct (ilog2_spec q Hq) as [H3 H4].
  assert (ilog2 q < e + 1).
  { apply pow2_lt_inv. by eapply Qle_lt_trans. }
  assert (e < ilog2 q + 1).
  { apply pow2_lt_inv. by eapply Qle_lt_trans. }
  lia.
Qed.

Lemma ilog2_comp a b : (0 < a)%Q → (a == b)%Q → ilog2 a = ilog2 b.
Proof.
  intros Ha Hab. symmetry. destruct (ilog2_spec a Ha) as [H1 H2].
  apply ilog2_unique; by rewrite <- Hab.
Qed.

Lemma ilog2_mono a b : (0 < a)%Q → (a <= b)%Q → ilog2 a ≤ ilog2 b.
Proof.
  intros Ha Hab. assert (Hb : (0 < b)%Q) by (by eapply Qlt_le_trans).
  destruct (ilog2_spec a Ha) as [H1 _], (ilog2_spec b Hb) as [_ H2].
  assert (ilog2 a < ilog2 b + 1); [|lia].
  apply pow2_lt_inv. eapply Qle_lt_trans; [exact H1|].
  by eapply Qle_lt_trans.
Qed.

Lemma rhe_cases q :
  let f := Qfloor q in
  (round_half_even q = f ∧ (q - inject_Z f <= 1 # 2)%Q) ∨
  (round_half_even q = f + 1 ∧ (1 # 2 <= q - inject_Z f)%Q).
Proof.
  cbv zeta. unfold round_half_even.
  destruct (Qcompare_spec (q - inject_Z (Qfloor q)) (1 # 2)) as [H|H|H].
  - destruct (Z.even _); [left|right]; (split; [done|]); rewrite H; apply Qle_refl.
  - left. split; [done | by apply Qlt_le_weak].
  - right. split; [done | by apply Qlt_le_weak].
Qed.

Global Instance rhe_comp : Proper (Qeq ==> eq) round_half_even.
Proof.
  intros a b Hab. unfold round_half_even. rewrite (Qfloor_comp _ _ Hab).
  by rewrite Hab.
Qed.

Lemma rhe_Z z : round_half_even (inject_Z z) = z.
Proof.
  unfold round_half_even. rewrite Qfloor_Z.
  assert ((inject_Z z - inject_Z z ?= 1 # 2)%Q = Lt) as ->; [|done].
  apply (proj1 (Qlt_alt _ _)). lra.
Qed.

Lemma rhe_mono a b : (a <= b)%Q → round_half_even a ≤ round_half_even b.
Proof.
  intros Hab. pose proof (Qfloor_resp_le _ _ Hab) as Hf.
  pose proof (Qfloor_le a) as Ha1. pose proof (Qlt_floor a) as Ha2.
  pose proof (Qfloor_le b) as Hb1. pose proof (Qlt_floor b) as Hb2.
  destruct (decide (Qfloor a = Qfloor b)) as [Heq|Hne].
  - unfold round_half_even. rewrite <- Heq.
    destruct (Qcompare_spec (a - inject_Z (Qfloor a)) (1 # 2)) as [H|H|H],
             (Qcompare_spec (b - inject_Z (Qfloor a)) (1 # 2)) as [H'|H'|H'];
      try destruct (Z.even _); try lia; exfalso; lra.
  - destruct (rhe_cases a) as [[-> _]|[-> _]], (rhe_cases b) as [[-> _]|[-> _]];
      lia.
Qed.

Lemma rhe_ge z q : (inject_Z z <= q)%Q → z ≤ round_half_even q.
Proof. intros H. rewrite <- (rhe_Z z). by apply rhe_mono. Qed.

Lemma rhe_le z q : (q <= inject_Z z)%Q → round_half_even q ≤ z.
Proof. intros H. rewrite <- (rhe_Z z). by apply rhe_mono. Qed.


Lemma scaled_range q :
  (0 < q)%Q →
  (inject_Z (2 ^ 52) <= q * 2 ^ (52 - ilog2 q))%Q ∧
  (q * 2 ^ (52 - ilog2 q) < inject_Z (2 ^ 53))%Q.
Proof.
  intros Hq. destruct (ilog2_spec q Hq) as [H1 H2].
  rewrite <- !pow2_Z by lia. split.
  - replace 52 with (ilog2 q + (52 - ilog2 q)) at 1 by lia.
    rewrite pow2_add. apply Qmult_le_compat_r; [done|].
    apply Qlt_le_weak, pow2_pos.
  - replace 53 with (ilog2 q + 1 + (52 - ilog2 q)) by lia.
    rewrite pow2_add. apply Qmult_lt_r; [apply pow2_pos | done].
Qed.

Lemma mantissa_range q :
  (0 < q)%Q →
  2 ^ 52 ≤ round_half_even (q * 2 ^ (52 - ilog2 q)) ≤ 2 ^ 53.
Proof.
  intros Hq. destruct (scaled_range q Hq) as [H1 H2]. split.
  - by apply rhe_ge.
  - by apply rhe_le, Qlt_le_weak.
Qed.

Lemma round53_range q :
  (0 < q)%Q →
  (2 ^ ilog2 q <= round53 q)%Q ∧ (round53 q <= 2 ^ (ilog2 q + 1))%Q.
Proof.
  intros Hq. destruct (mantissa_range q Hq) as [H1 H2]. unfold round53.
  set (m := round_half_even _) in *. split.
  - replace (ilog2 q) with (52 + - (52 - ilog2 q)) at 1 by lia.
    rewrite pow2_add. apply Qmult_le_compat_r.
    + rewrite pow2_Z by lia. by rewrite <- Zle_Qle.
    + apply Qlt_le_weak, pow2_pos.
  - replace (ilog2 q + 1) with (53 + - (52 - ilog2 q)) by lia.
    rewrite pow2_add. apply Qmult_le_compat_r.
    + rewrite pow2_Z by lia. by rewrite <- Zle_Qle.
    + apply Qlt_le_weak, pow2_pos.
Qed.

Lemma round53_pos q : (0 < q)%Q → (0 < round53 q)%Q.
Proof.
  intros Hq. destruct (round53_range q Hq) as [H _].
  eapply Qlt_le_trans; [apply pow2_pos | exact H].
Qed.

Lemma round53_comp a b : (0 < a)%Q → (a == b)%Q → (round53 a == round53 b)%Q.
Proof.
  intros Ha Hab. unfold round53. rewrite (ilog2_comp a b Ha Hab).
  by rewrite Hab.
Qed.

Lemma round53_mono a b :
  (0 < a)%Q → (a <= b)%Q → (round53 a <= round53 b)%Q.
Proof.
  intros Ha Hab. assert (Hb : (0 < b)%Q) by (by eapply Qlt_le_trans).
  pose proof (ilog2_mono a b Ha Hab) as He.
  destruct (decide (ilog2 a = ilog2 b)) as [Heq|Hne].
  - unfold round53. rewrite Heq. apply Qmult_le_compat_r.
    + rewrite <- Zle_Qle. apply rhe_mono. apply Qmult_le_compat_r; [done|].
      apply Qlt_le_weak, pow2_pos.
    + apply Qlt_le_weak, pow2_pos.
  - destruct (round53_range a Ha) as [_ H1], (round53_range b Hb) as [H2 _].
    eapply Qle_trans; [exact H1|]. eapply Qle_trans; [|exact H2].
    apply pow2_le. lia.
Qed.

(** A number with at most 53 significant bits is kept as it is. *)
Lemma round53_exact m t :
  0 < m ≤ 2 ^ 53 → (round53 (inject_Z m * 2 ^ t) == inject_Z m * 2 ^ t)%Q.
Proof.
  intros Hm.
  assert (Hgen : ∀ m t, 0 < m < 2 ^ 53 →
            (round53 (inject_Z m * 2 ^ t) == inject_Z m * 2 ^ t)%Q).
  { clear. intros m t Hm.
    destruct (Z.log2_spec m) as [Hl1 Hl2]; [lia|].
    set (l := Z.log2 m) in *.
    assert (Hl0 : 0 ≤ l) by apply Z.log2_nonneg.
    assert (Hl : l < 53).
    { apply (Z.pow_lt_mono_r_iff 2); lia. }
    assert (He : ilog2 (inject_Z m * 2 ^ t) = l + t).
    { apply ilog2_unique.
      - rewrite pow2_add. apply Qmult_le_compat_r.
        + rewrite pow2_Z by done. by rewrite <- Zle_Qle.
        + apply Qlt_le_weak, pow2_pos.
      - replace (l + t + 1) with (l + 1 + t) by lia. rewrite pow2_add.
        apply Qmult_lt_r; [apply pow2_pos|].
        rewrite pow2_Z by lia. rewrite <- Zlt_Qlt.
        by replace (l + 1) with (Z.succ l) by lia. }
    unfold round53. rewrite He.
    assert (Hs : (inject_Z m * 2 ^ t * 2 ^ (52 - (l + t)) ==
                  inject_Z (m * 2 ^ (52 - l)))%Q).
    { rewrite inject_Z_mult, <- pow2_Z by lia.
      rewrite <- Qmult_assoc, <- pow2_add.
      by replace (t + (52 - (l + t))) with (52 - l) by lia. }
    rewrite Hs, rhe_Z, inject_Z_mult, <- pow2_Z by lia.
    rewrite <- Qmult_assoc, <- pow2_add.
    by replace (52 - l + - (52 - (l + t))) with t by lia. }
  destruct (decide (m = 2 ^ 53)) as [->|Hne]; [|apply Hgen; lia].
  assert (Heq : (inject_Z (2 ^ 53) * 2 ^ t == inject_Z 1 * 2 ^ (53 + t))%Q).
  { rewrite <- pow2_Z, <- pow2_add by lia. change (inject_Z 1) with 1%Q.
    by rewrite Qmult_1_l. }
  assert (Hp : (0 < inject_Z (2 ^ 53) * 2 ^ t)%Q).
  { apply Qmult_lt_0_compat; [done | apply pow2_pos]. }
  rewrite (round53_comp _ _ Hp Heq), Heq. apply Hgen. lia.
Qed.

Lemma round53_idem q : (0 < q)%Q → (round53 (round53 q) == round53 q)%Q.
Proof.
  intros Hq. destruct (mantissa_range q Hq) as [H1 H2].
  unfold round53 at 2 3. apply round53_exact. lia.
Qed.

Lemma Qnum_neg q : (q < 0)%Q ↔ Qnum q < 0.
Proof. unfold Qlt. cbn. lia. Qed.

Lemma Qnum_zero q : (q == 0)%Q ↔ Qnum q = 0.
Proof. unfold Qeq. cbn. lia. Qed.

Lemma float64_pos_red q : (0 < q)%Q → float64 q = Qred (round53 q).
Proof.
  intros Hq%Qnum_pos. unfold float64. by destruct (Qnum q) eqn:E; try lia.
Qed.

Lemma float64_neg_red q : (q < 0)%Q → float64 q = Qred (- round53 (- q)).
Proof.
  intros Hq%Qnum_neg. unfold float64. by destruct (Qnum q) eqn:E; try lia.
Qed.

Lemma float64_pos q : (0 < q)%Q → (float64 q == round53 q)%Q.
Proof. intros Hq. rewrite (float64_pos_red q Hq). apply Qred_correct. Qed.

Lemma float64_neg q : (q < 0)%Q → (float64 q == - round53 (- q))%Q.
Proof. intros Hq. rewrite (float64_neg_red q Hq). apply Qred_correct. Qed.

Lemma float64_zero q : (q == 0)%Q → float64 q = 0%Q.
Proof. intros Hq%Qnum_zero. unfold float64. by rewrite Hq. Qed.

Lemma Q_sign q : (q < 0)%Q ∨ (q == 0)%Q ∨ (0 < q)%Q.
Proof.
  destruct (Q_dec q 0) as [[H|H]|H]; auto.
Qed.

Lemma float64_sign_pos q : (0 < q)%Q → (0 < float64 q)%Q.
Proof. intros Hq. rewrite (float64_pos q Hq). by apply round53_pos. Qed.

Lemma float64_sign_neg q : (q < 0)%Q → (float64 q < 0)%Q.
Proof.
  intros Hq. rewrite (float64_neg q Hq).
  assert (0 < round53 (- q))%Q; [|lra]. apply round53_pos. lra.
Qed.

Lemma float64_nonneg q : (0 <= q)%Q → (0 <= float64 q)%Q.
Proof.
  intros Hq. destruct (Q_sign q) as [H|[H|H]]; [lra| |].
  - by rewrite (float64_zero q H).
  - by apply Qlt_le_weak, float64_sign_pos.
Qed.

Lemma float64_comp a b : (a == b)%Q → float64 a = float64 b.
Proof.
  intros Hab. destruct (Q_sign a) as [H|[H|H]].
  - rewrite (float64_neg_red a H). rewrite Hab in H.
    rewrite (float64_neg_red b H). apply Qred_complete.
    apply Qopp_comp, round53_comp; [lra | by rewrite Hab].
  - rewrite (float64_zero a H). rewrite Hab in H. by rewrite (float64_zero b H).
  - rewrite (float64_pos_red a H). pose proof H as H'. rewrite Hab in H'.
    rewrite (float64_pos_red b H'). by apply Qred_complete, round53_comp.
Qed.

Global Instance float64_proper : Proper (Qeq ==> eq) float64.
Proof. intros a b Hab. by apply float64_comp. Qed.

Lemma float64_mono a b : (a <= b)%Q → (float64 a <= float64 b)%Q.
Proof.
  intros Hab. destruct (Q_sign a) as [Ha|[Ha|Ha]].
  - destruct (Q_sign b) as [Hb|[Hb|Hb]].
    + rewrite (float64_neg a Ha), (float64_neg b Hb).
      apply Qopp_le_compat. apply round53_mono; lra.
    + rewrite (float64_zero b Hb). by apply Qlt_le_weak, float64_sign_neg.
    + apply Qlt_le_weak. eapply Qlt_trans; [by apply float64_sign_neg|].
      by apply float64_sign_pos.
  - rewrite (float64_zero a Ha). apply float64_nonneg. lra.
  - assert (Hb : (0 < b)%Q) by lra.
    rewrite (float64_pos a Ha), (float64_pos b Hb). by apply round53_mono.
Qed.

Lemma float64_idem q : float64 (float64 q) = float64 q.
Proof.
  destruct (Q_sign q) as [H|[H|H]].
  - assert (Hp : (0 < - q)%Q) by lra.
    pose proof (round53_pos _ Hp) as Hr.
    rewrite (float64_neg_red q H) at 2.
    assert (Hn : (float64 q < 0)%Q) by (by apply float64_sign_neg).
    rewrite (float64_neg_red _ Hn). apply Qred_complete.
    apply Qopp_comp.
    assert (Hq : (- float64 q == round53 (- q))%Q).
    { rewrite (float64_neg q H). ring. }
    assert (Hq0 : (0 < - float64 q)%Q) by lra.
    rewrite (round53_comp _ _ Hq0 Hq). by apply round53_idem.
  - rewrite (float64_zero q H). by apply float64_zero.
  - pose proof (round53_pos _ H) as Hr.
    rewrite (float64_pos_red q H) at 2.
    assert (Hn : (0 < float64 q)%Q) by (by apply float64_sign_pos).
    rewrite (float64_pos_red _ Hn). apply Qred_complete.
    rewrite (round53_comp _ _ Hn (float64_pos q H)). by apply round53_idem.
Qed.

Lemma float64_exact m t :
  Z.abs m ≤ 2 ^ 53 → (float64 (inject_Z m * 2 ^ t) == inject_Z m * 2 ^ t)%Q.
Proof.
  intros Hm. pose proof (pow2_pos t) as Ht.
  destruct (Z.lt_trichotomy m 0) as [H|[->|H]].
  - assert (Hq : (inject_Z m * 2 ^ t < 0)%Q).
    { assert (H0 : (0 < inject_Z (- m) * 2 ^ t)%Q).
      { apply Qmult_lt_0_compat; [|done]. change 0%Q with (inject_Z 0).
        rewrite <- Zlt_Qlt. lia. }
      rewrite inject_Z_opp in H0. lra. }
    rewrite (float64_neg _ Hq).
    assert (He : (- (inject_Z m * 2 ^ t) == inject_Z (- m) * 2 ^ t)%Q)
      by (rewrite inject_Z_opp; ring).
    assert (Hp : (0 < - (inject_Z m * 2 ^ t))%Q) by lra.
    rewrite (round53_comp _ _ Hp He), round53_exact by lia.
    rewrite inject_Z_opp. ring.
  - rewrite float64_zero; [ring|]. change (inject_Z 0) with 0%Q. ring.
  - assert (Hq : (0 < inject_Z m * 2 ^ t)%Q).
    { apply Qmult_lt_0_compat; [|done]. change 0%Q with (inject_Z 0).
      rewrite <- Zlt_Qlt. lia. }
    rewrite (float64_pos _ Hq). apply round53_exact. lia.
Qed.

Lemma float64_red a b : (float64 a == b)%Q → float64 a = Qred b.
Proof.
  intros H. unfold float64 in *. apply Qred_complete.
  by rewrite <- H, Qred_correct.
Qed.

Lemma Qred_inject_Z z : Qred (inject_Z z) = inject_Z z.
Proof.
  unfold Qred, inject_Z.
  pose proof (Z.ggcd_gcd z 1) as Hg.
  pose proof (Z.ggcd_correct_divisors z 1) as Hd.
  destruct (Z.ggcd z 1) as [g [a b]]. cbn in Hg, Hd.
  rewrite Z.gcd_1_r in Hg. subst g. destruct Hd as [-> Hb].
  f_equal; [lia|]. by replace b with 1 by lia.
Qed.

Lemma float64_Z z : Z.abs z ≤ 2 ^ 53 → float64 (inject_Z z) = inject_Z z.
Proof.
  intros Hz. rewrite <- (Qred_inject_Z z) at 2. apply float64_red.
  assert (He : (inject_Z z == inject_Z z * 2 ^ 0)%Q).
  { change (2 ^ 0)%Q with 1%Q. ring. }
  rewrite (float64_comp _ _ He).
  eapply Qeq_trans; [by apply float64_exact | by symmetry].
Qed.

Lemma py_float_ok k fk : py_float k = Ok fk → fk = float64 k.
Proof. unfold py_float. by destruct (Qle_bool _ _); intros [= <-]. Qed.

Lemma py_float_Z z : Z.abs z ≤ 2 ^ 53 → py_float (inject_Z z) = Ok (inject_Z z).
Proof.
  intros Hz. unfold py_float. rewrite (float64_Z z Hz).
  destruct (Qle_bool (2 ^ 1024) (Qabs (inject_Z z))) eqn:Hle; [|done].
  apply Qle_bool_iff in Hle. exfalso.
  assert (H53 : (inject_Z (2 ^ 53) < 2 ^ 1024)%Q).
  { rewrite <- pow2_Z by lia. by apply pow2_lt. }
  assert (Habs : (Qabs (inject_Z z) <= inject_Z (2 ^ 53))%Q).
  { apply Qabs_Qle_condition. rewrite <- inject_Z_opp, <- !Zle_Qle. lia. }
  lra.
Qed.

(** ** One iteration of the first loop *)

(** What one iteration of the first loop does to a well-formed forest. *)
Lemma merge_edge_spec k fk uf thr w u v :
  py_float k = Ok fk →
  wf uf → length thr = length (parent uf) →
  (u < length (parent uf))%nat → (v < length (parent uf))%nat →
  ∃ ru rv tu tv uf' thr',
    root_of (parent uf) u ru ∧ root_of (parent uf) v rv ∧
    thr !! ru = Some tu ∧ thr !! rv = Some tv ∧
    merge_edge k (uf, thr) (w, u, v) = Ok (uf', thr') ∧
    wf uf' ∧ length (parent uf') = length (parent uf) ∧
    length thr' = length thr ∧
    (ru = rv ∨ Qle_bool (float64 w) (py_min tu tv) = false →
       num_sets uf' = num_sets uf ∧ thr' = thr ∧
       same_roots (parent uf) (parent uf')) ∧
    (ru ≠ rv → Qle_bool (float64 w) (py_min tu tv) = true →
       num_sets uf' = num_sets uf - 1 ∧
       ∃ r', (r' = ru ∨ r' = rv) ∧
         root_of (parent uf') u r' ∧ root_of (parent uf') v r' ∧
         thr' = <[r' := float64 (float64 w + fk)]> thr ∧
         ∀ x r, root_of (parent uf) x r →
           root_of (parent uf') x
             (if decide (r = ru ∨ r = rv) then r' else r)).
Proof.
  intros Hk Hwf Hthr Hu Hv. unfold merge_edge.
  destruct (find_spec uf u Hwf Hu) as (par1 & ru & -> & Hru & Hs1 & Hl1 & Hwf1).
  cbn [res_bind].
  assert (Hv1 : (v < length (parent (set_parent uf par1)))%nat).
  { cbn [parent set_parent]. lia. }
  destruct (find_spec (set_parent uf par1) v Hwf1 Hv1)
    as (par2 & rv & -> & Hrv & Hs2 & Hl2 & Hwf2).
  cbn [res_bind parent set_parent] in *.
  apply Hs1 in Hrv.
  assert (Hs : same_roots (parent uf) par2) by (by eapply same_roots_trans).
  pose proof (root_of_range uf u ru Hwf Hru) as Hltu.
  pose proof (root_of_range uf v rv Hwf Hrv) as Hltv.
  destruct (lookup_lt_is_Some_2 thr ru) as [tu Htu]; [lia|].
  destruct (lookup_lt_is_Some_2 thr rv) as [tv Htv]; [lia|].
  exists ru, rv, tu, tv.
  destruct (decide (ru = rv)) as [Heq|Hne].
  { subst rv. rewrite Nat.eqb_refl. cbn [negb]. eexists _, _.
    split_and!; try done. cbn [parent set_parent]. lia. }
  replace (ru =? rv)%nat with false by (symmetry; by apply Nat.eqb_neq).
  cbn [negb]. rewrite (np_get_nat _ _ _ Htu), (np_get_nat _ _ _ Htv).
  cbn [res_bind].
  destruct (Qle_bool (float64 w) (py_min tu tv)) eqn:Hle; last first.
  { eexists _, _. split_and!; try done. cbn [parent set_parent]. lia. }
  assert (Hra : root_of par2 ru ru).
  { apply Hs. by eapply root_of_idem. }
  assert (Hrb : root_of par2 rv rv).
  { apply Hs. by eapply root_of_idem. }
  destruct (union_spec (set_parent (set_parent uf par1) par2)
              (Z.of_nat ru) (Z.of_nat rv) ru rv ru rv Hwf2)
    as (uf3 & -> & Hwf3 & Hl3 & Hcases); try done.
  { cbn [parent set_parent]. apply np_index_nat. lia. }
  { cbn [parent set_parent]. apply np_index_nat. lia. }
  cbn [res_bind parent set_parent] in *.
  destruct Hcases as [[? _]|(_ & Hns & a & b & Hab & Hmap)]; [done|].
  destruct (find_spec uf3 ru Hwf3) as (par4 & r' & -> & Hr' & Hs4 & Hl4 & Hwf4).
  { lia. }
  cbn [res_bind]. rewrite Hk. cbn [res_bind].
  pose proof (Hmap _ _ Hra) as Hma. pose proof (Hmap _ _ Hrb) as Hmb.
  assert (r' = merged a b ru) as Hr'eq by (by eapply root_of_functional).
  assert (merged a b rv = r') as Hrveq.
  { rewrite Hr'eq. unfold merged.
    destruct Hab as [[-> ->]|[-> ->]]; repeat case_decide; congruence. }
  assert (r' = ru ∨ r' = rv) as Hr'or.
  { rewrite Hr'eq. unfold merged.
    destruct Hab as [[-> ->]|[-> ->]]; repeat case_decide; auto. }
  assert (r' < length thr)%nat as Hr'lt by (destruct Hr'or; lia).
  rewrite np_set_nat by done. cbn [res_bind].
  eexists _, _. split_and!; try done.
  - cbn [parent set_parent]. lia.
  - by rewrite length_insert.
  - intros [?|?]; done.
  - intros _ _. cbn [num_sets parent set_parent] in *. split; [done|].
    assert (Hall : ∀ x r, root_of (parent uf) x r →
              root_of par4 x (if decide (r = ru ∨ r = rv) then r' else r)).
    { intros x r Hx. apply Hs4. apply Hs in Hx. apply Hmap in Hx.
      replace (if decide (r = ru ∨ r = rv) then r' else r)
        with (merged a b r); [done|].
      case_decide as Hd.
      - destruct Hd as [->| ->]; congruence.
      - unfold merged. destruct Hab as [[-> ->]|[-> ->]]; case_decide; tauto. }
    exists r'. split_and!; [done | | | done | done].
    + specialize (Hall _ _ Hru). by rewrite decide_True in Hall by auto.
    + specialize (Hall _ _ Hrv). by rewrite decide_True in Hall by auto.
Qed.

(** ** Loops *)

Lemma res_fold_inv {A S} (P : S → Prop) (body : S → A → res S) l s :
  P s →
  (∀ s a, a ∈ l → P s → ∃ s', body s a = Ok s' ∧ P s') →
  ∃ s', res_fold body l s = Ok s' ∧ P s'.
Proof.
  revert s. induction l as [|a l IH]; intros s Hs Hbody; [by exists s|].
  destruct (Hbody s a) as (s1 & Hs1 & HP1); [by left | done |].
  cbn [res_fold]. rewrite Hs1. cbn [res_bind].
  apply IH; [done|]. intros s2 b Hb. apply Hbody. by right.
Qed.

Lemma res_fold_ok_inv {A S} (P : S → Prop) (body : S → A → res S) l s s' :
  P s →
  (∀ s a s', a ∈ l → P s → body s a = Ok s' → P s') →
  res_fold body l s = Ok s' → P s'.
Proof.
  revert s. induction l as [|a l IH]; intros s Hs Hbody Hrun.
  - by injection Hrun as <-.
  - cbn [res_fold] in Hrun. destruct (body s a) as [s1|e] eqn:Hs1; [|done].
    cbn [res_bind] in Hrun. eapply (IH s1); [| |done].
    + eapply Hbody; [by left | done | done].
    + intros s2 b s3 Hb. apply Hbody. by right.
Qed.

(** ** The graph builder *)

Lemma edge_lt_weight e1 e2 :
  edge_lt e1 e2 = true → (weight_of e1 <= weight_of e2)%Q.
Proof.
  destruct e1 as [[w1 u1] v1], e2 as [[w2 u2] v2]. cbn.
  destruct (Qeq_bool w1 w2) eqn:Heq; cbn.
  - intros _. apply Qeq_bool_iff in Heq. rewrite Heq. apply Qle_refl.
  - intros H. by apply Qle_bool_iff.
Qed.

Lemma edge_not_lt_weight e1 e2 :
  edge_lt e1 e2 = false → (weight_of e2 <= weight_of e1)%Q.
Proof.
  destruct e1 as [[w1 u1] v1], e2 as [[w2 u2] v2]. cbn.
  destruct (Qeq_bool w1 w2) eqn:Heq; cbn.
  - intros _. apply Qeq_bool_iff in Heq. rewrite Heq. apply Qle_refl.
  - intros H. destruct (Qlt_le_dec w2 w1) as [Hlt|Hle].
    + by apply Qlt_le_weak.
    + apply Qle_bool_iff in Hle. congruence.
Qed.

Lemma sorted_insert_weight x s :
  StronglySorted weight_le s →
  StronglySorted weight_le (sorted_insert edge_lt x s).
Proof.
  induction s as [|y s IH]; cbn [sorted_insert]; intros Hs.
  - repeat constructor.
  - apply StronglySorted_cons in Hs as [Hy Hs].
    destruct (edge_lt y x) eqn:Hlt.
    + apply StronglySorted_cons. split; [|by apply IH].
      rewrite sorted_insert_perm. constructor; [|done].
      by apply edge_lt_weight.
    + apply edge_not_lt_weight in Hlt.
      apply StronglySorted_cons. split; [|by apply StronglySorted_cons].
      constructor; [done|]. eapply Forall_impl; [exact Hy|].
      intros z Hz. unfold weight_le in *. by eapply Qle_trans.
Qed.

Lemma sorted_weight l : StronglySorted weight_le (sorted edge_lt l).
Proof.
  induction l as [|x l IH]; unfold sorted in *; cbn [foldr]; [constructor|].
  by apply sorted_insert_weight.
Qed.

Lemma create_graph_sorted image edges :
  create_graph image = Ok edges → StronglySorted weight_le edges.
Proof.
  unfold create_graph. destruct (res_fold _ _ _) as [l|e]; [|done].
  cbn [res_bind]. intros [= <-]. apply sorted_weight.
Qed.

(** ** The entry point *)

(** How the entry point starts: it looks at the image's shape, hands the
    smoothed copy to the graph builder and goes on from its edges. *)
Lemma engine_unfold gaussian h image img k min_size sigma rand :
  h !! image = Some img →
  felzenszwalb_huttenlocher gaussian h image k min_size sigma rand =
  let sm := smoothed_of gaussian img sigma in
  let out := S (length h) in
  let? edges := create_graph sm in
  let? (uf, threshold) := first_pass k edges (height img * width img) in
  let? uf := second_pass min_size edges uf in
  let? st := paint rand (ndim img =? 3)%nat (height img) (width img)
               out ((h ++ [sm]) ++ [zeros_like img]) uf in
  let '(h', uf, _, _) := st in
  Ok (h', (out, num_sets uf, uf)).
Proof.
  intros Himg. unfold felzenszwalb_huttenlocher, heap_get at 1, smoothed_of.
  rewrite Himg. cbn [res_bind].
  destruct (negb (Qle_bool sigma 0)); cbn [heap_alloc];
    unfold heap_get; rewrite lookup_app_r, Nat.sub_diag by done;
    cbn [lookup list_lookup res_bind]; rewrite length_app; cbn [length];
    by rewrite Nat.add_1_r.
Qed.

(** ** The merge rule of the first pass *)

Lemma py_min_spec a b :
  (py_min a b <= a)%Q ∧ (py_min a b <= b)%Q ∧
  (py_min a b = a ∨ py_min a b = b).
Proof.
  unfold py_min. destruct (Qle_bool a b) eqn:Hle; cbn.
  - apply Qle_bool_iff in Hle. split_and!; [apply Qle_refl | done | by left].
  - split_and!; [|apply Qle_refl | by right].
    destruct (Qlt_le_dec b a) as [Hlt|Hge]; [by apply Qlt_le_weak|].
    apply Qle_bool_iff in Hge. congruence.
Qed.

Lemma first_pass_unfold k edges n :
  first_pass k edges n =
  let? fk := py_float k in
  res_fold (merge_edge k) edges (new n, replicate n fk).
Proof.
  unfold first_pass, UnionFind_init.
  replace (Z.of_nat n <? 0) with false by (symmetry; apply Z.ltb_ge; lia).
  cbn [res_bind]. by rewrite Nat2Z.id.
Qed.

Lemma first_pass_fold k fk edges n :
  py_float k = Ok fk →
  first_pass k edges n =
  res_fold (merge_edge k) edges (new n, replicate n fk).
Proof. intros Hk. by rewrite first_pass_unfold, Hk. Qed.

Lemma first_pass_raise k e edges n :
  py_float k = Raise e → first_pass k edges n = Raise e.
Proof. intros Hk. by rewrite first_pass_unfold, Hk. Qed.

Lemma first_pass_float k edges n r :
  first_pass k edges n = Ok r → py_float k = Ok (float64 k).
Proof.
  rewrite first_pass_unfold. destruct (py_float k) as [fk|e] eqn:Hk; [|done].
  intros _. by rewrite (py_float_ok k fk Hk).
Qed.

(** ** The output buffer and the caller's arrays *)

Lemma heap_store_frame h out y x v h' :
  heap_store h out y x v = Ok h' →
  length h' = length h ∧ ∀ l, l ≠ out → h' !! l = h !! l.
Proof.
  unfold heap_store. destruct (heap_get h out) as [a|]; [|done].
  cbn [res_bind]. destruct (np_store a y x v) as [a'|]; [|done].
  cbn [res_bind]. intros [= <-]. split; [by rewrite length_insert|].
  intros l Hl. by rewrite list_lookup_insert_ne.
Qed.

Lemma paint_pixel_frame rand is_color width out y st x st' :
  paint_pixel rand is_color width out y st x = Ok st' →
  length st'.1.1.1 = length st.1.1.1 ∧
  ∀ l, l ≠ out → st'.1.1.1 !! l = st.1.1.1 !! l.
Proof.
  destruct st as [[[h uf] cc] ctr]. unfold paint_pixel.
  destruct (find uf _) as [[uf' root]|]; [|done]. cbn [res_bind].
  destruct (cc !! root) as [c|].
  - destruct (heap_store h out y x c) as [h1|] eqn:Hst; [|done].
    cbn [res_bind]. intros [= <-]. cbn. by eapply heap_store_frame.
  - destruct (randint rand ctr _) as [c ctr'].
    destruct (heap_store h out y x c) as [h1|] eqn:Hst; [|done].
    cbn [res_bind]. intros [= <-]. cbn. by eapply heap_store_frame.
Qed.

Lemma paint_frame rand is_color height width out h uf st' :
  paint rand is_color height width out h uf = Ok st' →
  length st'.1.1.1 = length h ∧ ∀ l, l ≠ out → st'.1.1.1 !! l = h !! l.
Proof.
  unfold paint. intros Hrun.
  set (P := λ st : paint_state,
         length st.1.1.1 = length h ∧ ∀ l, l ≠ out → st.1.1.1 !! l = h !! l).
  assert (H0 : P (h, uf, ∅, 0%nat)) by done.
  apply (res_fold_ok_inv P _ _ _ _ H0) in Hrun; [done|].
  intros st y st1 _ Hst Hrow. unfold paint_row in Hrow.
  apply (res_fold_ok_inv P _ _ _ _ Hst) in Hrow; [done|].
  intros s x s' _ [Hlen Hs] Hpx.
  apply paint_pixel_frame in Hpx as [Hlen' Hs']. split; [congruence|].
  intros l Hl. rewrite Hs' by done. by apply Hs.
Qed.

(** C10.  When the segmentation entry point returns, every array the caller
    held, the input buffer among them, has the elements it had before the
    call; the smoothed copy and the coloured output are new arrays. *)
Theorem input_buffer_unchanged gaussian h image k min_size sigma rand
    h' out n uf :
  felzenszwalb_huttenlocher gaussian h image k min_size sigma rand
    = Ok (h', (out, n, uf)) →
  h' !! image = h !! image ∧
  (∀ l a, h !! l = Some a → h' !! l = Some a) ∧
  h !! out = None ∧ out ≠ image ∧ is_Some (h' !! out) ∧
  ∃ img, h !! image = Some img ∧
    h !! length h = None ∧ length h ≠ out ∧
    h' !! length h =
      Some (if negb (Qle_bool sigma 0)
            then gaussian img sigma (ndim img =? 3)%nat else img).
Proof.
  unfold felzenszwalb_huttenlocher, heap_get at 1.
  destruct (h !! image) as [img|] eqn:Himg; [|done]. cbn [res_bind].
  set (sm := if negb (Qle_bool sigma 0)
             then gaussian img sigma (ndim img =? 3)%nat else img).
  assert (Halloc : (if negb (Qle_bool sigma 0)
                    then heap_alloc h (gaussian img sigma (ndim img =? 3)%nat)
                    else heap_alloc h img) = (h ++ [sm], length h)).
  { unfold sm, heap_alloc. by destruct (negb _). }
  rewrite Halloc. clear Halloc.
  destruct (heap_get (h ++ [sm]) (length h)) as [smoothed|]; [|done].
  cbn [res_bind]. destruct (create_graph smoothed) as [edges|]; [|done].
  cbn [res_bind].
  destruct (first_pass k edges _) as [[uf1 thr]|]; [|done]. cbn [res_bind].
  destruct (second_pass min_size edges uf1) as [uf2|]; [|done].
  cbn [res_bind heap_alloc].
  destruct (paint _ _ _ _ _ _ _) as [[[[h2 uf3] cc] ctr]|] eqn:Hpaint; [|done].
  cbn [res_bind]. intros [= <- <- <- <-].
  apply paint_frame in Hpaint as [Hlen Hframe]. cbn [fst] in *.
  rewrite !length_app in Hlen. rewrite length_app in Hframe |- *.
  cbn [length] in *.
  assert (Himg_lt : (image < length h)%nat) by (by eapply lookup_lt_Some).
  assert (Hkeep : ∀ l, (l < length h)%nat → h2 !! l = h !! l).
  { intros l Hl. rewrite Hframe by lia. rewrite !lookup_app_l; [done|lia|].
    rewrite length_app. cbn [length]. lia. }
  split_and!.
  - by rewrite Hkeep.
  - intros l a Hl. rewrite Hkeep; [done|]. by eapply lookup_lt_Some.
  - apply lookup_ge_None_2. lia.
  - lia.
  - apply lookup_lt_is_Some_2. lia.
  - exists img. split; [done|]. split; [by apply lookup_ge_None_2|].
    split; [lia|].
    rewrite Hframe by lia. rewrite lookup_app_l by (rewrite length_app; cbn; lia).
    rewrite lookup_app_r by lia. by rewrite Nat.sub_diag.
Qed.

Lemma input_buffer_unchanged_witness :
  let gaussian := fun (a : ndarray) (_ : Q) (_ : bool) => a in
  let img := mkArray Int64 1 4 None [0; 0; 255; 255]%Q in
  let h := [img] in
  let h' := [img; img; mkArray Int64 1 4 None [0; 0; 1; 1]%Q] in
  let uf := mkUnionFind [0; 0; 2; 2]%nat [1; 0; 1; 0]%nat 2 in
  felzenszwalb_huttenlocher gaussian h 0%nat 10 0 0 (fun n => Z.of_nat n)
    = Ok (h', (2%nat, 2, uf)) ∧
  h' !! 0%nat = h !! 0%nat ∧
  (∀ l a, h !! l = Some a → h' !! l = Some a) ∧
  h !! 2%nat = None ∧ 2%nat ≠ 0%nat ∧ is_Some (h' !! 2%nat) ∧
  ∃ img0, h !! 0%nat = Some img0 ∧
    h !! length h = None ∧ length h ≠ 2%nat ∧
    h' !! length h =
      Some (if negb (Qle_bool 0 0)
            then gaussian img0 0%Q (ndim img0 =? 3)%nat else img0).
Proof.
  intros gaussian img h h' uf.
  assert (Hrun : felzenszwalb_huttenlocher gaussian h 0%nat 10 0 0
                   (fun n => Z.of_nat n) = Ok (h', (2%nat, 2, uf)))
    by (vm_compute; reflexivity).
  split; [exact Hrun|].
  exact (input_buffer_unchanged gaussian h 0%nat 10 0 0 (fun n => Z.of_nat n)
           h' 2%nat 2 uf Hrun).
Defined.

(** ** Runs that differ in the random draws *)

Lemma res_fold_rel {A S1 S2} (R : S1 → S2 → Prop)
    (body1 : S1 → A → res S1) (body2 : S2 → A → res S2) l s1 s2 :
  R s1 s2 →
  (∀ a s1 s2, R s1 s2 → res_rel R (body1 s1 a) (body2 s2 a)) →
  res_rel R (res_fold body1 l s1) (res_fold body2 l s2).
Proof.
  intros Hs Hbody. revert s1 s2 Hs.
  induction l as [|a l IH]; intros s1 s2 Hs; [done|].
  cbn [res_fold]. specialize (Hbody a s1 s2 Hs).
  destruct (body1 s1 a) as [t1|e1], (body2 s2 a) as [t2|e2]; cbn in *;
    try done.
  by apply IH.
Qed.

Lemma np_store_rel a1 a2 y x v1 v2 :
  same_shape a1 a2 → length v1 = length v2 →
  res_rel same_shape (np_store a1 y x v1) (np_store a2 y x v2).
Proof.
  intros (Hh & Hw & Hc) Hv. unfold np_store, pixel_len.
  rewrite Hh, Hw, Hc, Hv.
  destruct (_ && _); [|done].
  destruct (length v2 =? _)%nat; [done|].
  destruct v1 as [|s1 [|]], v2 as [|s2 [|]]; try done.
Qed.

Lemma heap_store_rel h1 h2 out y x v1 v2 :
  option_Forall2 same_shape (h1 !! out) (h2 !! out) →
  length v1 = length v2 →
  res_rel (λ h1' h2', option_Forall2 same_shape (h1' !! out) (h2' !! out))
    (heap_store h1 out y x v1) (heap_store h2 out y x v2).
Proof.
  intros Hh Hv. unfold heap_store, heap_get.
  destruct (h1 !! out) as [a1|] eqn:H1, (h2 !! out) as [a2|] eqn:H2;
    inversion Hh as [? ? Ha|]; subst; [|done]. cbn [res_bind].
  pose proof (np_store_rel a1 a2 y x v1 v2 Ha Hv) as Hst.
  destruct (np_store a1 y x v1) as [b1|], (np_store a2 y x v2) as [b2|];
    try done.
  cbn in *.
  assert (out < length h1)%nat by (eapply lookup_lt_Some; eauto).
  assert (out < length h2)%nat by (eapply lookup_lt_Some; eauto).
  rewrite !list_lookup_insert_eq by done. by constructor.
Qed.

Lemma randint_length rand ctr size : length (randint rand ctr size).1 = size.
Proof. unfold randint. cbn. by rewrite length_fmap, length_seq. Qed.

Lemma paint_pixel_rel rand1 rand2 is_color width out y x s1 s2 :
  paint_sim out s1 s2 →
  res_rel (paint_sim out)
    (paint_pixel rand1 is_color width out y s1 x)
    (paint_pixel rand2 is_color width out y s2 x).
Proof.
  destruct s1 as [[[h1 uf1] cc1] c1], s2 as [[[h2 uf2] cc2] c2].
  intros (<- & Hh & Hcc). unfold paint_pixel.
  destruct (find uf1 _) as [[uf' root]|]; [|done]. cbn [res_bind].
  pose proof (Hcc root) as Hroot.
  destruct Hroot as [k1 k2 Hk|].
  - pose proof (heap_store_rel h1 h2 out y x k1 k2 Hh Hk) as Hst.
    destruct (heap_store h1 out y x k1), (heap_store h2 out y x k2);
      try done.
  - pose proof (randint_length rand1 c1 (if is_color then 3 else 1)) as Hl1.
    pose proof (randint_length rand2 c2 (if is_color then 3 else 1)) as Hl2.
    destruct (randint rand1 c1 _) as [k1 c1'].
    destruct (randint rand2 c2 _) as [k2 c2']. cbn [fst] in *.
    assert (length k1 = length k2) as Hk by congruence.
    pose proof (heap_store_rel h1 h2 out y x k1 k2 Hh Hk) as Hst.
    destruct (heap_store h1 out y x k1), (heap_store h2 out y x k2);
      try done.
    cbn in *. split_and!; [done | done |].
    intros r. rewrite !lookup_insert. case_decide; [by constructor | done].
Qed.

Lemma paint_rel rand1 rand2 is_color height width out h uf :
  res_rel (paint_sim out)
    (paint rand1 is_color height width out h uf)
    (paint rand2 is_color height width out h uf).
Proof.
  unfold paint. apply res_fold_rel.
  - split_and!; [done | by destruct (h !! out); constructor |].
    intros r. rewrite lookup_empty. constructor.
  - intros y s1 s2 Hs. unfold paint_row. apply res_fold_rel; [done|].
    intros x t1 t2 Ht. by apply paint_pixel_rel.
Qed.

(** The partition a run returns does not depend on the random draws. *)
Lemma engine_rand_independent gaussian h image k min_size sigma rand1 rand2 :
  res_map partition_of
    (felzenszwalb_huttenlocher gaussian h image k min_size sigma rand1) =
  res_map partition_of
    (felzenszwalb_huttenlocher gaussian h image k min_size sigma rand2).
Proof.
  unfold felzenszwalb_huttenlocher.
  destruct (heap_get h image) as [img|]; [|done]. cbn [res_bind].
  destruct (if negb (Qle_bool sigma 0) then _ else _) as [h1 smoothed_image].
  destruct (heap_get h1 smoothed_image) as [smoothed|]; [|done].
  cbn [res_bind]. destruct (create_graph smoothed) as [edges|]; [|done].
  cbn [res_bind].
  destruct (first_pass k edges _) as [[uf1 thr]|]; [|done]. cbn [res_bind].
  destruct (second_pass min_size edges uf1) as [uf2|]; [|done].
  cbn [res_bind]. destruct (heap_alloc h1 (zeros_like img)) as [h2 out].
  pose proof (paint_rel rand1 rand2 (ndim img =? 3)%nat (height img)
                (width img) out h2 uf2) as Hrel.
  destruct (paint rand1 _ _ _ _ _ _) as [[[[h3 uf3] cc3] c3]|],
    (paint rand2 _ _ _ _ _ _) as [[[[h4 uf4] cc4] c4]|]; cbn in *;
    try done.
  - destruct Hrel as (-> & _). done.
  - by rewrite Hrel.
Qed.

(** C8.  With smoothing disabled ([sigma = 0]), two runs on the same input
    buffer and parameters, whatever the random colours drawn, either both
    raise the same exception or both return, with the same [num_sets], the
    same forest and the same [component_sizes] mapping. *)
Theorem segmentation_deterministic gaussian h image k min_size rand1 rand2 :
  res_map partition_of
    (felzenszwalb_huttenlocher gaussian h image k min_size 0 rand1) =
  res_map partition_of
    (felzenszwalb_huttenlocher gaussian h image k min_size 0 rand2) ∧
  component_sizes_of
    (felzenszwalb_huttenlocher gaussian h image k min_size 0 rand1) =
  component_sizes_of
    (felzenszwalb_huttenlocher gaussian h image k min_size 0 rand2).
Proof.
  pose proof (engine_rand_independent gaussian h image k min_size 0
                rand1 rand2) as H.
  split; [done|]. unfold component_sizes_of, res_map, partition_of in *.
  destruct (felzenszwalb_huttenlocher _ _ _ _ _ _ rand1) as [[h1 r1]|e1],
    (felzenszwalb_huttenlocher _ _ _ _ _ _ rand2) as [[h2 r2]|e2];
    cbn in *; congruence.
Qed.

(** Two runs with different colours on a concrete image. *)
Example two_colourings_example :
  let gaussian := fun (a : ndarray) (_ : Q) (_ : bool) => a in
  let img := mkArray Int64 1 4 None [0; 0; 255; 255]%Q in
  let run1 := felzenszwalb_huttenlocher gaussian [img] 0%nat 10 0 0
                (fun n => Z.of_nat n) in
  let run2 := felzenszwalb_huttenlocher gaussian [img] 0%nat 10 0 0
                (fun n => 7 * Z.of_nat n + 3) in
  res_map fst run1 ≠ res_map fst run2 ∧
  res_map partition_of run1 = res_map partition_of run2 ∧
  component_sizes_of run1 = Ok [(0, 2); (2, 2)]%nat ∧
  component_sizes_of run2 = Ok [(0, 2); (2, 2)]%nat.
Proof.
  cbv zeta. split_and!; [|reflexivity..].
  vm_compute. intros [=].
Qed.

(** ** The second pass on a concrete image *)

(** C2 (the code departs from the claim).  On the 1x10 single-channel [uint8]
    image [20 20 10 10 10 0 0 0 0 0] with [k = 1] and [min_size = 5], the first
    pass leaves the components {0,1}, {2,3,4} and {5,...,9}.  The second pass
    merges the first two across the edge (1, 2), which hangs root 2 under
    root 0 and leaves element 3 pointing at 2.  At the edge (4, 5) the
    component of root 0 has five elements, and so has the component of root
    5, but [np.sum(uf.parent == root)] finds only four entries equal to 0, so
    the two are merged: the run ends with one segment, where the rule with
    live sizes ends with two. *)
Theorem cleanup_counts_parent_entries :
  let img := mkArray UInt8 1 10 None [20; 20; 10; 10; 10; 0; 0; 0; 0; 0]%Q in
  let edges :=
    [mk_edge 0 0 1; mk_edge 0 2 3; mk_edge 0 3 4; mk_edge 0 5 6;
     mk_edge 0 6 7; mk_edge 0 7 8; mk_edge 0 8 9; mk_edge 100 1 2;
     mk_edge 100 4 5] in
  let uf1 := mkUnionFind [0; 0; 2; 2; 2; 5; 5; 5; 5; 5]%nat
                         [1; 0; 1; 0; 0; 1; 0; 0; 0; 0]%nat 3 in
  let uf2 := mkUnionFind [0; 0; 0; 2; 2; 5; 5; 5; 5; 5]%nat
                         [2; 0; 1; 0; 0; 1; 0; 0; 0; 0]%nat 2 in
  let uf3 := mkUnionFind [0; 0; 0; 2; 0; 5; 5; 5; 5; 5]%nat
                         [2; 0; 1; 0; 0; 1; 0; 0; 0; 0]%nat 2 in
  create_graph img = Ok edges ∧
  res_map fst (first_pass 1 edges 10) = Ok uf1 ∧
  res_fold (cleanup_edge 5) (take 8 edges) uf1 = Ok uf2 ∧
  find uf2 4 = Ok (uf3, 0%nat) ∧ find uf3 5 = Ok (uf3, 5%nat) ∧
  count_eq 0 (parent uf3) = 4%nat ∧
  res_map snd (live_size uf3 0) = Ok 5%nat ∧
  res_map snd (live_size uf3 5) = Ok 5%nat ∧
  res_map num_sets (cleanup_edge 5 uf2 (mk_edge 100 4 5)) = Ok 1 ∧
  res_map num_sets (cleanup_edge_live 5 uf2 (mk_edge 100 4 5)) = Ok 2 ∧
  res_map num_sets (second_pass 5 edges uf1) = Ok 1 ∧
  res_map num_sets (res_fold (cleanup_edge_live 5) edges uf1) = Ok 2 ∧
  res_map (fun r => snd (fst (snd r)))
    (felzenszwalb_huttenlocher (fun a _ _ => a) [img] 0%nat 1 5 0
       (fun _ => 0)) = Ok 1.
Proof. cbv zeta. split_and!; vm_compute; reflexivity. Qed.

(** ** Edge weights on a concrete image *)

(** C4 (the code departs from the claim).  On the 1x4 single-channel [uint8]
    image [0 0 255 255] the subtraction [0 - 255] wraps to 1, so the boundary
    edge gets weight 1 instead of 255^2; with [k = 10], [min_size = 0],
    [sigma = 0] it is merged and the run ends with one segment. *)
Theorem uint8_edge_weight_wraps :
  let img := mkArray UInt8 1 4 None [0; 0; 255; 255]%Q in
  pixel_diff img false 0 1 0 2 = Ok 1%Q ∧
  create_graph img = Ok [mk_edge 0 0 1; mk_edge 0 2 3; mk_edge 1 1 2] ∧
  res_map (fun r => snd (fst (snd r)))
    (felzenszwalb_huttenlocher (fun a _ _ => a) [img] 0%nat 10 0 0
       (fun _ => 0)) = Ok 1 ∧
  res_map (fun r => parent (snd (snd r)))
    (felzenszwalb_huttenlocher (fun a _ _ => a) [img] 0%nat 10 0 0
       (fun _ => 0)) = Ok [0; 0; 0; 0]%nat.
Proof. cbv zeta. split_and!; vm_compute; reflexivity. Qed.

(** The same image held as [float64] or [int64] gives what the scenario
    expects: weight 255^2 on the boundary edge and two segments, split
    between indices 1 and 2. *)
Lemma wide_edge_weight_exact d :
  d = Float64 ∨ d = Int64 →
  let img := mkArray d 1 4 None [0; 0; 255; 255]%Q in
  create_graph img =
    Ok [mk_edge 0 0 1; mk_edge 0 2 3; mk_edge (255 * 255) 1 2] ∧
  res_map (fun r => (snd (fst (snd r)), parent (snd (snd r))))
    (felzenszwalb_huttenlocher (fun a _ _ => a) [img] 0%nat 10 0 0
       (fun _ => 0)) = Ok (2, [0; 0; 2; 2]%nat).
Proof. intros [-> | ->]; cbv zeta; split; vm_compute; reflexivity. Qed.

(** On a [float64] image the weight is the sum of the squared channel
    differences, or the squared difference of the two scalars, every
    operation rounded to binary64. *)
Lemma float_pixel_diff_rounds image is_color y x y' x' p q :
  dt image = Float64 →
  np_pixel image y x = Ok p → np_pixel image y' x' = Ok q →
  pixel_diff image is_color y x y' x' =
    if is_color
    then Ok (fold_left (fun acc d => float64 (acc + d))
               (zip_with (fun a b =>
                  float64 (float64 (a - b) * float64 (a - b))) p q) 0%Q)
    else match p, q with
         | [a], [b] => Ok (float64 (float64 (a - b) * float64 (a - b)))
         | _, _ => Raise IndexError
         end.
Proof.
  intros Hd Hp Hq. unfold pixel_diff. rewrite Hp, Hq, Hd. cbn [res_bind].
  destruct is_color; [done|]. by destruct p as [|? [|]], q as [|? [|]].
Qed.

(** ** The engine returns on well-formed buffers *)

Lemma pixel_index_bound h w y x :
  (y < h)%nat → (x < w)%nat → (y * w + x < h * w)%nat.
Proof. intros Hy Hx. nia. Qed.

Lemma np_pixel_ok a y x :
  array_ok a → (y < height a)%nat → (x < width a)%nat →
  ∃ px, np_pixel a y x = Ok px ∧ length px = pixel_len a.
Proof.
  intros Hok Hy Hx. unfold np_pixel.
  replace (y <? height a)%nat with true by (symmetry; by apply Nat.ltb_lt).
  replace (x <? width a)%nat with true by (symmetry; by apply Nat.ltb_lt).
  cbn [andb].
  assert (length (take (pixel_len a)
            (drop ((y * width a + x) * pixel_len a) (data a))) = pixel_len a)
    as Hlen.
  { rewrite length_take, length_drop, Hok.
    pose proof (pixel_index_bound _ _ _ _ Hy Hx). nia. }
  rewrite Hlen, Nat.eqb_refl. eauto.
Qed.

Lemma pixel_diff_ok image y x y' x' :
  array_ok image →
  (y < height image)%nat → (x < width image)%nat →
  (y' < height image)%nat → (x' < width image)%nat →
  ∃ d, pixel_diff image (ndim image =? 3)%nat y x y' x' = Ok d.
Proof.
  intros Hok Hy Hx Hy' Hx'. unfold pixel_diff.
  destruct (np_pixel_ok image y x Hok Hy Hx) as (p & -> & Hp).
  destruct (np_pixel_ok image y' x' Hok Hy' Hx') as (q & -> & Hq).
  cbn [res_bind]. unfold ndim, pixel_len in *.
  destruct (channels image); cbn; [eauto|].
  destruct p as [|a [|]], q as [|b [|]]; try done. eauto.
Qed.

Lemma graph_pixel_ok image y edges x :
  array_ok image → (y < height image)%nat → (x < width image)%nat →
  Forall (edge_in (height image * width image)) edges →
  ∃ edges',
    graph_pixel image (ndim image =? 3)%nat y edges x = Ok edges' ∧
    Forall (edge_in (height image * width image)) edges'.
Proof.
  intros Hok Hy Hx Hedges. unfold graph_pixel.
  assert (Hright : ∃ edges1,
    (if Z.of_nat x <? Z.of_nat (width image) - 1
     then let? diff := pixel_diff image (ndim image =? 3)%nat y x y (x + 1)
          in Ok (edges ++ [(diff, (y * width image + x)%nat,
                            (y * width image + (x + 1))%nat)])
     else Ok edges) = Ok edges1 ∧
    Forall (edge_in (height image * width image)) edges1).
  { destruct (Z.ltb_spec (Z.of_nat x) (Z.of_nat (width image) - 1)).
    - destruct (pixel_diff_ok image y x y (x + 1) Hok) as [d ->]; try done.
      { lia. }
      cbn [res_bind]. eexists. split; [done|].
      apply Forall_app. split; [done|]. repeat constructor; cbn.
      + by apply pixel_index_bound.
      + apply pixel_index_bound; [done|lia].
    - eauto. }
  destruct Hright as (edges1 & -> & Hedges1). cbn [res_bind].
  destruct (Z.ltb_spec (Z.of_nat y) (Z.of_nat (height image) - 1)).
  - destruct (pixel_diff_ok image y x (y + 1) x Hok) as [d ->]; try done.
    { lia. }
    cbn [res_bind]. eexists. split; [done|].
    apply Forall_app. split; [done|]. repeat constructor; cbn.
    + by apply pixel_index_bound.
    + apply pixel_index_bound; [lia|done].
  - eauto.
Qed.

Lemma create_graph_ok image :
  array_ok image →
  ∃ edges, create_graph image = Ok edges ∧
           Forall (edge_in (height image * width image)) edges.
Proof.
  intros Hok. unfold create_graph.
  destruct (res_fold_inv
              (Forall (edge_in (height image * width image)))
              (graph_row image (ndim image =? 3)%nat)
              (seq 0 (height image)) []) as (edges & -> & Hedges).
  { constructor. }
  { intros edges y Hy%elem_of_seq Hedges. unfold graph_row.
    apply res_fold_inv; [done|].
    intros edges1 x Hx%elem_of_seq Hedges1.
    apply graph_pixel_ok; [done | lia | lia | done]. }
  cbn [res_bind]. eexists. split; [done|]. by rewrite sorted_perm.
Qed.

Lemma create_graph_empty image :
  height image = 0%nat ∨ width image = 0%nat → create_graph image = Ok [].
Proof.
  intros Hz. unfold create_graph.
  assert (res_fold (graph_row image (ndim image =? 3)%nat)
            (seq 0 (height image)) [] = Ok []) as ->; [|done].
  destruct Hz as [-> | Hw]; [done|].
  induction (seq 0 (height image)) as [|y l IH]; [done|].
  cbn [res_fold]. unfold graph_row at 1. rewrite Hw. cbn [seq res_fold res_bind].
  done.
Qed.

Lemma first_pass_ok k fk edges n :
  py_float k = Ok fk →
  Forall (edge_in n) edges →
  ∃ uf thr, first_pass k edges n = Ok (uf, thr) ∧
            wf uf ∧ length (parent uf) = n ∧ length thr = n.
Proof.
  intros Hk Hedges. rewrite (first_pass_fold k fk) by done.
  destruct (res_fold_inv
              (λ st : UnionFind * list Q,
                 wf st.1 ∧ length (parent st.1) = n ∧ length st.2 = n)
              (merge_edge k) edges (new n, replicate n fk))
    as ([uf thr] & Hrun & Hwf & Hlen & Hthr).
  { cbn. split_and!; [apply wf_new | by rewrite length_seq |
                      by rewrite length_replicate]. }
  { intros [uf thr] [[w u] v] Hin (Hwf & Hlen & Hthr). cbn [fst snd] in *.
    rewrite Forall_forall in Hedges. destruct (Hedges _ Hin) as [Hu Hv].
    cbn [fst snd] in *.
    destruct (merge_edge_spec k fk uf thr w u v Hk Hwf)
      as (_ & _ & _ & _ & uf' & thr' & _ & _ & _ & _ & Hm & Hwf' & Hl' & Ht' & _);
      [congruence | lia | lia |].
    exists (uf', thr'). cbn [fst snd]. split_and!; [done | done | lia | lia]. }
  by exists uf, thr.
Qed.

Lemma cleanup_edge_ok min_size uf w u v :
  wf uf → (u < length (parent uf))%nat → (v < length (parent uf))%nat →
  ∃ uf', cleanup_edge min_size uf (w, u, v) = Ok uf' ∧ wf uf' ∧
         length (parent uf') = length (parent uf).
Proof.
  intros Hwf Hu Hv. unfold cleanup_edge.
  destruct (find_spec uf u Hwf Hu) as (par1 & ru & -> & Hru & Hs1 & Hl1 & Hwf1).
  cbn [res_bind].
  assert (Hv1 : (v < length (parent (set_parent uf par1)))%nat).
  { cbn [parent set_parent]. lia. }
  destruct (find_spec _ v Hwf1 Hv1) as (par2 & rv & -> & Hrv & Hs2 & Hl2 & Hwf2).
  cbn [res_bind parent set_parent] in *.
  destruct (negb (ru =? rv)%nat); [|eexists; split_and!; [done|done|cbn; lia]].
  destruct (_ || _); [|eexists; split_and!; [done|done|cbn; lia]].
  apply Hs1 in Hrv.
  assert (Hs : same_roots (parent uf) par2) by (by eapply same_roots_trans).
  pose proof (root_of_range uf u ru Hwf Hru) as Hltu.
  pose proof (root_of_range uf v rv Hwf Hrv) as Hltv.
  destruct (union_spec (set_parent (set_parent uf par1) par2)
              (Z.of_nat ru) (Z.of_nat rv) ru rv ru rv Hwf2)
    as (uf3 & -> & Hwf3 & Hl3 & _).
  { cbn [parent set_parent]. apply np_index_nat. lia. }
  { cbn [parent set_parent]. apply np_index_nat. lia. }
  { apply Hs. by eapply root_of_idem. }
  { apply Hs. by eapply root_of_idem. }
  cbn [res_bind parent set_parent] in *.
  eexists; split_and!; [done | done | lia].
Qed.

Lemma second_pass_ok min_size edges uf :
  wf uf → Forall (edge_in (length (parent uf))) edges →
  ∃ uf', second_pass min_size edges uf = Ok uf' ∧ wf uf' ∧
         length (parent uf') = length (parent uf).
Proof.
  intros Hwf Hedges. unfold second_pass.
  destruct (0 <? min_size); [|by exists uf].
  apply (res_fold_inv
           (λ uf' : UnionFind,
              wf uf' ∧ length (parent uf') = length (parent uf))); [done|].
  intros uf1 [[w u] v] Hin (Hwf1 & Hlen1).
  rewrite Forall_forall in Hedges. destruct (Hedges _ Hin) as [Hu Hv].
  cbn [fst snd] in *.
  destruct (cleanup_edge_ok min_size uf1 w u v Hwf1) as (uf2 & ? & ? & ?);
    [lia | lia |].
  exists uf2. split_and!; [done | done | lia].
Qed.

(** ** Painting *)

Lemma np_store_ok a y x v :
  (y < height a)%nat → (x < width a)%nat → length v = pixel_len a →
  ∃ a', np_store a y x v = Ok a' ∧ same_shape a' a.
Proof.
  intros Hy Hx Hv. unfold np_store.
  replace (y <? height a)%nat with true by (symmetry; by apply Nat.ltb_lt).
  replace (x <? width a)%nat with true by (symmetry; by apply Nat.ltb_lt).
  cbn [andb]. rewrite Hv, Nat.eqb_refl. cbn [res_bind].
  eexists. split; [done|]. done.
Qed.

Lemma paint_pixel_ok rand hh ww ch out y x st :
  ch = None ∨ ch = Some 3%nat →
  (y < hh)%nat → (x < ww)%nat →
  paint_ready hh ww ch out st →
  ∃ st', paint_pixel rand (bool_decide (ch ≠ None)) ww out y st x = Ok st' ∧
         paint_ready hh ww ch out st'.
Proof.
  intros Hch Hy Hx. destruct st as [[[h uf] cc] ctr].
  intros (Hwf & Hlen & (a & Ha & Hh & Hw & Hc) & Hcc). unfold paint_pixel.
  destruct (find_spec uf (y * ww + x) Hwf)
    as (par1 & root & -> & Hroot & Hs1 & Hl1 & Hwf1).
  { rewrite Hlen. by apply pixel_index_bound. }
  cbn [res_bind].
  assert (Hstore : ∀ c,
    length c = match ch with None => 1%nat | Some n => n end →
    ∃ h', heap_store h out y x c = Ok h' ∧
      ∃ a', h' !! out = Some a' ∧ height a' = hh ∧ width a' = ww ∧
            channels a' = ch).
  { intros c Hlc. unfold heap_store, heap_get. rewrite Ha. cbn [res_bind].
    destruct (np_store_ok a y x c) as (a' & -> & Hh' & Hw' & Hc');
      [lia | lia | by rewrite Hlc; unfold pixel_len; rewrite Hc |].
    cbn [res_bind]. eexists. split; [done|]. exists a'.
    rewrite list_lookup_insert_eq by (by eapply lookup_lt_Some).
    split_and!; congruence. }
  destruct (cc !! root) as [c|] eqn:Hc0.
  - destruct (Hstore c (Hcc _ _ Hc0)) as (h' & -> & Hout).
    cbn [res_bind]. eexists. split; [done|].
    split_and!; [done | cbn; lia | done | done].
  - pose proof (randint_length rand ctr
                  (if bool_decide (ch ≠ None) then 3 else 1)) as Hrl.
    destruct (randint rand ctr _) as [c ctr']. cbn [fst] in Hrl.
    assert (length c = match ch with None => 1%nat | Some n => n end) as Hlc.
    { rewrite Hrl. by destruct Hch as [-> | ->]. }
    destruct (Hstore c Hlc) as (h' & -> & Hout).
    cbn [res_bind]. eexists. split; [done|].
    split_and!; [done | cbn; lia | done |].
    intros r c1. rewrite lookup_insert. case_decide; [|by apply Hcc].
    by intros [= <-].
Qed.

Lemma paint_ok rand hh ww ch out h uf a :
  ch = None ∨ ch = Some 3%nat →
  wf uf → length (parent uf) = (hh * ww)%nat →
  h !! out = Some a → height a = hh → width a = ww → channels a = ch →
  ∃ st', paint rand (bool_decide (ch ≠ None)) hh ww out h uf = Ok st' ∧
         paint_ready hh ww ch out st'.
Proof.
  intros Hch Hwf Hlen Ha Hh Hw Hc. unfold paint.
  apply res_fold_inv.
  - split_and!; [done | done | by exists a |]. intros r c. by rewrite lookup_empty.
  - intros st y Hy%elem_of_seq Hst. unfold paint_row.
    apply res_fold_inv; [done|].
    intros st1 x Hx%elem_of_seq Hst1.
    apply (paint_pixel_ok rand hh ww ch out y x st1 Hch); [lia | lia | done].
Qed.

Lemma paint_fails rand hh ww c out h uf a :
  c ≠ 3%nat → (0 < hh)%nat → (0 < ww)%nat →
  wf uf → length (parent uf) = (hh * ww)%nat →
  h !! out = Some a → height a = hh → width a = ww → channels a = Some c →
  paint rand true hh ww out h uf = Raise ValueError.
Proof.
  intros Hc Hh Hw Hwf Hlen Ha Hha Hwa Hca. unfold paint.
  destruct hh as [|hh]; [lia|]. destruct ww as [|ww]; [lia|].
  cbn [seq res_fold]. unfold paint_row at 1. cbn [seq res_fold].
  unfold paint_pixel at 1.
  destruct (find_spec uf (0 * S ww + 0) Hwf) as (par1 & root & -> & _).
  { rewrite Hlen. lia. }
  cbn [res_bind]. rewrite lookup_empty.
  unfold randint. cbn [seq fmap list_fmap].
  unfold heap_store, heap_get. rewrite Ha. cbn [res_bind].
  unfold np_store, pixel_len. rewrite Hha, Hwa, Hca. cbn [Nat.ltb Nat.leb andb length].
  replace (3 =? c)%nat with false by (symmetry; apply Nat.eqb_neq; lia).
  done.
Qed.

Lemma res_fold_skip {A S} (body : S → A → res S) l s :
  (∀ s a, a ∈ l → body s a = Ok s) → res_fold body l s = Ok s.
Proof.
  induction l as [|a l IH]; intros Hbody; [done|].
  cbn [res_fold]. rewrite Hbody by (by left). cbn [res_bind].
  apply IH. intros s' b Hb. apply Hbody. by right.
Qed.

Lemma paint_nothing rand is_color hh ww out h uf :
  hh = 0%nat ∨ ww = 0%nat →
  paint rand is_color hh ww out h uf = Ok (h, uf, ∅, 0%nat).
Proof.
  intros [-> | ->]; [done|]. unfold paint. apply res_fold_skip.
  intros st y _. done.
Qed.

Lemma is_color_channels img :
  (ndim img =? 3)%nat = bool_decide (channels img ≠ None).
Proof. unfold ndim. by destruct (channels img). Qed.

(** ** What the entry point does with malformed input *)

Lemma lookup_output (h : heap) (sm z : ndarray) :
  ((h ++ [sm]) ++ [z]) !! S (length h) = Some z.
Proof.
  rewrite lookup_app_r; rewrite length_app; cbn [length]; [|lia].
  by replace (S (length h) - (length h + 1))%nat with 0%nat by lia.
Qed.

(** C3 (amended).  The entry point validates nothing: neither the shape of
    the buffer nor [k], whatever its sign.  For a buffer of element type
    uint8, int64 or float64, a smoothing step that keeps the shape of the
    buffer, and a number [k]:
    - if [float(k)] overflows, the call raises [OverflowError], and only
      after the graph has been built;
    - otherwise, on a buffer with zero rows or zero columns the call returns
      normally, with zero segments and an empty forest;
    - otherwise, on a buffer without a channel axis or with exactly three
      channels the call returns a result, with a forest of [height * width]
      elements;
    - otherwise, on a buffer with at least one row and one column whose
      channel axis has any other length, zero included, the call raises
      [ValueError], and only when the first pixel is coloured: the graph has
      been built and both passes have run. *)
Theorem engine_validates_nothing gaussian h image img k min_size sigma rand :
  (∀ a s c, array_ok a →
     array_ok (gaussian a s c) ∧ height (gaussian a s c) = height a ∧
     width (gaussian a s c) = width a) →
  h !! image = Some img → array_ok img →
  (py_float k = Raise OverflowError →
     felzenszwalb_huttenlocher gaussian h image k min_size sigma rand =
       Raise OverflowError ∧
     ∃ edges, create_graph (smoothed_of gaussian img sigma) = Ok edges) ∧
  (py_float k = Ok (float64 k) →
     (height img = 0%nat ∨ width img = 0%nat →
        felzenszwalb_huttenlocher gaussian h image k min_size sigma rand =
          Ok ((h ++ [smoothed_of gaussian img sigma]) ++ [zeros_like img],
              (S (length h), 0, new 0))) ∧
     (channels img = None ∨ channels img = Some 3%nat →
        ∃ h' uf,
          felzenszwalb_huttenlocher gaussian h image k min_size sigma rand =
            Ok (h', (S (length h), num_sets uf, uf)) ∧
          wf uf ∧ length (parent uf) = (height img * width img)%nat) ∧
     (∀ c, channels img = Some c → c ≠ 3%nat →
        (0 < height img)%nat → (0 < width img)%nat →
        felzenszwalb_huttenlocher gaussian h image k min_size sigma rand =
          Raise ValueError ∧
        ∃ edges uf thr uf',
          create_graph (smoothed_of gaussian img sigma) = Ok edges ∧
          first_pass k edges (height img * width img) = Ok (uf, thr) ∧
          second_pass min_size edges uf = Ok uf')) ∧
  (py_float k = Raise OverflowError ∨ py_float k = Ok (float64 k)).
Proof.
  intros Hg Himg Hok.
  set (sm := smoothed_of gaussian img sigma).
  assert (Hsm : array_ok sm ∧ height sm = height img ∧ width sm = width img).
  { unfold sm, smoothed_of. destruct (negb _); [by apply Hg | done]. }
  destruct Hsm as (Hsm_ok & Hsm_h & Hsm_w).
  rewrite (engine_unfold gaussian h image img k min_size sigma rand Himg).
  cbv zeta. fold sm.
  destruct (create_graph_ok sm Hsm_ok) as (edges & Hcg & Hedges).
  rewrite Hsm_h, Hsm_w in Hedges.
  split_and!.
  { intros Hk. split; [|by exists edges].
    rewrite Hcg. cbn [res_bind]. by rewrite (first_pass_raise k _ _ _ Hk). }
  2:{ unfold py_float. destruct (Qle_bool _ _); auto. }
  intros Hk.
  assert (Hpasses : ∃ uf thr uf',
    first_pass k edges (height img * width img) = Ok (uf, thr) ∧
    second_pass min_size edges uf = Ok uf' ∧
    wf uf' ∧ length (parent uf') = (height img * width img)%nat).
  { destruct (first_pass_ok k _ edges _ Hk Hedges)
      as (uf & thr & Hfp & Hwf & Hl & _).
    destruct (second_pass_ok min_size edges uf Hwf) as (uf' & Hsp & Hwf' & Hl').
    { by rewrite Hl. }
    exists uf, thr, uf'. split_and!; try done. lia. }
  split_and!.
  - intros Hzero. clear Hpasses Hcg Hedges.
    rewrite create_graph_empty by (by rewrite Hsm_h, Hsm_w).
    cbn [res_bind]. rewrite (first_pass_fold k _ _ _ Hk).
    cbn [res_fold res_bind].
    assert (second_pass min_size [] (new (height img * width img))
            = Ok (new (height img * width img))) as ->.
    { unfold second_pass. by destruct (0 <? min_size). }
    cbn [res_bind]. rewrite paint_nothing by done. cbn [res_bind].
    assert (height img * width img = 0)%nat as -> by (destruct Hzero; lia).
    done.
  - intros Hch.
    destruct Hpasses as (uf & thr & uf' & Hfp & Hsp & Hwf' & Hl').
    rewrite Hcg. cbn [res_bind]. rewrite Hfp. cbn [res_bind].
    rewrite Hsp. cbn [res_bind]. rewrite is_color_channels.
    destruct (paint_ok rand (height img) (width img) (channels img)
                (S (length h)) ((h ++ [sm]) ++ [zeros_like img]) uf'
                (zeros_like img) Hch Hwf' Hl')
      as ([[[h' uf3] cc] ctr] & -> & Hwf3 & Hl3 & _);
      [apply lookup_output | done..|].
    cbn [res_bind]. by exists h', uf3.
  - intros c Hc Hc3 Hh Hw.
    destruct Hpasses as (uf & thr & uf' & Hfp & Hsp & Hwf' & Hl').
    split; [|by exists edges, uf, thr, uf'].
    rewrite Hcg. cbn [res_bind]. rewrite Hfp. cbn [res_bind].
    rewrite Hsp. cbn [res_bind].
    replace (ndim img =? 3)%nat with true by (unfold ndim; by rewrite Hc).
    rewrite (paint_fails rand (height img) (width img) c (S (length h))
               _ uf' (zeros_like img)); try done.
    apply lookup_output.
Qed.

Lemma engine_validates_nothing_witness :
  let gaussian := fun (a : ndarray) (_ : Q) (_ : bool) => a in
  let img := mkArray UInt8 1 2 (Some 5%nat)
               [1; 2; 3; 4; 5; 5; 4; 3; 2; 1]%Q in
  let h := [img] in
  (∀ a s c, array_ok a →
     array_ok (gaussian a s c) ∧ height (gaussian a s c) = height a ∧
     width (gaussian a s c) = width a) ∧
  h !! 0%nat = Some img ∧ array_ok img ∧
  py_float (-5) = Ok (float64 (-5)) ∧
  channels img = Some 5%nat ∧ 5%nat ≠ 3%nat ∧
  (0 < height img)%nat ∧ (0 < width img)%nat ∧
  felzenszwalb_huttenlocher gaussian h 0%nat (-5) 10 0 (fun _ => 0) =
    Raise ValueError ∧
  ∃ edges uf thr uf',
    create_graph (smoothed_of gaussian img 0) = Ok edges ∧
    first_pass (-5) edges (height img * width img) = Ok (uf, thr) ∧
    second_pass 10 edges uf = Ok uf'.
Proof.
  intros gaussian img h.
  assert (Hg : ∀ a s c, array_ok a →
     array_ok (gaussian a s c) ∧ height (gaussian a s c) = height a ∧
     width (gaussian a s c) = width a) by (intros a s c Ha; done).
  assert (Himg : h !! 0%nat = Some img) by reflexivity.
  assert (Hok : array_ok img) by reflexivity.
  assert (Hk : py_float (-5) = Ok (float64 (-5))) by (vm_compute; reflexivity).
  assert (Hc : channels img = Some 5%nat) by reflexivity.
  assert (Hc3 : 5%nat ≠ 3%nat) by lia.
  assert (Hh : (0 < height img)%nat) by (simpl; lia).
  assert (Hw : (0 < width img)%nat) by (simpl; lia).
  split; [exact Hg|]. split; [exact Himg|]. split; [exact Hok|].
  split; [exact Hk|]. split; [exact Hc|]. split; [exact Hc3|].
  split; [exact Hh|]. split; [exact Hw|].
  exact (proj2 (proj2 (proj1 (proj2
           (engine_validates_nothing gaussian h 0%nat img (-5) 10 0
              (fun _ => 0) Hg Himg Hok)) Hk)) 5%nat Hc Hc3 Hh Hw).
Defined.

(** The cases on small buffers: [k] too large for a float; no rows; no
    channel axis; three channels; five channels; a channel axis of length
    zero. *)
Example engine_shape_cases :
  let gaussian := fun (a : ndarray) (_ : Q) (_ : bool) => a in
  let run img k :=
    res_map (fun r => snd (fst (snd r)))
      (felzenszwalb_huttenlocher gaussian [img] 0%nat k 10 0 (fun _ => 0)) in
  run (mkArray UInt8 1 2 None [3; 200]%Q) (inject_Z (2 ^ 1024)) =
    Raise OverflowError ∧
  run (mkArray UInt8 0 4 (Some 5%nat) []) 50%Q = Ok 0 ∧
  run (mkArray UInt8 1 2 None [3; 200]%Q) 50%Q = Ok 1 ∧
  run (mkArray UInt8 1 2 (Some 3%nat) [1; 2; 3; 3; 2; 1]%Q) 50%Q = Ok 1 ∧
  run (mkArray UInt8 1 2 (Some 5%nat) [1; 2; 3; 4; 5; 5; 4; 3; 2; 1]%Q) 50%Q =
    Raise ValueError ∧
  run (mkArray UInt8 2 2 (Some 0%nat) []) 50%Q = Raise ValueError.
Proof. cbv zeta. repeat split; vm_compute; reflexivity. Qed.

(** C3, as stated, fails: an empty buffer and a non-positive [k] are both
    accepted, and the call returns a result. *)
Lemma no_validation_counterexample :
  let gaussian := fun (a : ndarray) (_ : Q) (_ : bool) => a in
  let empty := mkArray UInt8 0 0 None [] in
  let img := mkArray UInt8 1 2 None [3; 200]%Q in
  felzenszwalb_huttenlocher gaussian [empty] 0%nat 50 10 0 (fun _ => 0) =
    Ok ([empty; empty; empty], (2%nat, 0, new 0)) ∧
  res_map partition_of
    (felzenszwalb_huttenlocher gaussian [img] 0%nat 0 10 0 (fun _ => 0)) =
    Ok (2%nat, 1, mkUnionFind [0; 0]%nat [1; 0]%nat 1) ∧
  res_map partition_of
    (felzenszwalb_huttenlocher gaussian [img] 0%nat (-5) 0 0 (fun _ => 0)) =
    Ok (2%nat, 2, new 2) ∧
  ¬ (∀ k, (k <= 0)%Q →
       is_ok (felzenszwalb_huttenlocher gaussian [img] 0%nat k 10 0
                (fun _ => 0)) = false).
Proof.
  cbv zeta. split_and!; [vm_compute; reflexivity..|].
  intros H. specialize (H 0%Q (Qle_refl 0)). vm_compute in H. discriminate.
Qed.

(** * Further properties of the forest *)

(** ** Sets *)

Lemma same_set_root par x y rx ry :
  root_of par x rx → root_of par y ry → same_set par x y ↔ rx = ry.
Proof.
  intros Hx Hy. split.
  - intros (r & Hxr & Hyr).
    rewrite (root_of_functional _ _ _ _ Hx Hxr).
    by rewrite (root_of_functional _ _ _ _ Hy Hyr).
  - intros ->. by exists ry.
Qed.

Lemma same_set_refl uf x :
  wf uf → (x < length (parent uf))%nat → same_set (parent uf) x x.
Proof. intros Hwf Hx. destruct (root_exists uf x Hwf Hx) as [r Hr]. by exists r. Qed.

Lemma same_set_sym par x y : same_set par x y → same_set par y x.
Proof. intros (r & ? & ?). by exists r. Qed.

Lemma same_set_trans par x y z :
  same_set par x y → same_set par y z → same_set par x z.
Proof.
  intros (r & Hx & Hy) (r' & Hy' & Hz).
  rewrite (root_of_functional _ _ _ _ Hy' Hy) in Hz. by exists r.
Qed.

Lemma same_roots_same_set par par' x y :
  same_roots par par' → same_set par x y ↔ same_set par' x y.
Proof.
  intros Hs. split; intros (r & Hx & Hy); exists r; split; by apply Hs.
Qed.

Lemma coarsens_refl par : coarsens par par.
Proof. intros x y Hxy. exact Hxy. Qed.

Lemma coarsens_trans p1 p2 p3 :
  coarsens p1 p2 → coarsens p2 p3 → coarsens p1 p3.
Proof. intros H1 H2 x y Hxy. by apply H2, H1. Qed.

Lemma same_roots_coarsens par par' : same_roots par par' → coarsens par par'.
Proof. intros Hs x y Hxy. by apply (same_roots_same_set par par'). Qed.

(** X1.  On a forest built through the interface and for in-range [i] and
    [j], [union(i, j)] merges the set of [i] with the set of [j] and nothing
    else: afterwards two elements are in the same set exactly when they were
    before, or when each of them was in the set of [i] or in the set of
    [j]. *)
Theorem union_merges_two_sets uf i j :
  built uf → in_range uf i → in_range uf j →
  ∃ uf',
    union uf i j = Ok (uf', PyNone) ∧
    length (parent uf') = length (parent uf) ∧
    ∀ x y, (x < length (parent uf))%nat → (y < length (parent uf))%nat →
      same_set (parent uf') x y ↔
        same_set (parent uf) x y ∨
        ((same_set (parent uf) x (Z.to_nat i) ∨
          same_set (parent uf) x (Z.to_nat j)) ∧
         (same_set (parent uf) y (Z.to_nat i) ∨
          same_set (parent uf) y (Z.to_nat j))).
Proof.
  intros Hwf%built_wf Hi Hj.
  destruct (find_in_range uf i Hwf Hi) as (_ & ri & _ & Hri & _).
  destruct (find_in_range uf j Hwf Hj) as (_ & rj & _ & Hrj & _).
  destruct (union_spec uf i j _ _ ri rj Hwf (in_range_index _ _ Hi)
              (in_range_index _ _ Hj) Hri Hrj)
    as (uf' & Hu & Hwf' & Hlen & Hcases).
  exists uf'. split_and!; [done..|]. intros x y Hx Hy.
  destruct (root_exists uf x Hwf Hx) as [rx Hrx].
  destruct (root_exists uf y Hwf Hy) as [ry Hry].
  rewrite (same_set_root _ x y rx ry Hrx Hry).
  rewrite (same_set_root _ x _ rx ri Hrx Hri).
  rewrite (same_set_root _ x _ rx rj Hrx Hrj).
  rewrite (same_set_root _ y _ ry ri Hry Hri).
  rewrite (same_set_root _ y _ ry rj Hry Hrj).
  destruct Hcases as [(-> & _ & _ & Hs)|(Hne & _ & a & b & Hab & Hmap)].
  - rewrite <- (same_roots_same_set _ _ x y Hs).
    rewrite (same_set_root _ x y rx ry Hrx Hry). split; [by left|].
    intros [?|[[?|?] [?|?]]]; congruence.
  - rewrite (same_set_root _ x y _ _ (Hmap _ _ Hrx) (Hmap _ _ Hry)).
    unfold merged. destruct Hab as [[-> ->]|[-> ->]];
      repeat case_decide; intuition congruence.
Qed.

Lemma union_merges_two_sets_witness :
  built (new 4) ∧ in_range (new 4) 1 ∧ in_range (new 4) 2 ∧
  ∃ uf',
    union (new 4) 1 2 = Ok (uf', PyNone) ∧
    length (parent uf') = length (parent (new 4)) ∧
    ∀ x y, (x < length (parent (new 4)))%nat →
           (y < length (parent (new 4)))%nat →
      same_set (parent uf') x y ↔
        same_set (parent (new 4)) x y ∨
        ((same_set (parent (new 4)) x (Z.to_nat 1) ∨
          same_set (parent (new 4)) x (Z.to_nat 2)) ∧
         (same_set (parent (new 4)) y (Z.to_nat 1) ∨
          same_set (parent (new 4)) y (Z.to_nat 2))).
Proof.
  assert (Hb : built (new 4)) by apply built_new.
  assert (H1 : in_range (new 4) 1) by (unfold in_range; simpl; lia).
  assert (H2 : in_range (new 4) 2) by (unfold in_range; simpl; lia).
  split_and!; [exact Hb | exact H1 | exact H2 |].
  exact (union_merges_two_sets (new 4) 1 2 Hb H1 H2).
Defined.

(** ** Path compression *)

Lemma on_path_root par i r : root_of par i r → on_path par i r.
Proof.
  induction 1 as [i Hi|i p r Hp Hne _ IH].
  - constructor. by eapply lookup_lt_Some.
  - by econstructor.
Qed.

Lemma find_rec_path fuel : ∀ uf i uf' r,
  wf uf → (i < length (parent uf))%nat →
  find_rec fuel uf (Z.of_nat i) = Ok (uf', r) →
  rank uf' = rank uf ∧ num_sets uf' = num_sets uf ∧
  length (parent uf') = length (parent uf) ∧
  (∀ j, on_path (parent uf) i j → parent uf' !! j = Some r) ∧
  (∀ j, ¬ on_path (parent uf) i j → parent uf' !! j = parent uf !! j).
Proof.
  induction fuel as [|fuel IH]; intros uf i uf' r Hwf Hi Hf; [done|].
  destruct (lookup_lt_is_Some_2 _ _ Hi) as [p Hp].
  cbn [find_rec] in Hf. rewrite (np_get_nat _ _ _ Hp) in Hf.
  cbn [res_bind] in Hf.
  destruct (decide (p = i)) as [->|Hne].
  - rewrite Z.eqb_refl in Hf. cbn [negb res_bind] in Hf.
    rewrite (np_get_nat _ _ _ Hp) in Hf. cbn [res_bind] in Hf.
    injection Hf as <- <-. split_and!; try done.
    intros j Hj. inversion Hj; subst; [done | congruence].
  - replace (Z.of_nat p =? Z.of_nat i) with false in Hf
      by (symmetry; apply Z.eqb_neq; lia).
    cbn [negb] in Hf.
    destruct (find_rec fuel uf (Z.of_nat p)) as [[uf1 r1]|] eqn:Hrec; [|done].
    cbn [res_bind] in Hf.
    destruct (IH uf p uf1 r1 Hwf) as (Hrk & Hns & Hlen & Hon & Hoff);
      [by eapply wf_range | done |].
    rewrite np_set_nat in Hf by lia. cbn [res_bind parent set_parent] in Hf.
    rewrite (np_get_nat _ i r1) in Hf by (apply list_lookup_insert_eq; lia).
    cbn [res_bind] in Hf. injection Hf as <- <-.
    cbn [parent rank num_sets set_parent]. rewrite length_insert.
    split_and!; try done.
    + intros j Hj. destruct (decide (i = j)) as [<-|Hij].
      * apply list_lookup_insert_eq. lia.
      * rewrite list_lookup_insert_ne by done. apply Hon.
        inversion Hj; subst; [done|]. congruence.
    + intros j Hj. assert (i ≠ j) by (intros <-; apply Hj; by constructor).
      rewrite list_lookup_insert_ne by done. apply Hoff.
      intros Hpj. apply Hj. by econstructor.
Qed.

(** X2.  [find(i)] compresses the path it walks: on a forest built through
    the interface and for in-range [i], every element visited on the way
    from [i] to its root [r] has [r] as its parent afterwards, every other
    parent entry, the ranks and [num_sets] are as before, and a second
    [find(i)] returns [r] again without changing anything. *)
Theorem find_compresses_path uf i :
  built uf → in_range uf i →
  ∃ uf' r,
    find uf i = Ok (uf', r) ∧
    (∀ j, on_path (parent uf) (Z.to_nat i) j → parent uf' !! j = Some r) ∧
    (∀ j, ¬ on_path (parent uf) (Z.to_nat i) j →
          parent uf' !! j = parent uf !! j) ∧
    rank uf' = rank uf ∧ num_sets uf' = num_sets uf ∧
    find uf' i = Ok (uf', r).
Proof.
  intros Hwf%built_wf Hi.
  destruct (find_in_range uf i Hwf Hi)
    as (uf' & r & Hf & Hr & Hwf' & Hs & Hlen & Hns).
  assert (Hlt : (Z.to_nat i < length (parent uf))%nat)
    by (unfold in_range in Hi; lia).
  assert (Hf' : find_rec (S (length (parent uf))) uf (Z.of_nat (Z.to_nat i))
                = Ok (uf', r)).
  { rewrite Z2Nat.id by apply Hi. exact Hf. }
  destruct (find_rec_path _ uf _ uf' r Hwf Hlt Hf')
    as (Hrk & _ & _ & Hon & Hoff).
  exists uf', r. split_and!; try done.
  assert (Hir : parent uf' !! Z.to_nat i = Some r).
  { apply Hon. by constructor. }
  assert (Hrr : parent uf' !! r = Some r).
  { apply Hon. by apply on_path_root. }
  rewrite <- (Z2Nat.id i) by apply Hi.
  unfold find. rewrite Hlen. cbn [find_rec].
  rewrite (np_get_nat _ _ _ Hir). cbn [res_bind].
  destruct (decide (r = Z.to_nat i)) as [->|Hne].
  - rewrite Z.eqb_refl. cbn [negb res_bind].
    by rewrite (np_get_nat _ _ _ Hir).
  - replace (Z.of_nat r =? Z.of_nat (Z.to_nat i)) with false
      by (symmetry; apply Z.eqb_neq; lia).
    cbn [negb]. destruct (length (parent uf)) as [|m] eqn:Hm; [lia|].
    cbn [find_rec]. rewrite (np_get_nat _ _ _ Hrr). cbn [res_bind].
    rewrite Z.eqb_refl. cbn [negb res_bind].
    rewrite (np_get_nat _ _ _ Hrr). cbn [res_bind].
    rewrite np_set_nat by lia. cbn [res_bind].
    rewrite list_insert_id by done. rewrite set_parent_id.
    by rewrite (np_get_nat _ _ _ Hir).
Qed.

Lemma built_two_levels :
  built (mkUnionFind [0; 0; 0; 2]%nat [2; 0; 1; 0]%nat 1).
Proof.
  eapply (built_union _ 0 2 _ PyNone).
  - eapply (built_union _ 2 3 _ PyNone).
    + eapply (built_union _ 0 1 _ PyNone); [apply (built_new 4)|].
      vm_compute. reflexivity.
    + vm_compute. reflexivity.
  - vm_compute. reflexivity.
Defined.

Lemma find_compresses_path_witness :
  let uf := mkUnionFind [0; 0; 0; 2]%nat [2; 0; 1; 0]%nat 1 in
  built uf ∧ in_range uf 3 ∧
  ∃ uf' r,
    find uf 3 = Ok (uf', r) ∧
    (∀ j, on_path (parent uf) (Z.to_nat 3) j → parent uf' !! j = Some r) ∧
    (∀ j, ¬ on_path (parent uf) (Z.to_nat 3) j →
          parent uf' !! j = parent uf !! j) ∧
    rank uf' = rank uf ∧ num_sets uf' = num_sets uf ∧
    find uf' 3 = Ok (uf', r).
Proof.
  intros uf.
  assert (Hi : in_range uf 3) by (unfold in_range; simpl; lia).
  split_and!; [exact built_two_levels | exact Hi |].
  exact (find_compresses_path uf 3 built_two_levels Hi).
Defined.

(** ** Union by rank *)

(** X3.  [union(i, j)] links by rank: with [ri] and [rj] the distinct roots
    of in-range [i] and [j] in a forest built through the interface, the root
    of strictly lower rank is hung under the other; on equal ranks the root
    of [j] is hung under the root of [i], whose rank grows by one.  Nothing
    else changes beyond the compressions of the two [find] calls, and the
    surviving root becomes the root of every element of the two sets, with a
    rank strictly above that of the root it absorbed. *)
Theorem union_by_rank uf i j :
  built uf → in_range uf i → in_range uf j →
  ∃ ufi ri ufj rj,
    find uf i = Ok (ufi, ri) ∧ find ufi j = Ok (ufj, rj) ∧
    (ri ≠ rj →
     ∃ uf', union uf i j = Ok (uf', PyNone) ∧
       let ki := rank uf !!! ri in
       let kj := rank uf !!! rj in
       let winner := if (ki <? kj)%nat then rj else ri in
       let loser := if (ki <? kj)%nat then ri else rj in
       parent uf' = <[loser := winner]> (parent ufj) ∧
       rank uf' = (if (ki =? kj)%nat then <[ri := (ki + 1)%nat]> (rank uf)
                   else rank uf) ∧
       num_sets uf' = num_sets uf - 1 ∧
       (rank uf' !!! loser < rank uf' !!! winner)%nat ∧
       ∀ x, same_set (parent uf) x (Z.to_nat i) ∨
            same_set (parent uf) x (Z.to_nat j) →
            root_of (parent uf') x winner).
Proof.
  intros Hwf%built_wf Hi Hj.
  pose proof (in_range_index _ _ Hi) as Hki.
  pose proof (in_range_index _ _ Hj) as Hkj.
  destruct (find_index uf i _ Hwf Hki)
    as (par1 & ri & Hf1 & Hri & Hs1 & Hl1 & Hwf1).
  assert (Hkj1 : np_index (length (parent (set_parent uf par1))) j
                 = Ok (Z.to_nat j)).
  { cbn [parent set_parent]. by rewrite Hl1. }
  destruct (find_index (set_parent uf par1) j _ Hwf1 Hkj1)
    as (par2 & rj & Hf2 & Hrj & Hs2 & Hl2 & Hwf2).
  cbn [parent set_parent] in *. apply Hs1 in Hrj.
  exists (set_parent uf par1), ri, (set_parent (set_parent uf par1) par2), rj.
  split_and!; [done..|]. intros Hne.
  assert (Hs : same_roots (parent uf) par2) by (by eapply same_roots_trans).
  pose proof (wf_len uf Hwf) as Hlen.
  assert (Ha : par2 !! ri = Some ri).
  { eapply root_of_is_root, Hs. by eapply root_of_idem. }
  assert (Hb : par2 !! rj = Some rj).
  { eapply root_of_is_root, Hs. by eapply root_of_idem. }
  assert (Hlta : (ri < length par2)%nat) by (by eapply lookup_lt_Some).
  assert (Hltb : (rj < length par2)%nat) by (by eapply lookup_lt_Some).
  assert (Hsets : ∀ a b x,
    ((a = ri ∧ b = rj) ∨ (a = rj ∧ b = ri)) →
    same_set (parent uf) x (Z.to_nat i) ∨ same_set (parent uf) x (Z.to_nat j) →
    root_of (<[a := b]> par2) x b).
  { intros a b x Hab Hx.
    assert (∃ rx, root_of (parent uf) x rx ∧ (rx = ri ∨ rx = rj))
      as (rx & Hrx & Hor).
    { destruct Hx as [(r & Hx & Hr)|(r & Hx & Hr)]; exists r; split; try done;
        [left|right]; by eapply root_of_functional. }
    apply Hs in Hrx.
    assert (a ≠ b) by (destruct Hab as [[-> ->]|[-> ->]]; congruence).
    assert (par2 !! a = Some a ∧ par2 !! b = Some b) as [Haa Hbb]
      by (destruct Hab as [[-> ->]|[-> ->]]; done).
    pose proof (link_roots par2 a b x rx Haa Hbb H Hrx) as Hl.
    replace (merged a b rx) with b in Hl; [done|].
    unfold merged. case_decide; [done|].
    destruct Hab as [[-> ->]|[-> ->]]; destruct Hor; congruence. }
  unfold union. rewrite Hf1. cbn [res_bind]. rewrite Hf2. cbn [res_bind].
  replace (ri =? rj)%nat with false by (symmetry; by apply Nat.eqb_neq).
  cbn [negb rank set_parent parent num_sets].
  rewrite (np_get_nat _ ri (rank uf !!! ri))
    by (apply list_lookup_lookup_total_lt; lia).
  rewrite (np_get_nat _ rj (rank uf !!! rj))
    by (apply list_lookup_lookup_total_lt; lia).
  cbn [res_bind].
  destruct (Nat.ltb_spec (rank uf !!! ri) (rank uf !!! rj)) as [Hlt|Hge];
    [|destruct (Nat.ltb_spec (rank uf !!! rj) (rank uf !!! ri)) as [Hlt|Hge']].
  - rewrite np_set_nat by done. cbn [res_bind]. eexists. split; [done|].
    cbn [parent rank num_sets set_parent set_num_sets].
    replace (rank uf !!! ri =? rank uf !!! rj)%nat with false
      by (symmetry; apply Nat.eqb_neq; lia).
    split_and!; try done. intros x Hx. apply Hsets; [by left | done].
  - rewrite np_set_nat by done. cbn [res_bind]. eexists. split; [done|].
    cbn [parent rank num_sets set_parent set_num_sets].
    replace (rank uf !!! ri =? rank uf !!! rj)%nat with false
      by (symmetry; apply Nat.eqb_neq; lia).
    split_and!; try done. intros x Hx. apply Hsets; [by right | done].
  - rewrite np_set_nat by done. cbn [res_bind rank set_parent].
    rewrite np_set_nat by lia. cbn [res_bind]. eexists. split; [done|].
    cbn [parent rank num_sets set_parent set_rank set_num_sets].
    replace (rank uf !!! ri =? rank uf !!! rj)%nat with true
      by (symmetry; apply Nat.eqb_eq; lia).
    split_and!; try done.
    + rewrite list_lookup_total_insert_eq by lia.
      rewrite list_lookup_total_insert_ne by done. lia.
    + intros x Hx. apply Hsets; [by right | done].
Qed.

Lemma union_by_rank_witness :
  let uf := mkUnionFind [0; 0; 0; 2; 4]%nat [2; 0; 1; 0; 0]%nat 2 in
  built uf ∧ in_range uf 4 ∧ in_range uf 3 ∧
  ∃ ufi ri ufj rj,
    find uf 4 = Ok (ufi, ri) ∧ find ufi 3 = Ok (ufj, rj) ∧
    (ri ≠ rj →
     ∃ uf', union uf 4 3 = Ok (uf', PyNone) ∧
       let ki := rank uf !!! ri in
       let kj := rank uf !!! rj in
       let winner := if (ki <? kj)%nat then rj else ri in
       let loser := if (ki <? kj)%nat then ri else rj in
       parent uf' = <[loser := winner]> (parent ufj) ∧
       rank uf' = (if (ki =? kj)%nat then <[ri := (ki + 1)%nat]> (rank uf)
                   else rank uf) ∧
       num_sets uf' = num_sets uf - 1 ∧
       (rank uf' !!! loser < rank uf' !!! winner)%nat ∧
       ∀ x, same_set (parent uf) x (Z.to_nat 4) ∨
            same_set (parent uf) x (Z.to_nat 3) →
            root_of (parent uf') x winner).
Proof.
  intros uf.
  assert (Hb : built uf).
  { eapply (built_union _ 0 2 _ PyNone).
    - eapply (built_union _ 2 3 _ PyNone).
      + eapply (built_union _ 0 1 _ PyNone); [apply (built_new 5)|].
        vm_compute. reflexivity.
      + vm_compute. reflexivity.
    - vm_compute. reflexivity. }
  assert (H4 : in_range uf 4) by (unfold in_range; simpl; lia).
  assert (H3 : in_range uf 3) by (unfold in_range; simpl; lia).
  split_and!; [exact Hb | exact H4 | exact H3 |].
  exact (union_by_rank uf 4 3 Hb H4 H3).
Defined.

(** ** What every forest keeps *)

(** X4.  Whatever sequence of [find] and [union] calls a forest has gone
    through, its two arrays have the same length, every parent entry is an
    index of the forest, the rank grows strictly from an element to its
    parent (so the parent links have no cycle), no rank exceeds the number of
    merges made, and [num_sets] is the number of elements that are their own
    parent; on a non-empty forest it lies between 1 and the size. *)
Theorem forest_invariants uf :
  built uf →
  length (rank uf) = length (parent uf) ∧
  (∀ i p, parent uf !! i = Some p → (p < length (parent uf))%nat) ∧
  (∀ i p, parent uf !! i = Some p → p ≠ i →
          (rank uf !!! i < rank uf !!! p)%nat) ∧
  (∀ i, Z.of_nat (rank uf !!! i) ≤ Z.of_nat (length (parent uf)) - num_sets uf) ∧
  num_sets uf = Z.of_nat (count_roots (parent uf)) ∧
  0 ≤ num_sets uf ≤ Z.of_nat (length (parent uf)) ∧
  ((0 < length (parent uf))%nat → 1 ≤ num_sets uf) ∧
  (∀ i, (i < length (parent uf))%nat → ∃ r, root_of (parent uf) i r).
Proof.
  intros Hwf%built_wf. pose proof (wf_count uf Hwf) as Hc.
  split_and!; try apply Hwf.
  - intros i. pose proof (wf_bound uf Hwf i). lia.
  - lia.
  - pose proof (wf_bound uf Hwf 0). lia.
  - intros Hn. pose proof (count_roots_pos uf Hwf Hn). lia.
  - intros i Hi. by apply root_exists.
Qed.

Lemma forest_invariants_witness :
  let uf := mkUnionFind [0; 0; 0; 2]%nat [2; 0; 1; 0]%nat 1 in
  built uf ∧
  length (rank uf) = length (parent uf) ∧
  (∀ i p, parent uf !! i = Some p → (p < length (parent uf))%nat) ∧
  (∀ i p, parent uf !! i = Some p → p ≠ i →
          (rank uf !!! i < rank uf !!! p)%nat) ∧
  (∀ i, Z.of_nat (rank uf !!! i) ≤ Z.of_nat (length (parent uf)) - num_sets uf) ∧
  num_sets uf = Z.of_nat (count_roots (parent uf)) ∧
  0 ≤ num_sets uf ≤ Z.of_nat (length (parent uf)) ∧
  ((0 < length (parent uf))%nat → 1 ≤ num_sets uf) ∧
  (∀ i, (i < length (parent uf))%nat → ∃ r, root_of (parent uf) i r).
Proof.
  intros uf. split; [exact built_two_levels|].
  exact (forest_invariants uf built_two_levels).
Defined.

(** ** The size table *)

Lemma ascending_NoDup l : StronglySorted lt l → NoDup l.
Proof.
  induction 1 as [|x l _ IH Hx]; constructor; [|done].
  intros Hin. rewrite Forall_forall in Hx. specialize (Hx x Hin). lia.
Qed.

Lemma count_eq_cons u x l :
  count_eq u (x :: l) = ((if decide (x = u) then 1 else 0) + count_eq u l)%nat.
Proof. unfold count_eq. rewrite filter_cons. by case_decide. Qed.

Lemma sum_indicator (x : nat) (us : list nat) :
  NoDup us → x ∈ us →
  sum_list_with (λ u, if decide (x = u) then 1%nat else 0%nat) us = 1%nat.
Proof.
  induction 1 as [|u us Hu Hnd IH]; intros Hin; [by apply elem_of_nil in Hin|].
  cbn [sum_list_with]. apply elem_of_cons in Hin as [->|Hin].
  - rewrite decide_True by done.
    assert (sum_list_with (λ v, if decide (u = v) then 1%nat else 0%nat) us
            = 0%nat) as ->; [|done].
    clear IH Hnd. induction us as [|v us IH]; [done|]. cbn [sum_list_with].
    rewrite decide_False by (intros ->; apply Hu; by left).
    rewrite IH; [done|]. intros ?. apply Hu. by right.
  - rewrite decide_False by (intros Heq; subst; done). by rewrite IH.
Qed.

Lemma sum_counts (us l : list nat) :
  NoDup us → (∀ x, x ∈ l → x ∈ us) →
  sum_list_with (λ u, count_eq u l) us = length l.
Proof.
  intros Hnd. induction l as [|x l IH]; intros Hin.
  - clear. induction us as [|u us IHus]; [done|]. cbn [sum_list_with].
    by rewrite IHus.
  - assert (sum_list_with (λ u, count_eq u (x :: l)) us =
            (sum_list_with (λ u, if decide (x = u) then 1 else 0) us +
             sum_list_with (λ u, count_eq u l) us)%nat) as ->.
    { clear. induction us as [|u us IHus]; [done|]. cbn [sum_list_with].
      rewrite count_eq_cons, IHus. lia. }
    rewrite sum_indicator by (try done; apply Hin; by left).
    rewrite IH by (intros y Hy; apply Hin; by right). done.
Qed.

Lemma sum_list_fmap_with {A} (f : A → nat) l :
  sum_list (f <$> l) = sum_list_with f l.
Proof.
  induction l as [|a l IH]; [done|]. rewrite fmap_cons.
  cbn [sum_list_with]. by rewrite <- IH.
Qed.

Lemma np_unique_counts_fst roots :
  (np_unique_counts roots).*1 = foldr unique_insert [] roots.
Proof.
  unfold np_unique_counts. rewrite <- list_fmap_compose.
  induction (foldr unique_insert [] roots); csimpl; [done|]. by f_equal.
Qed.

Lemma np_unique_counts_snd roots :
  (np_unique_counts roots).*2 =
  (λ r, count_eq r roots) <$> foldr unique_insert [] roots.
Proof.
  unfold np_unique_counts. rewrite <- list_fmap_compose.
  induction (foldr unique_insert [] roots); csimpl; [done|]. by f_equal.
Qed.

Lemma np_unique_counts_length roots :
  length (np_unique_counts roots) = length (remove_dups roots).
Proof.
  unfold np_unique_counts. rewrite length_fmap. apply Permutation_length.
  apply NoDup_Permutation.
  - apply ascending_NoDup, unique_ascending.
  - apply NoDup_remove_dups.
  - intros x. by rewrite unique_elem, elem_of_remove_dups.
Qed.

(** What a full scan returns: exactly the self-parented elements. *)
Lemma scan_elem uf rs r :
  wf uf →
  Forall2 (root_of (parent uf)) (seq 0 (length (parent uf))) rs →
  r ∈ rs ↔ parent uf !! r = Some r.
Proof.
  intros Hwf Hrs. split.
  - intros [k Hk]%list_elem_of_lookup.
    destruct (Forall2_lookup_r _ _ _ _ _ Hrs Hk) as (i & Hi & Hroot).
    by eapply root_of_is_root.
  - intros Hr.
    destruct (Forall2_lookup_l _ _ _ r r Hrs) as (r' & Hr' & Hroot).
    { apply lookup_seq_lt. by eapply lookup_lt_Some. }
    assert (r' = r) as -> by (by eapply root_of_root).
    by eapply list_elem_of_lookup_2.
Qed.

Lemma find_each_built idx : ∀ uf uf' rs,
  built uf → find_each uf idx = Ok (uf', rs) → built uf'.
Proof.
  induction idx as [|i idx IH]; intros uf uf' rs Hb Hfe.
  - by injection Hfe as <- _.
  - cbn [find_each] in Hfe.
    destruct (find uf (Z.of_nat i)) as [[uf2 r]|] eqn:Hf; [|done].
    cbn [res_bind] in Hfe.
    destruct (find_each uf2 idx) as [[uf3 rs3]|] eqn:Hfe'; [|done].
    cbn [res_bind] in Hfe. injection Hfe as <- _.
    eapply IH; [|exact Hfe']. by eapply built_find.
Qed.

(** X5.  On a forest built through the interface, [get_component_sizes]
    returns a table with one entry per root, in ascending root order; each
    size is the number of elements that resolve to that root and is at least
    1; the sizes add up to the number of elements and the number of entries
    is [num_sets].  The call changes neither the sets nor their roots. *)
Theorem component_sizes_table uf :
  built uf →
  ∃ uf' comps all_roots,
    get_component_sizes uf = Ok (uf', comps) ∧
    built uf' ∧ same_roots (parent uf) (parent uf') ∧
    rank uf' = rank uf ∧ num_sets uf' = num_sets uf ∧
    Forall2 (root_of (parent uf)) (seq 0 (length (parent uf))) all_roots ∧
    StronglySorted (λ a b : nat * nat, (a.1 < b.1)%nat) comps ∧
    (∀ r, r ∈ comps.*1 ↔ parent uf !! r = Some r) ∧
    (∀ r s, (r, s) ∈ comps → s = count_eq r all_roots ∧ (1 ≤ s)%nat) ∧
    sum_list comps.*2 = length (parent uf) ∧
    Z.of_nat (length comps) = num_sets uf.
Proof.
  intros Hb. pose proof (built_wf uf Hb) as Hwf.
  destruct (get_component_sizes_spec uf Hwf)
    as (par' & rs & Hg & Hrs & Hs & Hlen & Hwf').
  exists (set_parent uf par'), (np_unique_counts rs), rs.
  split_and!; try done.
  - unfold get_component_sizes in Hg.
    destruct (find_all uf) as [[uf1 rs1]|] eqn:Hfa; [|done].
    cbn [res_bind] in Hg. injection Hg as <- _.
    by eapply find_each_built.
  - apply np_unique_counts_ascending.
  - intros r. rewrite np_unique_counts_fst, unique_elem.
    by apply scan_elem.
  - intros r s [Hr ->]%np_unique_counts_elem. split; [done|].
    unfold count_eq. apply list_elem_of_lookup in Hr as [k Hk].
    assert (r ∈ filter (λ y, y = r) rs) as Hin.
    { apply list_elem_of_filter. split; [done|].
      by eapply list_elem_of_lookup_2. }
    destruct (filter _ rs); [by apply elem_of_nil in Hin | simpl; lia].
  - rewrite np_unique_counts_snd, sum_list_fmap_with, sum_counts.
    + apply Forall2_length in Hrs. rewrite length_seq in Hrs. lia.
    + apply ascending_NoDup, unique_ascending.
    + intros x. by rewrite unique_elem.
  - rewrite np_unique_counts_length, (distinct_roots uf rs Hwf Hrs).
    symmetry. apply Hwf.
Qed.

Lemma component_sizes_table_witness :
  let uf := mkUnionFind [0; 0; 0; 2; 4]%nat [2; 0; 1; 0; 0]%nat 2 in
  built uf ∧
  ∃ uf' comps all_roots,
    get_component_sizes uf = Ok (uf', comps) ∧
    built uf' ∧ same_roots (parent uf) (parent uf') ∧
    rank uf' = rank uf ∧ num_sets uf' = num_sets uf ∧
    Forall2 (root_of (parent uf)) (seq 0 (length (parent uf))) all_roots ∧
    StronglySorted (λ a b : nat * nat, (a.1 < b.1)%nat) comps ∧
    (∀ r, r ∈ comps.*1 ↔ parent uf !! r = Some r) ∧
    (∀ r s, (r, s) ∈ comps → s = count_eq r all_roots ∧ (1 ≤ s)%nat) ∧
    sum_list comps.*2 = length (parent uf) ∧
    Z.of_nat (length comps) = num_sets uf.
Proof.
  intros uf.
  assert (Hb : built uf).
  { eapply (built_union _ 0 2 _ PyNone).
    - eapply (built_union _ 2 3 _ PyNone).
      + eapply (built_union _ 0 1 _ PyNone); [apply (built_new 5)|].
        vm_compute. reflexivity.
      + vm_compute. reflexivity.
    - vm_compute. reflexivity. }
  split; [exact Hb|]. exact (component_sizes_table uf Hb).
Defined.

(** ** The ranking outside its usual range *)

Lemma slice_to_length {A} (l : list A) n :
  Z.of_nat (length (slice_to l n)) =
  if 0 <=? n then Z.min n (Z.of_nat (length l))
  else Z.max 0 (Z.of_nat (length l) + n).
Proof.
  unfold slice_to. destruct (0 <=? n) eqn:Hn; rewrite length_take; lia.
Qed.

Lemma unzip2_length items rs ss :
  unzip2 items = Ok (rs, ss) →
  items ≠ [] ∧ zip rs ss = items ∧
  length rs = length items ∧ length ss = length items.
Proof.
  destruct items as [|x items]; [done|]. intros [= <- <-].
  split_and!; [done | | by cbn; rewrite length_fmap ..].
  change (zip (x :: items).*1 (x :: items).*2 = x :: items).
  generalize (x :: items). intros l. induction l as [|[a b] l IH]; [done|].
  csimpl. by rewrite IH.
Qed.

Lemma unzip2_raise items e :
  unzip2 items = Raise e → items = [] ∧ e = ValueError.
Proof. destruct items; [|done]. by intros [= <-]. Qed.

Lemma empty_forest_no_sets uf :
  wf uf → num_sets uf = 0 ↔ length (parent uf) = 0%nat.
Proof.
  intros Hwf. split.
  - intros H0. destruct (decide (0 < length (parent uf))%nat) as [Hpos|]; [|lia].
    pose proof (count_roots_pos uf Hwf Hpos).
    pose proof (wf_count uf Hwf). lia.
  - intros H0. pose proof (wf_bound uf Hwf 0). pose proof (wf_count uf Hwf). lia.
Qed.

(** X6.  [get_largest_components(n)] for every integer [n], on a forest built
    through the interface.  The call fails exactly when the forest is empty,
    when [n = 0], or when [n] is negative with [-n] at least the number of
    sets, and the failure is always the ValueError of the two-name
    unpacking.  Otherwise it returns two lists of equal length: [min n
    num_sets] entries for a positive [n], and for a negative [n] all but the
    [-n] smallest.  The sets and their count are as before the call. *)
Theorem largest_components_any_n uf n :
  built uf →
  ((∃ e, get_largest_components uf n = Raise e) ↔
     length (parent uf) = 0%nat ∨ n = 0 ∨ (n < 0 ∧ num_sets uf ≤ - n)) ∧
  (∀ e, get_largest_components uf n = Raise e → e = ValueError) ∧
  (∀ uf' roots sizes,
     get_largest_components uf n = Ok (uf', (roots, sizes)) →
     length roots = length sizes ∧
     Z.of_nat (length roots) =
       (if 0 <=? n then Z.min n (num_sets uf) else num_sets uf + n) ∧
     Forall (λ r, parent uf !! r = Some r) roots ∧
     same_roots (parent uf) (parent uf') ∧
     num_sets uf' = num_sets uf).
Proof.
  intros Hwf%built_wf.
  destruct (get_component_sizes_spec uf Hwf) as (par' & rs & Hg & Hrs & Hs & _).
  set (comps := np_unique_counts rs) in *.
  set (full := sorted size_before comps).
  assert (Hperm : full ≡ₚ comps) by apply sorted_perm.
  assert (Hm : Z.of_nat (length full) = num_sets uf).
  { rewrite Hperm. unfold comps.
    rewrite np_unique_counts_length, (distinct_roots uf rs Hwf Hrs).
    symmetry. apply Hwf. }
  pose proof (empty_forest_no_sets uf Hwf) as Hempty.
  assert (Hpos : 0 ≤ num_sets uf) by lia.
  set (items := if n <=? Z.of_nat (length full) then slice_to full n else full).
  assert (Hcall : get_largest_components uf n =
                  let? cols := unzip2 items in Ok (set_parent uf par', cols)).
  { unfold get_largest_components. rewrite Hg. cbn [res_bind].
    fold comps. fold full. unfold items.
    by destruct (n <=? Z.of_nat (length full)). }
  assert (Hlen : Z.of_nat (length items) =
                 if 0 <=? n then Z.min n (num_sets uf)
                 else Z.max 0 (num_sets uf + n)).
  { unfold items. destruct (n <=? Z.of_nat (length full)) eqn:Hle.
    - by rewrite slice_to_length, Hm.
    - destruct (0 <=? n) eqn:Hn; lia. }
  assert (Hsub : ∀ x, x ∈ items → x ∈ comps).
  { intros x Hx. rewrite <- Hperm. unfold items in Hx.
    destruct (n <=? Z.of_nat (length full)); [|done].
    unfold slice_to in Hx.
    destruct (0 <=? n); by eapply subseteq_take. }
  clearbody items. rewrite Hcall. split_and!.
  - split.
    + intros [e He]. destruct (unzip2 items) as [[rs' ss']|e'] eqn:Hu; [done|].
      apply unzip2_raise in Hu as [Hnil _]. rewrite Hnil in Hlen.
      destruct (0 <=? n) eqn:Hn; cbn [length] in Hlen; lia.
    + intros Hcond. destruct (unzip2 items) as [[rs' ss']|e'] eqn:Hu;
        [|by eexists].
      apply unzip2_length in Hu as (Hne & _).
      destruct items; [done|]. cbn [length] in Hlen.
      destruct (0 <=? n) eqn:Hn; lia.
  - intros e He. destruct (unzip2 items) as [[rs' ss']|e'] eqn:Hu; [done|].
    apply unzip2_raise in Hu as [_ ->]. by injection He as <-.
  - intros uf' roots sizes Hok.
    destruct (unzip2 items) as [[rs' ss']|e'] eqn:Hu; [|done].
    cbn [res_bind] in Hok. injection Hok as <- <- <-.
    pose proof Hu as Hu'. apply unzip2_length in Hu as (Hne & Hzip & Hl1 & Hl2).
    split_and!; [lia | | | done | done].
    + rewrite Hl1, Hlen. destruct (0 <=? n) eqn:Hn; [done|].
      destruct items; [done|]. cbn [length] in Hlen. lia.
    + apply Forall_forall. intros r Hr.
      assert (rs' = items.*1) as ->.
      { clear -Hu'. destruct items; [done|]. by injection Hu' as <- _. }
      apply list_elem_of_fmap in Hr as ([r' s] & -> & Hin).
      apply Hsub, np_unique_counts_elem in Hin as [Hin _]. cbn.
      by apply (scan_elem uf rs).
Qed.

Lemma largest_components_any_n_witness :
  let uf := mkUnionFind [0; 0; 0; 2]%nat [2; 0; 1; 0]%nat 1 in
  let n := -1 in
  built uf ∧
  ((∃ e, get_largest_components uf n = Raise e) ↔
     length (parent uf) = 0%nat ∨ n = 0 ∨ (n < 0 ∧ num_sets uf ≤ - n)) ∧
  (∀ e, get_largest_components uf n = Raise e → e = ValueError) ∧
  (∀ uf' roots sizes,
     get_largest_components uf n = Ok (uf', (roots, sizes)) →
     length roots = length sizes ∧
     Z.of_nat (length roots) =
       (if 0 <=? n then Z.min n (num_sets uf) else num_sets uf + n) ∧
     Forall (λ r, parent uf !! r = Some r) roots ∧
     same_roots (parent uf) (parent uf') ∧
     num_sets uf' = num_sets uf).
Proof.
  intros uf n. split; [exact built_two_levels|].
  exact (largest_components_any_n uf n built_two_levels).
Defined.

(** ** The adjacency graph is the 4-connected grid *)

Lemma res_fold_app {A B} (body : list B → A → res (list B)) (g : A → list B)
    l : ∀ s s',
  (∀ s a s', a ∈ l → body s a = Ok s' → s' = s ++ g a) →
  res_fold body l s = Ok s' → s' = s ++ (l ≫= g).
Proof.
  induction l as [|a l IH]; intros s s' Hbody Hfold.
  - injection Hfold as <-. by rewrite app_nil_r.
  - cbn [res_fold] in Hfold.
    destruct (body s a) as [s1|] eqn:Hs1; [|done]. cbn [res_bind] in Hfold.
    apply Hbody in Hs1 as ->; [|by left].
    apply IH in Hfold as ->; [|intros ???? ; apply Hbody; by right].
    by rewrite bind_cons, app_assoc.
Qed.

Lemma graph_pixel_app image y edges x edges' :
  graph_pixel image (ndim image =? 3)%nat y edges x = Ok edges' →
  edges' = edges ++ pixel_edges image y x.
Proof.
  unfold graph_pixel, pixel_edges, diff_edge, mk_edge. intros Hg.
  destruct (Z.ltb_spec (Z.of_nat x) (Z.of_nat (width image) - 1)) as [Hx|Hx].
  - rewrite decide_True by lia.
    destruct (pixel_diff image _ y x y (x + 1)) as [d|]; [|done].
    cbn [res_bind] in Hg.
    destruct (Z.ltb_spec (Z.of_nat y) (Z.of_nat (height image) - 1)) as [Hy|Hy].
    + rewrite decide_True by lia.
      destruct (pixel_diff image _ y x (y + 1) x) as [d'|]; [|done].
      injection Hg as <-. by rewrite <- app_assoc.
    + rewrite decide_False by lia. injection Hg as <-. by rewrite app_nil_r.
  - rewrite decide_False by lia. cbn [res_bind] in Hg.
    destruct (Z.ltb_spec (Z.of_nat y) (Z.of_nat (height image) - 1)) as [Hy|Hy].
    + rewrite decide_True by lia.
      destruct (pixel_diff image _ y x (y + 1) x) as [d'|]; [|done].
      by injection Hg as <-.
    + rewrite decide_False by lia. injection Hg as <-. by rewrite app_nil_r.
Qed.

Lemma create_graph_grid_perm image edges :
  create_graph image = Ok edges → edges ≡ₚ grid_edges image.
Proof.
  unfold create_graph. intros Hc.
  destruct (res_fold _ _ _) as [pre|] eqn:Hpre; [|done].
  cbn [res_bind] in Hc. injection Hc as <-. rewrite sorted_perm.
  apply (res_fold_app _ (λ y, seq 0 (width image) ≫= pixel_edges image y))
    in Hpre as ->; [done|].
  intros s y s' _ Hrow. unfold graph_row in Hrow.
  apply (res_fold_app _ (pixel_edges image y)) in Hrow; [done|].
  intros ???? ; apply graph_pixel_app.
Qed.

Lemma grid_coord_inj w y x y' x' :
  (x < w)%nat → (x' < w)%nat → (y * w + x = y' * w + x')%nat →
  y = y' ∧ x = x'.
Proof. intros. destruct (lt_eq_lt_dec y y') as [[|]|]; nia. Qed.

Lemma grid_edges_elem image d u v :
  mk_edge d u v ∈ grid_edges image ↔
  ∃ y x, (y < height image)%nat ∧ (x < width image)%nat ∧
    u = (y * width image + x)%nat ∧
    (((x + 1 < width image)%nat ∧ v = (y * width image + (x + 1))%nat ∧
      pixel_diff image (ndim image =? 3)%nat y x y (x + 1) = Ok d) ∨
     ((y + 1 < height image)%nat ∧ v = ((y + 1) * width image + x)%nat ∧
      pixel_diff image (ndim image =? 3)%nat y x (y + 1) x = Ok d)).
Proof.
  unfold grid_edges. rewrite list_elem_of_bind. split.
  - intros (y & (x & Hin & Hx%elem_of_seq)%list_elem_of_bind & Hy%elem_of_seq).
    exists y, x. split_and!; [lia | lia | ..];
      unfold pixel_edges, diff_edge, mk_edge in *;
      apply elem_of_app in Hin as [Hin|Hin]; case_decide;
        try (by apply elem_of_nil in Hin);
        destruct (pixel_diff _ _ _ _ _ _) as [d'|] eqn:Hd;
        try (by apply elem_of_nil in Hin);
        apply list_elem_of_singleton in Hin; injection Hin as -> -> ->;
        first [done | by left | by right].
  - intros (y & x & Hy & Hx & -> & Hcase). exists y. split.
    + apply list_elem_of_bind. exists x. split; [|apply elem_of_seq; lia].
      unfold pixel_edges, diff_edge, mk_edge. apply elem_of_app.
      destruct Hcase as [(Hx1 & -> & Hd)|(Hy1 & -> & Hd)]; [left|right];
        rewrite decide_True by done; rewrite Hd; by apply list_elem_of_singleton.
    + apply elem_of_seq. lia.
Qed.

Lemma grid_edges_ends_inj image e e' :
  e ∈ grid_edges image → e' ∈ grid_edges image → ends e = ends e' → e = e'.
Proof.
  destruct e as [[d u] v], e' as [[d' u'] v']. unfold ends. cbn.
  intros He He' [= <- <-].
  apply (grid_edges_elem image d u v) in He as (y & x & Hy & Hx & Hu & Hc).
  apply (grid_edges_elem image d' u v) in He' as (y' & x' & Hy' & Hx' & Hu' & Hc').
  destruct (grid_coord_inj (width image) y x y' x') as [<- <-];
    [done | done | lia |].
  destruct Hc as [(? & Hv & Hd)|(? & Hv & Hd)],
           Hc' as [(? & Hv' & Hd')|(? & Hv' & Hd')];
    try (exfalso; nia); rewrite Hd in Hd'; by injection Hd' as <-.
Qed.

Lemma diff_edge_NoDup image y x y' x' : NoDup (diff_edge image y x y' x').
Proof.
  unfold diff_edge. destruct (pixel_diff _ _ _ _ _ _); [|constructor].
  apply NoDup_singleton.
Qed.

Lemma diff_edge_elem image y x y' x' e :
  e ∈ diff_edge image y x y' x' →
  ends e = ((y * width image + x)%nat, (y' * width image + x')%nat).
Proof.
  unfold diff_edge. destruct (pixel_diff _ _ _ _ _ _); [|by intros ?%elem_of_nil].
  by intros ->%list_elem_of_singleton.
Qed.

Lemma pixel_edges_from image y x e :
  e ∈ pixel_edges image y x → (ends e).1 = (y * width image + x)%nat.
Proof.
  unfold pixel_edges. intros [Hin|Hin]%elem_of_app; case_decide;
    try (by apply elem_of_nil in Hin);
    by apply diff_edge_elem in Hin as ->.
Qed.

Lemma grid_edges_NoDup image : NoDup (grid_edges image).
Proof.
  unfold grid_edges. apply NoDup_bind; [| |apply NoDup_seq].
  - intros y1 y2 e Hy1 Hy2
      (x1 & He1 & Hx1%elem_of_seq)%list_elem_of_bind
      (x2 & He2 & Hx2%elem_of_seq)%list_elem_of_bind.
    apply pixel_edges_from in He1, He2.
    apply (grid_coord_inj (width image) y1 x1 y2 x2); [lia | lia | congruence].
  - intros y Hy. apply NoDup_bind; [| |apply NoDup_seq].
    + intros x1 x2 e Hx1%elem_of_seq Hx2%elem_of_seq He1 He2.
      apply pixel_edges_from in He1, He2.
      apply (grid_coord_inj (width image) y x1 y x2); [lia | lia | congruence].
    + intros x Hx%elem_of_seq. unfold pixel_edges. apply NoDup_app.
      split_and!.
      * case_decide; [apply diff_edge_NoDup | constructor].
      * intros e He He'. repeat case_decide;
          try (by apply elem_of_nil in He); try (by apply elem_of_nil in He').
        apply diff_edge_elem in He, He'. rewrite He in He'.
        injection He' as He'. nia.
      * case_decide; [apply diff_edge_NoDup | constructor].
Qed.

Lemma length_bind {A B} (f : A → list B) l :
  length (l ≫= f) = sum_list_with (λ a, length (f a)) l.
Proof.
  induction l as [|a l IH]; [done|].
  rewrite bind_cons, length_app, IH. done.
Qed.

Lemma sum_list_with_ext_elem {A} (f g : A → nat) l :
  (∀ a, a ∈ l → f a = g a) → sum_list_with f l = sum_list_with g l.
Proof.
  induction l as [|a l IH]; intros Hfg; [done|]. cbn [sum_list_with].
  rewrite Hfg by (by left). rewrite IH; [done|]. intros ??; apply Hfg. by right.
Qed.

Lemma count_below n k c :
  sum_list_with (λ x, (if decide (x + 1 < k)%nat then 1 else 0) + c)%nat
    (seq 0 n) = (min n (k - 1) + n * c)%nat.
Proof.
  induction n as [|n IH]; [done|].
  rewrite seq_S, sum_list_with_app, IH. cbn [sum_list_with].
  case_decide; lia.
Qed.

Lemma count_rows n h w :
  sum_list_with (λ y, min w (w - 1) +
                      w * (if decide (y + 1 < h)%nat then 1 else 0))%nat
    (seq 0 n) = (n * (w - 1) + w * min n (h - 1))%nat.
Proof.
  induction n as [|n IH]; [cbn; lia|].
  rewrite seq_S, sum_list_with_app, IH. cbn [sum_list_with].
  case_decide; nia.
Qed.

Lemma diff_edge_length image y x y' x' :
  array_ok image →
  (y < height image)%nat → (x < width image)%nat →
  (y' < height image)%nat → (x' < width image)%nat →
  length (diff_edge image y x y' x') = 1%nat.
Proof.
  intros Hok ????. unfold diff_edge.
  by destruct (pixel_diff_ok image y x y' x' Hok) as [d ->].
Qed.

Lemma grid_edges_length image :
  array_ok image →
  length (grid_edges image) =
  (height image * (width image - 1) + (height image - 1) * width image)%nat.
Proof.
  intros Hok. unfold grid_edges. rewrite length_bind.
  rewrite (sum_list_with_ext_elem _
    (λ y, min (width image) (width image - 1) +
          width image * (if decide (y + 1 < height image)%nat then 1 else 0))%nat).
  { rewrite count_rows. lia. }
  intros y Hy%elem_of_seq. rewrite length_bind.
  rewrite (sum_list_with_ext_elem _
    (λ x, (if decide (x + 1 < width image)%nat then 1 else 0) +
          (if decide (y + 1 < height image)%nat then 1 else 0))%nat).
  { rewrite count_below. lia. }
  intros x Hx%elem_of_seq. unfold pixel_edges. rewrite length_app.
  f_equal; case_decide; try done; apply diff_edge_length; (done || lia).
Qed.

(** X7.  For an image whose buffer matches its shape, [create_graph] returns
    the 4-connected grid graph: one edge from each pixel to its right
    neighbour and one to the neighbour below, and no others, so
    [h * (w - 1) + (h - 1) * w] edges in all, no two of them joining the same
    pair of pixels.  An edge's weight is the difference of the two pixels it
    joins, its first end is the smaller pixel number, and the list comes in
    ascending weight. *)
Theorem create_graph_is_grid image :
  array_ok image →
  ∃ edges,
    create_graph image = Ok edges ∧
    length edges =
      (height image * (width image - 1) +
       (height image - 1) * width image)%nat ∧
    NoDup (ends <$> edges) ∧
    StronglySorted weight_le edges ∧
    (∀ d u v, mk_edge d u v ∈ edges ↔
       ∃ y x, (y < height image)%nat ∧ (x < width image)%nat ∧
         u = (y * width image + x)%nat ∧
         (((x + 1 < width image)%nat ∧
           v = (y * width image + (x + 1))%nat ∧
           pixel_diff image (ndim image =? 3)%nat y x y (x + 1) = Ok d) ∨
          ((y + 1 < height image)%nat ∧
           v = ((y + 1) * width image + x)%nat ∧
           pixel_diff image (ndim image =? 3)%nat y x (y + 1) x = Ok d))) ∧
    (∀ d u v, mk_edge d u v ∈ edges →
       (u < v < height image * width image)%nat).
Proof.
  intros Hok. destruct (create_graph_ok image Hok) as (edges & Hc & Hin).
  pose proof (create_graph_grid_perm image edges Hc) as Hperm.
  exists edges. split_and!; [done | | | | |].
  - rewrite Hperm. by apply grid_edges_length.
  - rewrite Hperm. apply NoDup_fmap_2_strong; [|apply grid_edges_NoDup].
    intros e e'. apply grid_edges_ends_inj.
  - by eapply create_graph_sorted.
  - intros d u v. rewrite Hperm. apply grid_edges_elem.
  - intros d u v He. pose proof He as He'.
    rewrite Forall_forall in Hin. apply Hin in He' as [_ Hv]. cbn in Hv.
    split; [|done]. rewrite Hperm in He.
    apply grid_edges_elem in He as (y & x & _ & _ & -> & [(?&->&_)|(?&->&_)]);
      nia.
Qed.

Lemma create_graph_is_grid_witness :
  let image := mkArray UInt8 2 2 None [1; 2; 3; 4]%Q in
  array_ok image ∧
  ∃ edges,
    create_graph image = Ok edges ∧
    length edges =
      (height image * (width image - 1) +
       (height image - 1) * width image)%nat ∧
    NoDup (ends <$> edges) ∧
    StronglySorted weight_le edges ∧
    (∀ d u v, mk_edge d u v ∈ edges ↔
       ∃ y x, (y < height image)%nat ∧ (x < width image)%nat ∧
         u = (y * width image + x)%nat ∧
         (((x + 1 < width image)%nat ∧
           v = (y * width image + (x + 1))%nat ∧
           pixel_diff image (ndim image =? 3)%nat y x y (x + 1) = Ok d) ∨
          ((y + 1 < height image)%nat ∧
           v = ((y + 1) * width image + x)%nat ∧
           pixel_diff image (ndim image =? 3)%nat y x (y + 1) x = Ok d))) ∧
    (∀ d u v, mk_edge d u v ∈ edges →
       (u < v < height image * width image)%nat).
Proof.
  intros image.
  assert (Hok : array_ok image) by reflexivity.
  split; [exact Hok|]. exact (create_graph_is_grid image Hok).
Defined.

(** ** What the second loop leaves behind *)

Lemma at_least_coarsens par par' m x :
  coarsens par par' → at_least par m x → at_least par' m x.
Proof.
  intros Hc (members & Hnd & Hall & Hlen). exists members.
  split_and!; [done | | done].
  eapply Forall_impl; [exact Hall|]. intros y. apply Hc.
Qed.

Lemma at_least_same_set par m x y :
  same_set par x y → at_least par m x → at_least par m y.
Proof.
  intros Hxy (members & Hnd & Hall & Hlen). exists members.
  split_and!; [done | | done].
  eapply Forall_impl; [exact Hall|]. intros z Hz. cbn in Hz.
  by eapply same_set_trans.
Qed.

Lemma settled_coarsens par par' m e :
  coarsens par par' → settled par m e → settled par' m e.
Proof.
  intros Hc [Hs|[Hu Hv]]; [left; by apply Hc|right].
  split; by eapply at_least_coarsens.
Qed.

Lemma res_fold_each {A S} (P : S → Prop) (Q : A → S → Prop)
    (body : S → A → res S) l : ∀ s,
  P s →
  (∀ s a, a ∈ l → P s →
     ∃ s', body s a = Ok s' ∧ P s' ∧ Q a s' ∧ ∀ b, Q b s → Q b s') →
  ∃ s', res_fold body l s = Ok s' ∧ P s' ∧ Forall (λ a, Q a s') l ∧
        ∀ b, Q b s → Q b s'.
Proof.
  induction l as [|a l IH]; intros s HP Hbody.
  - exists s. by split_and!.
  - destruct (Hbody s a) as (s1 & Hs1 & HP1 & HQ1 & Hmono1); [by left | done |].
    destruct (IH s1 HP1) as (s' & Hs' & HP' & Hall & Hmono).
    { intros s2 b Hb. apply Hbody. by right. }
    exists s'. cbn [res_fold]. rewrite Hs1. cbn [res_bind].
    split_and!; [done | done | | by auto].
    constructor; [by apply Hmono | done].
Qed.

Lemma index_filter_length (l : list nat) x :
  length (filter (λ i, l !! i = Some x) (seq 0 (length l))) = count_eq x l.
Proof.
  unfold count_eq. induction l as [|a l IH] using rev_ind; [done|].
  rewrite length_app. cbn [length]. rewrite Nat.add_1_r, seq_S.
  rewrite !filter_app, !length_app. f_equal.
  - rewrite <- IH. f_equal. apply filter_ext_elem.
    intros i Hi%elem_of_seq. by rewrite lookup_app_l by lia.
  - cbn [Nat.add]. rewrite !filter_cons, !filter_nil.
    rewrite lookup_app_r, Nat.sub_diag by lia. cbn [lookup list_lookup].
    repeat case_decide; (done || congruence).
Qed.

Lemma members_of_root par r :
  par !! r = Some r →
  ∃ members, NoDup members ∧ Forall (λ y, root_of par y r) members ∧
             length members = count_eq r par.
Proof.
  intros Hr. exists (filter (λ i, par !! i = Some r) (seq 0 (length par))).
  split_and!.
  - apply NoDup_filter, NoDup_seq.
  - apply Forall_forall. intros i [Hi _]%list_elem_of_filter.
    destruct (decide (i = r)) as [->|Hne]; [by constructor|].
    eapply root_step; [done | done | by constructor].
  - apply index_filter_length.
Qed.

Lemma cleanup_edge_step min_size uf w u v :
  wf uf → (u < length (parent uf))%nat → (v < length (parent uf))%nat →
  ∃ uf', cleanup_edge min_size uf (mk_edge w u v) = Ok uf' ∧ wf uf' ∧
         length (parent uf') = length (parent uf) ∧
         coarsens (parent uf) (parent uf') ∧
         num_sets uf' ≤ num_sets uf ∧
         settled (parent uf') min_size (mk_edge w u v) ∧
         (same_roots (parent uf) (parent uf') ∨
          ∃ ru rv r', root_of (parent uf) u ru ∧ root_of (parent uf) v rv ∧
            (r' = ru ∨ r' = rv) ∧
            ∀ x r, root_of (parent uf) x r →
              root_of (parent uf') x
                (if decide (r = ru ∨ r = rv) then r' else r)).
Proof.
  intros Hwf Hu Hv. unfold cleanup_edge, mk_edge.
  destruct (find_spec uf u Hwf Hu) as (par1 & ru & -> & Hru & Hs1 & Hl1 & Hwf1).
  cbn [res_bind].
  assert (Hv1 : (v < length (parent (set_parent uf par1)))%nat).
  { cbn [parent set_parent]. lia. }
  destruct (find_spec _ v Hwf1 Hv1) as (par2 & rv & -> & Hrv & Hs2 & Hl2 & Hwf2).
  cbn [res_bind parent set_parent] in *.
  apply Hs1 in Hrv.
  assert (Hs : same_roots (parent uf) par2) by (by eapply same_roots_trans).
  assert (Hru2 : root_of par2 u ru) by (by apply Hs).
  assert (Hrv2 : root_of par2 v rv) by (by apply Hs).
  destruct (Nat.eqb_spec ru rv) as [<-|Hne]; cbn [negb].
  { eexists. split_and!; [done | done | cbn; lia | | cbn; lia | | by left].
    - by apply same_roots_coarsens.
    - left. by exists ru. }
  destruct (_ || _) eqn:Hsmall.
  - pose proof (root_of_range uf u ru Hwf Hru) as Hltu.
    pose proof (root_of_range uf v rv Hwf Hrv) as Hltv.
    destruct (union_spec (set_parent (set_parent uf par1) par2)
                (Z.of_nat ru) (Z.of_nat rv) ru rv ru rv Hwf2)
      as (uf3 & -> & Hwf3 & Hl3 & Hcase).
    { cbn [parent set_parent]. apply np_index_nat. lia. }
    { cbn [parent set_parent]. apply np_index_nat. lia. }
    { by eapply root_of_idem. }
    { by eapply root_of_idem. }
    cbn [res_bind parent set_parent] in *.
    destruct Hcase as [[? _]|(_ & Hn & a & b & Hab & Hmerge)]; [done|].
    assert (Hsame : ∀ x r, root_of (parent uf) x r →
                           root_of (parent uf3) x (merged a b r)).
    { intros x r Hx. apply Hmerge. by apply Hs. }
    cbn [num_sets set_parent] in Hn.
    eexists. split_and!; [done | done | lia | | lia | |].
    + intros x y (r & Hx & Hy). exists (merged a b r). split; by apply Hsame.
    + left. cbn [fst snd]. apply Hsame in Hru, Hrv. unfold merged in *.
      destruct Hab as [[-> ->]|[-> ->]]; repeat case_decide; try done.
      * by exists rv.
      * by exists ru.
    + right. exists ru, rv, b. split_and!; [done | done | tauto |].
      intros x r Hx. apply Hsame in Hx. unfold merged in Hx.
      destruct (decide (r = ru ∨ r = rv)) as [[->| ->]|Hno].
      * destruct Hab as [[-> ->]|[-> ->]]; case_decide; done || congruence.
      * destruct Hab as [[-> ->]|[-> ->]]; case_decide; done || congruence.
      * destruct Hab as [[-> ->]|[-> ->]]; case_decide; try done;
          exfalso; apply Hno; auto.
  - apply orb_false_iff in Hsmall as [Hsu Hsv].
    eexists. split_and!; [done | done | cbn; lia | | cbn; lia | | by left].
    + by apply same_roots_coarsens.
    + right. cbn [fst snd parent set_parent]. split.
      * destruct (members_of_root par2 ru) as (ms & Hnd & Hall & Hlen).
        { by eapply root_of_is_root. }
        exists ms. split_and!; [done | | lia].
        eapply Forall_impl; [exact Hall|]. intros y Hy. by exists ru.
      * destruct (members_of_root par2 rv) as (ms & Hnd & Hall & Hlen).
        { by eapply root_of_is_root. }
        exists ms. split_and!; [done | | lia].
        eapply Forall_impl; [exact Hall|]. intros y Hy. by exists rv.
Qed.

Lemma second_pass_settles min_size edges uf :
  wf uf → Forall (edge_in (length (parent uf))) edges →
  ∃ uf', second_pass min_size edges uf = Ok uf' ∧ wf uf' ∧
         length (parent uf') = length (parent uf) ∧
         coarsens (parent uf) (parent uf') ∧
         num_sets uf' ≤ num_sets uf ∧
         (min_size ≤ 0 → uf' = uf) ∧
         (0 < min_size → Forall (settled (parent uf') min_size) edges).
Proof.
  intros Hwf Hedges. unfold second_pass.
  destruct (Z.ltb_spec 0 min_size) as [Hpos|Hneg].
  2:{ exists uf. split_and!; [done | done | done | apply coarsens_refl | lia
                             | done | lia]. }
  destruct (res_fold_each
    (λ uf' : UnionFind,
       wf uf' ∧ length (parent uf') = length (parent uf) ∧
       coarsens (parent uf) (parent uf') ∧ num_sets uf' ≤ num_sets uf)
    (λ e uf', settled (parent uf') min_size e)
    (cleanup_edge min_size) edges uf)
    as (uf' & Hfold & (Hwf' & Hlen' & Hco & Hn) & Hall & _).
  { split_and!; [done | done | apply coarsens_refl | lia]. }
  { intros uf1 [[w u] v] Hin (Hwf1 & Hlen1 & Hco1 & Hn1).
    rewrite Forall_forall in Hedges. destruct (Hedges _ Hin) as [Hu Hv].
    cbn [fst snd] in *.
    destruct (cleanup_edge_step min_size uf1 w u v Hwf1)
      as (uf2 & Hstep & Hwf2 & Hlen2 & Hco2 & Hn2 & Hset & _); [lia | lia |].
    exists uf2. split_and!; [done | done | lia | | lia | done |].
    - by eapply coarsens_trans.
    - intros b. by apply settled_coarsens. }
  exists uf'. split_and!; [done | done | done | done | done | lia | done].
Qed.

(** X8.  The second loop on a forest built through the interface, with edges
    between its elements.  It always returns; it only ever joins sets, so
    elements that were together stay together and [num_sets] does not grow;
    with [min_size <= 0] the forest is left as it is; and with a positive
    [min_size], at the end every edge has its two ends in one set or in two
    sets that each have at least [min_size] elements. *)
Theorem second_pass_floor min_size edges uf :
  built uf → Forall (edge_in (length (parent uf))) edges →
  ∃ uf', second_pass min_size edges uf = Ok uf' ∧
         length (parent uf') = length (parent uf) ∧
         coarsens (parent uf) (parent uf') ∧
         num_sets uf' ≤ num_sets uf ∧
         (min_size ≤ 0 → uf' = uf) ∧
         (0 < min_size → Forall (settled (parent uf') min_size) edges).
Proof.
  intros Hwf%built_wf Hedges.
  destruct (second_pass_settles min_size edges uf Hwf Hedges)
    as (uf' & ? & _ & ? & ? & ? & ? & ?).
  by exists uf'.
Qed.

Lemma second_pass_floor_witness :
  let uf := mkUnionFind [0; 0; 0; 2]%nat [2; 0; 1; 0]%nat 1 in
  let edges := [mk_edge 0 0 1; mk_edge 1 2 3] in
  let min_size := 2 in
  built uf ∧ Forall (edge_in (length (parent uf))) edges ∧
  ∃ uf', second_pass min_size edges uf = Ok uf' ∧
         length (parent uf') = length (parent uf) ∧
         coarsens (parent uf) (parent uf') ∧
         num_sets uf' ≤ num_sets uf ∧
         (min_size ≤ 0 → uf' = uf) ∧
         (0 < min_size → Forall (settled (parent uf') min_size) edges).
Proof.
  intros uf edges min_size.
  assert (Hedges : Forall (edge_in (length (parent uf))) edges).
  { repeat (constructor; [split; cbn; lia|]). constructor. }
  split; [exact built_two_levels|]. split; [exact Hedges|].
  exact (second_pass_floor min_size edges uf built_two_levels Hedges).
Defined.

(** ** The stages of a run *)

Lemma paint_pixel_forest rand is_color width out y st x st' :
  wf st.1.1.2 →
  paint_pixel rand is_color width out y st x = Ok st' →
  wf st'.1.1.2 ∧ same_roots (parent st.1.1.2) (parent st'.1.1.2) ∧
  length (parent st'.1.1.2) = length (parent st.1.1.2) ∧
  num_sets st'.1.1.2 = num_sets st.1.1.2.
Proof.
  destruct st as [[[h uf] cc] ctr]. cbn [fst snd]. intros Hwf. unfold paint_pixel.
  destruct (find uf _) as [[uf' root]|] eqn:Hf; [|done]. cbn [res_bind].
  apply (find_ok_inv _ _ _ _ Hwf) in Hf as (Hwf' & Hs & Hl & _ & Hn & _).
  destruct (cc !! root) as [c|].
  - destruct (heap_store h out y x c) as [h1|]; [|done].
    cbn [res_bind]. by intros [= <-].
  - destruct (randint rand ctr _) as [c ctr'].
    destruct (heap_store h out y x c) as [h1|]; [|done].
    cbn [res_bind]. by intros [= <-].
Qed.

Lemma paint_forest rand is_color height width out h uf st' :
  wf uf →
  paint rand is_color height width out h uf = Ok st' →
  wf st'.1.1.2 ∧ same_roots (parent uf) (parent st'.1.1.2) ∧
  length (parent st'.1.1.2) = length (parent uf) ∧
  num_sets st'.1.1.2 = num_sets uf.
Proof.
  unfold paint. intros Hwf Hrun.
  set (P := λ st : paint_state,
         wf st.1.1.2 ∧ same_roots (parent uf) (parent st.1.1.2) ∧
         length (parent st.1.1.2) = length (parent uf) ∧
         num_sets st.1.1.2 = num_sets uf).
  assert (H0 : P (h, uf, ∅, 0%nat)).
  { split_and!; [done | apply same_roots_refl | done | done]. }
  apply (res_fold_ok_inv P _ _ _ _ H0) in Hrun; [done|].
  intros st y st1 _ Hst Hrow. unfold paint_row in Hrow.
  apply (res_fold_ok_inv P _ _ _ _ Hst) in Hrow; [done|].
  intros s x s' _ (Hwf1 & Hs1 & Hl1 & Hn1) Hpx.
  apply paint_pixel_forest in Hpx as (Hwf2 & Hs2 & Hl2 & Hn2); [|done].
  split_and!; [done | by eapply same_roots_trans | congruence | congruence].
Qed.

Lemma grid_connected (h w : nat) (C : nat → Prop) :
  (∀ y x, (y < h)%nat → (x + 1 < w)%nat →
          C (y * w + x)%nat ↔ C (y * w + (x + 1))%nat) →
  (∀ y x, (y + 1 < h)%nat → (x < w)%nat →
          C (y * w + x)%nat ↔ C ((y + 1) * w + x)%nat) →
  ∀ p q, (p < h * w)%nat → (q < h * w)%nat → C p → C q.
Proof.
  intros Hright Hdown.
  assert (Hrow : ∀ y x, (y < h)%nat → (x < w)%nat →
                        C (y * w + x)%nat ↔ C (y * w + 0)%nat).
  { intros y x Hy. induction x as [|x IH]; intros Hx; [done|].
    rewrite <- IH by lia. replace (S x) with (x + 1)%nat by lia.
    symmetry. apply Hright; lia. }
  assert (Hcol : ∀ y, (y < h)%nat → (0 < w)%nat →
                      C (y * w + 0)%nat ↔ C (0 * w + 0)%nat).
  { intros y Hy Hw. induction y as [|y IH]; [done|].
    rewrite <- IH by lia. replace (S y) with (y + 1)%nat by lia.
    symmetry. apply Hdown; lia. }
  assert (Hall : ∀ p, (p < h * w)%nat → C p ↔ C (0 * w + 0)%nat).
  { intros p Hp. assert (0 < w)%nat as Hw by nia.
    assert (p = (p / w) * w + p mod w)%nat as Hdm.
    { pose proof (Nat.div_mod_eq p w). lia. }
    assert (p / w < h)%nat as Hy.
    { apply Nat.Div0.div_lt_upper_bound. lia. }
    assert (p mod w < w)%nat as Hx by (apply Nat.mod_upper_bound; lia).
    rewrite Hdm at 1. rewrite Hrow by done. by apply Hcol. }
  intros p q Hp Hq HC. apply Hall; [done|]. by apply Hall in HC.
Qed.

Lemma unique_insert_replicate r n :
  foldr unique_insert [] (replicate (S n) r) = [r].
Proof.
  induction n as [|n IH]; [done|].
  change (replicate (S (S n)) r) with (r :: replicate (S n) r).
  cbn [foldr]. rewrite IH. cbn [unique_insert].
  by rewrite Nat.ltb_irrefl, Nat.eqb_refl.
Qed.

Lemma np_unique_counts_replicate r n :
  np_unique_counts (replicate (S n) r) = [(r, S n)].
Proof.
  unfold np_unique_counts. rewrite unique_insert_replicate.
  rewrite list_fmap_singleton. do 2 f_equal. unfold count_eq.
  assert (filter (λ y, y = r) (replicate (S n) r) = replicate (S n) r) as ->.
  { generalize (S n). intros m. induction m as [|m IH]; [done|].
    cbn [replicate]. rewrite filter_cons, decide_True by done. by f_equal. }
  by rewrite length_replicate.
Qed.

Lemma all_equal_replicate (l : list nat) r :
  (∀ i x, l !! i = Some x → x = r) → l = replicate (length l) r.
Proof.
  intros Hall. induction l as [|a l IH]; [done|]. cbn [length replicate].
  rewrite (Hall 0%nat a) by done. f_equal. apply IH.
  intros i x Hi. by apply (Hall (S i)).
Qed.

Lemma NoDup_subset_length (l k : list nat) :
  NoDup l → (∀ x, x ∈ l → x ∈ k) → (length l ≤ length k)%nat.
Proof. intros Hnd Hsub. by apply submseteq_length, NoDup_submseteq. Qed.

(** What a returning run went through. *)
Lemma engine_stages gaussian h image img k min_size sigma rand h' out n uf :
  (∀ a s c, array_ok a →
     array_ok (gaussian a s c) ∧ height (gaussian a s c) = height a ∧
     width (gaussian a s c) = width a) →
  h !! image = Some img → array_ok img →
  felzenszwalb_huttenlocher gaussian h image k min_size sigma rand
    = Ok (h', (out, n, uf)) →
  let sm := smoothed_of gaussian img sigma in
  array_ok sm ∧ height sm = height img ∧ width sm = width img ∧
  ∃ edges uf1 thr uf2 cc ctr,
    create_graph sm = Ok edges ∧
    Forall (edge_in (height img * width img)) edges ∧
    first_pass k edges (height img * width img) = Ok (uf1, thr) ∧
    wf uf1 ∧ length (parent uf1) = (height img * width img)%nat ∧
    second_pass min_size edges uf1 = Ok uf2 ∧
    wf uf2 ∧ length (parent uf2) = (height img * width img)%nat ∧
    paint rand (ndim img =? 3)%nat (height img) (width img) out
      ((h ++ [sm]) ++ [zeros_like img]) uf2 = Ok (h', uf, cc, ctr) ∧
    out = S (length h) ∧
    wf uf ∧ same_roots (parent uf2) (parent uf) ∧
    length (parent uf) = (height img * width img)%nat ∧
    num_sets uf = num_sets uf2 ∧ n = num_sets uf.
Proof.
  intros Hg Himg Hok Hrun sm.
  assert (Hsm : array_ok sm ∧ height sm = height img ∧ width sm = width img).
  { unfold sm, smoothed_of. destruct (negb _); [by apply Hg | done]. }
  destruct Hsm as (Hsm_ok & Hsm_h & Hsm_w). split_and!; [done..|].
  rewrite (engine_unfold gaussian h image img k min_size sigma rand Himg)
    in Hrun.
  cbv zeta in Hrun. fold sm in Hrun.
  destruct (create_graph_ok sm Hsm_ok) as (edges & Hcg & Hedges).
  rewrite Hsm_h, Hsm_w in Hedges.
  rewrite Hcg in Hrun. cbn [res_bind] in Hrun.
  assert (Hk : py_float k = Ok (float64 k)).
  { destruct (first_pass k edges _) as [r|e] eqn:E; [|done].
    by eapply first_pass_float. }
  destruct (first_pass_ok k _ edges _ Hk Hedges)
    as (uf1 & thr & Hfp & Hwf1 & Hl1 & _).
  destruct (second_pass_ok min_size edges uf1 Hwf1) as (uf2 & Hsp & Hwf2 & Hl2).
  { by rewrite Hl1. }
  rewrite Hfp in Hrun. cbn [res_bind] in Hrun.
  rewrite Hsp in Hrun. cbn [res_bind] in Hrun.
  destruct (paint _ _ _ _ _ _ _) as [[[[h1 uf3] cc] ctr]|] eqn:Hpaint; [|done].
  cbn [res_bind] in Hrun. injection Hrun as <- <- <- <-.
  apply (paint_forest _ _ _ _ _ _ _ _ Hwf2) in Hpaint as Hforest.
  cbn [fst snd] in Hforest. destruct Hforest as (Hwf3 & Hs3 & Hl3 & Hn3).
  exists edges, uf1, thr, uf2, cc, ctr.
  split_and!; try done; lia.
Qed.

(** ** The size floor *)

Lemma settled_crossing par m p d a b :
  settled par m (mk_edge d a b) → ¬ at_least par m p →
  same_set par p a ↔ same_set par p b.
Proof.
  unfold settled, mk_edge. cbn [fst snd]. intros [Hab|[Ha Hb]] Hno.
  - split; intros Hp.
    + by eapply same_set_trans.
    + eapply same_set_trans; [done|]. by apply same_set_sym.
  - split; intros Hp; exfalso; apply Hno.
    + eapply at_least_same_set; [|exact Ha]. by apply same_set_sym.
    + eapply at_least_same_set; [|exact Hb]. by apply same_set_sym.
Qed.

Lemma settled_grid_floor uf h w m edges rs r s :
  wf uf → length (parent uf) = (h * w)%nat →
  (∀ y x, (y < h)%nat → (x + 1 < w)%nat →
          ∃ d, mk_edge d (y * w + x) (y * w + (x + 1)) ∈ edges) →
  (∀ y x, (y + 1 < h)%nat → (x < w)%nat →
          ∃ d, mk_edge d (y * w + x) ((y + 1) * w + x) ∈ edges) →
  Forall (settled (parent uf) m) edges →
  Forall2 (root_of (parent uf)) (seq 0 (length (parent uf))) rs →
  (r, s) ∈ np_unique_counts rs → Z.of_nat s < m →
  np_unique_counts rs = [(r, (h * w)%nat)].
Proof.
  intros Hwf Hlen Hright Hdown Hset Hrs [Hr ->]%np_unique_counts_elem Hsmall.
  rewrite Forall_forall in Hset.
  assert (Hlrs : length rs = length (parent uf)).
  { apply Forall2_length in Hrs. by rewrite length_seq in Hrs. }
  assert (Hlook : ∀ i x, rs !! i = Some x → root_of (parent uf) i x).
  { intros i x Hi.
    destruct (Forall2_lookup_r _ _ _ _ _ Hrs Hi) as (i' & Hi' & Hroot).
    apply lookup_seq in Hi' as [-> _]. done. }
  apply list_elem_of_lookup in Hr as [p Hp].
  pose proof (Hlook p r Hp) as Hpr.
  pose proof (root_of_lt _ _ _ Hpr) as Hplt.
  assert (Hno : ¬ at_least (parent uf) m p).
  { intros (ms & Hnd & Hall & Hge).
    assert (length ms ≤ count_eq r rs)%nat; [|lia].
    rewrite <- index_filter_length. apply NoDup_subset_length; [done|].
    intros x Hx. rewrite Forall_forall in Hall.
    destruct (Hall x Hx) as (r' & Hxr & Hpr').
    rewrite (root_of_functional _ _ _ _ Hpr' Hpr) in Hxr.
    pose proof (root_of_lt _ _ _ Hxr) as Hxlt.
    apply list_elem_of_filter. split; [|apply elem_of_seq; lia].
    destruct (lookup_lt_is_Some_2 rs x) as [rx Hrx]; [lia|].
    rewrite Hrx. f_equal. by eapply root_of_functional; [apply Hlook|]. }
  assert (Hall : ∀ q, (q < h * w)%nat → same_set (parent uf) p q).
  { intros q Hq.
    apply (grid_connected h w (same_set (parent uf) p)) with (p := p);
      [| |lia|done|].
    - intros y x Hy Hx. destruct (Hright y x Hy Hx) as [d Hd].
      by eapply settled_crossing; [apply Hset|].
    - intros y x Hy Hx. destruct (Hdown y x Hy Hx) as [d Hd].
      by eapply settled_crossing; [apply Hset|].
    - by exists r. }
  rewrite (all_equal_replicate rs r).
  - rewrite Hlrs, Hlen. destruct (h * w)%nat as [|n'] eqn:Hn; [lia|].
    apply np_unique_counts_replicate.
  - intros i x Hi. pose proof (Hlook i x Hi) as Hix.
    destruct (Hall i) as (r' & Hpr' & Hir').
    { apply lookup_lt_Some in Hi. lia. }
    rewrite (root_of_functional _ _ _ _ Hpr' Hpr) in Hir'.
    by eapply root_of_functional.
Qed.

Lemma grid_edge_present image edges :
  array_ok image → create_graph image = Ok edges →
  (∀ y x, (y < height image)%nat → (x + 1 < width image)%nat →
     ∃ d, mk_edge d (y * width image + x) (y * width image + (x + 1)) ∈ edges) ∧
  (∀ y x, (y + 1 < height image)%nat → (x < width image)%nat →
     ∃ d, mk_edge d (y * width image + x) ((y + 1) * width image + x) ∈ edges).
Proof.
  intros Hok Hcg. pose proof (create_graph_grid_perm image edges Hcg) as Hperm.
  split; intros y x Hy Hx.
  - destruct (pixel_diff_ok image y x y (x + 1) Hok) as [d Hd]; [lia..|].
    exists d. rewrite Hperm. apply grid_edges_elem. exists y, x.
    split_and!; [done | lia | done |]. by left.
  - destruct (pixel_diff_ok image y x (y + 1) x Hok) as [d Hd]; [lia..|].
    exists d. rewrite Hperm. apply grid_edges_elem. exists y, x.
    split_and!; [lia | done | done |]. by right.
Qed.

(** X9.  The size floor of a run with a positive [min_size], read on the
    [component_sizes] of the forest it returns: the table has one entry per
    segment counted, its sizes add up to the number of pixels, and a segment
    with fewer than [min_size] pixels is left only when it is the whole
    image. *)
Theorem min_size_floor gaussian h image img k min_size sigma rand h' out n uf :
  (∀ a s c, array_ok a →
     array_ok (gaussian a s c) ∧ height (gaussian a s c) = height a ∧
     width (gaussian a s c) = width a) →
  h !! image = Some img → array_ok img → 0 < min_size →
  felzenszwalb_huttenlocher gaussian h image k min_size sigma rand
    = Ok (h', (out, n, uf)) →
  ∃ uf' comps,
    get_component_sizes uf = Ok (uf', comps) ∧
    Z.of_nat (length comps) = n ∧
    sum_list comps.*2 = (height img * width img)%nat ∧
    ∀ r s, (r, s) ∈ comps → Z.of_nat s < min_size →
           comps = [(r, (height img * width img)%nat)].
Proof.
  intros Hg Himg Hok Hpos Hrun.
  destruct (engine_stages gaussian h image img k min_size sigma rand h' out n uf
              Hg Himg Hok Hrun)
    as (Hsm_ok & Hsm_h & Hsm_w & edges & uf1 & thr & uf2 & cc & ctr & Hcg &
        Hedges & Hfp & Hwf1 & Hl1 & Hsp & Hwf2 & Hl2 & Hpaint & Hout & Hwf &
        Hs & Hl & Hn2 & Hn).
  destruct (second_pass_settles min_size edges uf1 Hwf1)
    as (uf2' & Hsp' & _ & _ & _ & _ & _ & Hset); [by rewrite Hl1|].
  rewrite Hsp in Hsp'. injection Hsp' as <-. specialize (Hset Hpos).
  destruct (get_component_sizes_spec uf Hwf) as (par' & rs & Hgc & Hrs & _).
  exists (set_parent uf par'), (np_unique_counts rs).
  split_and!; [done | | |].
  - rewrite np_unique_counts_length, (distinct_roots uf rs Hwf Hrs), Hn.
    symmetry. apply Hwf.
  - rewrite np_unique_counts_snd, sum_list_fmap_with, sum_counts.
    + apply Forall2_length in Hrs. rewrite length_seq in Hrs. lia.
    + apply ascending_NoDup, unique_ascending.
    + intros x. by rewrite unique_elem.
  - intros r s Hin Hsmall.
    destruct (grid_edge_present _ edges Hsm_ok Hcg) as [Hright Hdown].
    rewrite Hsm_h, Hsm_w in Hright, Hdown.
    eapply (settled_grid_floor uf); try done.
    eapply Forall_impl; [exact Hset|]. intros e.
    by apply settled_coarsens, same_roots_coarsens.
Qed.

Lemma min_size_floor_witness :
  let gaussian := fun (a : ndarray) (_ : Q) (_ : bool) => a in
  let img := mkArray UInt8 2 3 None [0; 0; 200; 0; 0; 200]%Q in
  let h := [img] in
  let h' := [img; img; mkArray UInt8 2 3 None [0; 0; 1; 0; 0; 1]%Q] in
  let uf := mkUnionFind [0; 0; 2; 0; 0; 2]%nat [1; 0; 1; 0; 0; 0]%nat 2 in
  (∀ a s c, array_ok a →
     array_ok (gaussian a s c) ∧ height (gaussian a s c) = height a ∧
     width (gaussian a s c) = width a) ∧
  h !! 0%nat = Some img ∧ array_ok img ∧ 0 < 2 ∧
  felzenszwalb_huttenlocher gaussian h 0%nat 10 2 0 (fun n => Z.of_nat n)
    = Ok (h', (2%nat, 2, uf)) ∧
  ∃ uf' comps,
    get_component_sizes uf = Ok (uf', comps) ∧
    Z.of_nat (length comps) = 2 ∧
    sum_list comps.*2 = (height img * width img)%nat ∧
    ∀ r s, (r, s) ∈ comps → Z.of_nat s < 2 →
           comps = [(r, (height img * width img)%nat)].
Proof.
  intros gaussian img h h' uf.
  assert (Hg : ∀ a s c, array_ok a →
     array_ok (gaussian a s c) ∧ height (gaussian a s c) = height a ∧
     width (gaussian a s c) = width a) by (intros a s c Ha; done).
  assert (Himg : h !! 0%nat = Some img) by reflexivity.
  assert (Hok : array_ok img) by reflexivity.
  assert (Hpos : 0 < 2) by lia.
  assert (Hrun : felzenszwalb_huttenlocher gaussian h 0%nat 10 2 0
                   (fun n => Z.of_nat n) = Ok (h', (2%nat, 2, uf)))
    by (vm_compute; reflexivity).
  split_and!; [exact Hg | exact Himg | exact Hok | exact Hpos | exact Hrun |].
  exact (min_size_floor gaussian h 0%nat img 10 2 0 (fun n => Z.of_nat n)
           h' 2%nat 2 uf Hg Himg Hok Hpos Hrun).
Defined.

(** ** Segments are connected regions *)

Lemma region_coarsens E par par' a b :
  coarsens par par' → region E par a b → region E par' a b.
Proof.
  intros Hc. apply (rtsc_congruence id). intros x y [HE Hs].
  split; [done | by apply Hc].
Qed.

Lemma region_subrel (E E' : nat → nat → Prop) par a b :
  (∀ x y, E x y → E' x y) → region E par a b → region E' par a b.
Proof.
  intros HE. apply (rtsc_congruence id). intros x y [Hxy Hs].
  split; [by apply HE | done].
Qed.

Lemma region_same_roots E par par' :
  same_roots par par' →
  (∀ x y, same_set par x y → region E par x y) →
  ∀ x y, same_set par' x y → region E par' x y.
Proof.
  intros Hs Hinv x y Hxy.
  apply (region_coarsens E par par'); [by apply same_roots_coarsens|].
  apply Hinv. by apply (same_roots_same_set par par').
Qed.

Lemma region_merge E uf par' u v ru rv r' :
  wf uf → length par' = length (parent uf) →
  E u v → root_of (parent uf) u ru → root_of (parent uf) v rv →
  r' = ru ∨ r' = rv →
  (∀ x r, root_of (parent uf) x r →
          root_of par' x (if decide (r = ru ∨ r = rv) then r' else r)) →
  (∀ x y, same_set (parent uf) x y → region E (parent uf) x y) →
  ∀ x y, same_set par' x y → region E par' x y.
Proof.
  intros Hwf Hlen HE Hru Hrv Hr' Hmap Hinv.
  assert (Hco : coarsens (parent uf) par').
  { intros x y (r & Hx & Hy). eexists. split; by apply Hmap. }
  assert (Hmono : ∀ a b, same_set (parent uf) a b → region E par' a b).
  { intros a b Hab. by apply (region_coarsens E (parent uf)), Hinv. }
  assert (Huv : region E par' u v).
  { apply rtsc_lr. split; [done|]. apply Hmap in Hru, Hrv.
    rewrite decide_True in Hru by auto. rewrite decide_True in Hrv by auto.
    by exists r'. }
  assert (Hin : ∀ x rx, root_of (parent uf) x rx → rx = ru ∨ rx = rv →
                        region E par' x u).
  { intros x rx Hx [->| ->].
    - apply Hmono. by exists ru.
    - trans v; [|by symmetry]. apply Hmono. by exists rv. }
  intros x y (r0 & Hx' & Hy').
  destruct (root_exists uf x Hwf) as [rx Hx].
  { rewrite <- Hlen. by eapply root_of_lt. }
  destruct (root_exists uf y Hwf) as [ry Hy].
  { rewrite <- Hlen. by eapply root_of_lt. }
  pose proof (root_of_functional _ _ _ _ Hx' (Hmap _ _ Hx)) as Hfx.
  pose proof (root_of_functional _ _ _ _ Hy' (Hmap _ _ Hy)) as Hfy.
  destruct (decide (rx = ru ∨ rx = rv)) as [Hxin|Hxout],
           (decide (ry = ru ∨ ry = rv)) as [Hyin|Hyout].
  - trans u; [by eapply Hin|]. symmetry. by eapply Hin.
  - exfalso. apply Hyout. destruct Hr'; [left|right]; congruence.
  - exfalso. apply Hxout. destruct Hr'; [left|right]; congruence.
  - apply Hmono. exists rx. split; [done|]. congruence.
Qed.

Lemma root_of_new n x r : root_of (parent (new n)) x r → r = x.
Proof.
  intros Hr. pose proof (root_of_lt _ _ _ Hr) as Hlt. cbn in Hlt, Hr.
  rewrite length_seq in Hlt.
  eapply root_of_root; [|exact Hr]. by apply lookup_seq_lt.
Qed.

Lemma first_pass_regions k fk edges n :
  py_float k = Ok fk →
  Forall (edge_in n) edges →
  ∃ uf thr, first_pass k edges n = Ok (uf, thr) ∧
    wf uf ∧ length (parent uf) = n ∧
    ∀ x y, same_set (parent uf) x y →
           region (edge_between edges) (parent uf) x y.
Proof.
  intros Hk Hedges. rewrite (first_pass_fold k fk) by done.
  destruct (res_fold_inv
              (λ st : UnionFind * list Q,
                 wf st.1 ∧ length (parent st.1) = n ∧ length st.2 = n ∧
                 ∀ x y, same_set (parent st.1) x y →
                        region (edge_between edges) (parent st.1) x y)
              (merge_edge k) edges (new n, replicate n fk))
    as ([uf thr] & Hrun & Hwf & Hlen & Hthr & Hinv).
  { cbn [fst snd]. split_and!; [apply wf_new | by cbn; rewrite length_seq |
                      by rewrite length_replicate |].
    intros x y (r & Hx & Hy). apply root_of_new in Hx, Hy. subst. done. }
  { intros [uf thr] [[w u] v] Hin (Hwf & Hlen & Hthr & Hinv).
    cbn [fst snd] in *.
    rewrite Forall_forall in Hedges. destruct (Hedges _ Hin) as [Hu Hv].
    cbn [fst snd] in *.
    destruct (merge_edge_spec k fk uf thr w u v Hk Hwf)
      as (ru & rv & tu & tv & uf' & thr' & Hru & Hrv & _ & _ & Hm & Hwf' &
          Hl' & Ht' & Hkeep & Hjoin);
      [congruence | lia | lia |].
    exists (uf', thr'). cbn [fst snd].
    split_and!; [done | done | lia | lia |].
    destruct (decide (ru = rv)) as [Heq|Hne].
    { destruct Hkeep as (_ & _ & Hs); [by left|].
      by apply (region_same_roots _ (parent uf)). }
    destruct (Qle_bool (float64 w) (py_min tu tv)) eqn:Hle.
    - destruct Hjoin as (_ & r' & Hr' & _ & _ & _ & Hmap); [done | done |].
      apply (region_merge _ uf (parent uf') u v ru rv r'); try done.
      by exists w.
    - destruct Hkeep as (_ & _ & Hs); [by right|].
      by apply (region_same_roots _ (parent uf)). }
  by exists uf, thr.
Qed.

Lemma second_pass_regions min_size edges uf :
  wf uf → Forall (edge_in (length (parent uf))) edges →
  (∀ x y, same_set (parent uf) x y →
          region (edge_between edges) (parent uf) x y) →
  ∃ uf', second_pass min_size edges uf = Ok uf' ∧
    ∀ x y, same_set (parent uf') x y →
           region (edge_between edges) (parent uf') x y.
Proof.
  intros Hwf Hedges Hinv. unfold second_pass.
  destruct (0 <? min_size); [|by exists uf].
  destruct (res_fold_inv
    (λ uf' : UnionFind,
       wf uf' ∧ length (parent uf') = length (parent uf) ∧
       ∀ x y, same_set (parent uf') x y →
              region (edge_between edges) (parent uf') x y)
    (cleanup_edge min_size) edges uf)
    as (uf' & Hfold & _ & _ & Hinv'); [done | |by exists uf'].
  intros uf1 [[w u] v] Hin (Hwf1 & Hlen1 & Hinv1).
  rewrite Forall_forall in Hedges. destruct (Hedges _ Hin) as [Hu Hv].
  cbn [fst snd] in *.
  destruct (cleanup_edge_step min_size uf1 w u v Hwf1)
    as (uf2 & Hstep & Hwf2 & Hlen2 & _ & _ & _ & Hcase); [lia | lia |].
  exists uf2. split_and!; [done | done | lia |].
  destruct Hcase as [Hs|(ru & rv & r' & Hru & Hrv & Hr' & Hmap)].
  - by apply (region_same_roots _ (parent uf1)).
  - apply (region_merge _ uf1 (parent uf2) u v ru rv r'); try done.
    by exists w.
Qed.

Lemma edge_between_grid image edges a b :
  create_graph image = Ok edges → edge_between edges a b →
  grid_next (height image) (width image) a b.
Proof.
  intros Hcg [d Hd]. rewrite (create_graph_grid_perm image edges Hcg) in Hd.
  apply grid_edges_elem in Hd as (y & x & Hy & Hx & -> & Hcase).
  exists y, x. split_and!; [done..|].
  destruct Hcase as [(? & ? & _)|(? & ? & _)]; [by left | by right].
Qed.

(** X10.  Every segment of a returned run is a 4-connected region: two
    pixels that the returned forest puts in one set are joined by a chain of
    horizontal and vertical neighbour steps, every step between two pixels of
    that same set. *)
Theorem segments_are_connected gaussian h image img k min_size sigma rand
    h' out n uf :
  (∀ a s c, array_ok a →
     array_ok (gaussian a s c) ∧ height (gaussian a s c) = height a ∧
     width (gaussian a s c) = width a) →
  h !! image = Some img → array_ok img →
  felzenszwalb_huttenlocher gaussian h image k min_size sigma rand
    = Ok (h', (out, n, uf)) →
  ∀ p q, same_set (parent uf) p q →
    region (grid_next (height img) (width img)) (parent uf) p q.
Proof.
  intros Hg Himg Hok Hrun.
  destruct (engine_stages gaussian h image img k min_size sigma rand h' out n uf
              Hg Himg Hok Hrun)
    as (Hsm_ok & Hsm_h & Hsm_w & edges & uf1 & thr & uf2 & cc & ctr & Hcg &
        Hedges & Hfp & Hwf1 & Hl1 & Hsp & Hwf2 & Hl2 & Hpaint & Hout & Hwf &
        Hs & Hl & Hn2 & Hn).
  destruct (first_pass_regions k _ edges _ (first_pass_float _ _ _ _ Hfp) Hedges)
    as (uf1' & thr' & Hfp' & _ & _ & Hinv1).
  rewrite Hfp in Hfp'. injection Hfp' as <- <-.
  destruct (second_pass_regions min_size edges uf1 Hwf1) as (uf2' & Hsp' & Hinv2);
    [by rewrite Hl1 | done |].
  rewrite Hsp in Hsp'. injection Hsp' as <-.
  intros p q Hpq.
  apply (region_subrel (edge_between edges)).
  { intros a b Hab. rewrite <- Hsm_h, <- Hsm_w.
    by eapply edge_between_grid. }
  by apply (region_same_roots _ (parent uf2)).
Qed.

Lemma segments_are_connected_witness :
  let gaussian := fun (a : ndarray) (_ : Q) (_ : bool) => a in
  let img := mkArray UInt8 2 3 None [0; 0; 200; 0; 0; 200]%Q in
  let h := [img] in
  let h' := [img; img; mkArray UInt8 2 3 None [0; 0; 1; 0; 0; 1]%Q] in
  let uf := mkUnionFind [0; 0; 2; 0; 0; 2]%nat [1; 0; 1; 0; 0; 0]%nat 2 in
  (∀ a s c, array_ok a →
     array_ok (gaussian a s c) ∧ height (gaussian a s c) = height a ∧
     width (gaussian a s c) = width a) ∧
  h !! 0%nat = Some img ∧ array_ok img ∧
  felzenszwalb_huttenlocher gaussian h 0%nat 10 0 0 (fun n => Z.of_nat n)
    = Ok (h', (2%nat, 2, uf)) ∧
  ∀ p q, same_set (parent uf) p q →
    region (grid_next (height img) (width img)) (parent uf) p q.
Proof.
  intros gaussian img h h' uf.
  assert (Hg : ∀ a s c, array_ok a →
     array_ok (gaussian a s c) ∧ height (gaussian a s c) = height a ∧
     width (gaussian a s c) = width a) by (intros a s c Ha; done).
  assert (Himg : h !! 0%nat = Some img) by reflexivity.
  assert (Hok : array_ok img) by reflexivity.
  assert (Hrun : felzenszwalb_huttenlocher gaussian h 0%nat 10 0 0
                   (fun n => Z.of_nat n) = Ok (h', (2%nat, 2, uf)))
    by (vm_compute; reflexivity).
  split_and!; [exact Hg | exact Himg | exact Hok | exact Hrun |].
  exact (segments_are_connected gaussian h 0%nat img 10 0 0
           (fun n => Z.of_nat n) h' 2%nat 2 uf Hg Himg Hok Hrun).
Defined.

(** ** The two ends of the scale parameter *)

Lemma Qle_add_nonneg (w k : Q) : (0 <= w)%Q → (k <= w + k)%Q.
Proof.
  intros Hw. apply (Qle_trans _ (0 + k)%Q).
  - rewrite Qplus_0_l. apply Qle_refl.
  - apply Qplus_le_compat; [done | apply Qle_refl].
Qed.

Lemma one_set_count uf :
  wf uf → (0 < length (parent uf))%nat →
  (∀ p q, (p < length (parent uf))%nat → (q < length (parent uf))%nat →
          same_set (parent uf) p q) →
  num_sets uf = 1.
Proof.
  intros Hwf Hpos Hall.
  destruct (find_all_spec uf Hwf) as (par' & rs & _ & Hrs & _).
  assert (Hlrs : length rs = length (parent uf)).
  { apply Forall2_length in Hrs. by rewrite length_seq in Hrs. }
  destruct (root_exists uf 0 Hwf Hpos) as [r Hr].
  assert (rs = replicate (length rs) r) as Hrep.
  { apply all_equal_replicate. intros i x Hi.
    destruct (Forall2_lookup_r _ _ _ _ _ Hrs Hi) as (i' & Hi' & Hroot).
    apply lookup_seq in Hi' as [-> Hlt]. cbn in Hroot.
    destruct (Hall 0%nat i Hpos Hlt) as (r' & H0 & Hi').
    rewrite (root_of_functional _ _ _ _ H0 Hr) in Hi'.
    by eapply root_of_functional. }
  rewrite (wf_count uf Hwf), <- (distinct_roots uf rs Hwf Hrs).
  rewrite <- np_unique_counts_length, Hrep, Hlrs.
  destruct (length (parent uf)) as [|m]; [lia|].
  by rewrite np_unique_counts_replicate.
Qed.

Lemma float64_add_nonneg (w k : Q) :
  (0 <= w)%Q → (float64 k <= float64 (float64 w + float64 k))%Q.
Proof.
  intros Hw. rewrite <- (float64_idem k) at 1. apply float64_mono.
  apply Qle_add_nonneg. by apply float64_nonneg.
Qed.

Lemma first_pass_low_contrast k edges n :
  py_float k = Ok (float64 k) →
  Forall (edge_in n) edges →
  Forall (λ e, (0 <= weight_of e)%Q ∧ (weight_of e <= k)%Q) edges →
  ∃ uf thr, first_pass k edges n = Ok (uf, thr) ∧
    Forall (λ e : edge, same_set (parent uf) (snd (fst e)) (snd e)) edges.
Proof.
  intros Hfk Hedges Hweights. rewrite (first_pass_fold k _ _ _ Hfk).
  destruct (res_fold_each
    (λ st : UnionFind * list Q,
       wf st.1 ∧ length (parent st.1) = n ∧ length st.2 = n ∧
       Forall (λ t, (float64 k <= t)%Q) st.2)
    (λ (e : edge) (st : UnionFind * list Q),
       same_set (parent st.1) (snd (fst e)) (snd e))
    (merge_edge k) edges (new n, replicate n (float64 k)))
    as ([uf thr] & Hrun & _ & Hall & _).
  { cbn [fst snd]. split_and!; [apply wf_new | by cbn; rewrite length_seq |
      by rewrite length_replicate |].
    apply Forall_forall. intros t [-> _]%elem_of_replicate. apply Qle_refl. }
  { intros [uf thr] [[w u] v] Hin (Hwf & Hlen & Hthr & Hk).
    cbn [fst snd] in *.
    rewrite Forall_forall in Hedges, Hweights.
    destruct (Hedges _ Hin) as [Hu Hv].
    destruct (Hweights _ Hin) as [Hw0 Hwk]. cbn [fst snd weight_of] in *.
    destruct (merge_edge_spec k _ uf thr w u v Hfk Hwf)
      as (ru & rv & tu & tv & uf' & thr' & Hru & Hrv & Htu & Htv & Hm & Hwf' &
          Hl' & Ht' & Hkeep & Hjoin);
      [congruence | lia | lia |].
    exists (uf', thr'). cbn [fst snd].
    destruct (decide (ru = rv)) as [<-|Hne].
    { destruct Hkeep as (_ & -> & Hs); [by left|].
      split_and!; [done | done | lia | lia | done | |].
      - exists ru. split; by apply Hs.
      - intros b. by apply same_roots_coarsens. }
    assert (Hle : Qle_bool (float64 w) (py_min tu tv) = true).
    { apply Qle_bool_iff. rewrite Forall_lookup in Hk.
      destruct (py_min_spec tu tv) as (_ & _ & [-> | ->]);
        (eapply Qle_trans; [exact (float64_mono _ _ Hwk)|]); by eapply Hk. }
    destruct (Hjoin Hne Hle) as (_ & r' & _ & Hur' & Hvr' & -> & Hmap).
    split_and!; [done | done | lia | lia | | by exists r' |].
    - apply Forall_insert; [done|]. by apply float64_add_nonneg.
    - intros b (r & Hx & Hy). eexists. split; by apply Hmap. }
  by exists uf, thr.
Qed.

(** X11.  The upper end of the scale parameter.  When every edge of the
    graph has a weight between 0 and [k], a returning run on a non-empty
    image reports one segment, and the returned forest has all the pixels in
    one set. *)
Theorem low_contrast_one_segment gaussian h image img k min_size sigma rand
    edges h' out n uf :
  (∀ a s c, array_ok a →
     array_ok (gaussian a s c) ∧ height (gaussian a s c) = height a ∧
     width (gaussian a s c) = width a) →
  h !! image = Some img → array_ok img →
  (0 < height img * width img)%nat →
  create_graph (smoothed_of gaussian img sigma) = Ok edges →
  Forall (λ e, (0 <= weight_of e)%Q ∧ (weight_of e <= k)%Q) edges →
  felzenszwalb_huttenlocher gaussian h image k min_size sigma rand
    = Ok (h', (out, n, uf)) →
  n = 1 ∧
  ∀ p q, (p < height img * width img)%nat →
         (q < height img * width img)%nat → same_set (parent uf) p q.
Proof.
  intros Hg Himg Hok Hpos Hcg' Hweights Hrun.
  destruct (engine_stages gaussian h image img k min_size sigma rand h' out n uf
              Hg Himg Hok Hrun)
    as (Hsm_ok & Hsm_h & Hsm_w & edges' & uf1 & thr & uf2 & cc & ctr & Hcg &
        Hedges & Hfp & Hwf1 & Hl1 & Hsp & Hwf2 & Hl2 & Hpaint & Hout & Hwf &
        Hs & Hl & Hn2 & Hn).
  rewrite Hcg' in Hcg. injection Hcg as <-.
  destruct (first_pass_low_contrast k edges _ (first_pass_float _ _ _ _ Hfp)
              Hedges Hweights)
    as (uf1' & thr' & Hfp' & Hall1).
  rewrite Hfp in Hfp'. injection Hfp' as <- <-.
  destruct (second_pass_settles min_size edges uf1 Hwf1)
    as (uf2' & Hsp' & _ & _ & Hco & _); [by rewrite Hl1|].
  rewrite Hsp in Hsp'. injection Hsp' as <-.
  assert (Hall : ∀ d a b, mk_edge d a b ∈ edges → same_set (parent uf) a b).
  { intros d a b Hin. rewrite Forall_forall in Hall1.
    apply (same_roots_coarsens _ _ Hs), Hco. exact (Hall1 _ Hin). }
  destruct (grid_edge_present _ edges Hsm_ok Hcg') as [Hright Hdown].
  rewrite Hsm_h, Hsm_w in Hright, Hdown.
  assert (Hone : ∀ p q, (p < height img * width img)%nat →
                        (q < height img * width img)%nat →
                        same_set (parent uf) p q).
  { intros p q Hp Hq.
    apply (grid_connected (height img) (width img) (same_set (parent uf) p))
      with (p := p); [| |done|done|].
    - intros y x Hy Hx. destruct (Hright y x Hy Hx) as [d Hd].
      apply Hall in Hd. split; intros Hpa.
      + by eapply same_set_trans.
      + eapply same_set_trans; [done|]. by apply same_set_sym.
    - intros y x Hy Hx. destruct (Hdown y x Hy Hx) as [d Hd].
      apply Hall in Hd. split; intros Hpa.
      + by eapply same_set_trans.
      + eapply same_set_trans; [done|]. by apply same_set_sym.
    - apply same_set_refl; [done|lia]. }
  split; [|done]. rewrite Hn. apply one_set_count; [done | lia |].
  rewrite Hl. done.
Qed.

Lemma low_contrast_one_segment_witness :
  let gaussian := fun (a : ndarray) (_ : Q) (_ : bool) => a in
  let img := mkArray UInt8 2 2 None [7; 7; 7; 7]%Q in
  let h := [img] in
  let edges := [mk_edge 0 0 1; mk_edge 0 0 2; mk_edge 0 1 3; mk_edge 0 2 3] in
  let h' := [img; img; mkArray UInt8 2 2 None [0; 0; 0; 0]%Q] in
  let uf := mkUnionFind [0; 0; 0; 0]%nat [1; 0; 0; 0]%nat 1 in
  (∀ a s c, array_ok a →
     array_ok (gaussian a s c) ∧ height (gaussian a s c) = height a ∧
     width (gaussian a s c) = width a) ∧
  h !! 0%nat = Some img ∧ array_ok img ∧
  (0 < height img * width img)%nat ∧
  create_graph (smoothed_of gaussian img 0) = Ok edges ∧
  Forall (λ e, (0 <= weight_of e)%Q ∧ (weight_of e <= 0)%Q) edges ∧
  felzenszwalb_huttenlocher gaussian h 0%nat 0 0 0 (fun _ => 0)
    = Ok (h', (2%nat, 1, uf)) ∧
  1 = 1 ∧
  ∀ p q, (p < height img * width img)%nat →
         (q < height img * width img)%nat → same_set (parent uf) p q.
Proof.
  intros gaussian img h edges h' uf.
  assert (Hg : ∀ a s c, array_ok a →
     array_ok (gaussian a s c) ∧ height (gaussian a s c) = height a ∧
     width (gaussian a s c) = width a) by (intros a s c Ha; done).
  assert (Himg : h !! 0%nat = Some img) by reflexivity.
  assert (Hok : array_ok img) by reflexivity.
  assert (Hpos : (0 < height img * width img)%nat) by (cbn; lia).
  assert (Hcg : create_graph (smoothed_of gaussian img 0) = Ok edges)
    by (vm_compute; reflexivity).
  assert (Hweights :
    Forall (λ e, (0 <= weight_of e)%Q ∧ (weight_of e <= 0)%Q) edges).
  { repeat (constructor; [split; apply Qle_refl|]). constructor. }
  assert (Hrun : felzenszwalb_huttenlocher gaussian h 0%nat 0 0 0
                   (fun _ => 0) = Ok (h', (2%nat, 1, uf)))
    by (vm_compute; reflexivity).
  split; [exact Hg|]. split; [exact Himg|]. split; [exact Hok|].
  split; [exact Hpos|]. split; [exact Hcg|]. split; [exact Hweights|].
  split; [exact Hrun|].
  exact (low_contrast_one_segment gaussian h 0%nat img 0 0 0 (fun _ => 0)
           edges h' 2%nat 1 uf Hg Himg Hok Hpos Hcg Hweights Hrun).
Defined.




Lemma Qsum_nonneg l : Forall (λ q, (0 <= q)%Q) l → (0 <= Qsum l)%Q.
Proof.
  induction 1 as [|q l Hq _ IH]; [apply Qle_refl|]. cbn [Qsum foldr].
  apply (Qle_trans _ (0 + 0)%Q); [by rewrite Qplus_0_l; apply Qle_refl|].
  by apply Qplus_le_compat.
Qed.








(** ** The coloured output *)

Lemma res_fold_cat {A S} (body : S → A → res S) l1 l2 s :
  res_fold body (l1 ++ l2) s =
  let? s' := res_fold body l1 s in res_fold body l2 s'.
Proof.
  revert s. induction l1 as [|a l1 IH]; intros s; [done|].
  cbn [app res_fold]. destruct (body s a); [|done]. cbn [res_bind]. apply IH.
Qed.

Lemma res_fold_fmap {A B S} (body : S → B → res S) (f : A → B) l s :
  res_fold body (f <$> l) s = res_fold (λ s a, body s (f a)) l s.
Proof.
  revert s. induction l as [|a l IH]; intros s; [done|].
  csimpl. destruct (body s (f a)); [|done]. cbn [res_bind]. apply IH.
Qed.

Lemma res_fold_nested {A B S} (body : A → S → B → res S) (g : list B) l s :
  res_fold (λ s a, res_fold (body a) g s) l s =
  res_fold (λ s (ab : A * B), body ab.1 s ab.2) (l ≫= λ a, pair a <$> g) s.
Proof.
  revert s. induction l as [|a l IH]; intros s; [done|].
  rewrite bind_cons, res_fold_cat, res_fold_fmap. cbn [res_fold fst snd].
  destruct (res_fold (body a) g s); [|done]. cbn [res_bind]. apply IH.
Qed.

Lemma res_fold_ok_each {A S} (P : S → Prop) (Q : A → S → Prop)
    (body : S → A → res S) l : ∀ s s',
  P s →
  (∀ s a s', a ∈ l → P s → body s a = Ok s' →
     P s' ∧ Q a s' ∧ ∀ b, Q b s → Q b s') →
  res_fold body l s = Ok s' →
  P s' ∧ Forall (λ a, Q a s') l ∧ ∀ b, Q b s → Q b s'.
Proof.
  induction l as [|a l IH]; intros s s' HP Hbody Hfold.
  - injection Hfold as <-. by split_and!.
  - cbn [res_fold] in Hfold. destruct (body s a) as [s1|] eqn:Hs1; [|done].
    cbn [res_bind] in Hfold.
    destruct (Hbody s a s1) as (HP1 & HQ1 & Hmono1); [by left | done | done |].
    destruct (IH s1 s' HP1) as (HP' & Hall & Hmono); [|done|].
    { intros s2 b s3 Hb. apply Hbody. by right. }
    split_and!; [done | | by auto]. constructor; [by apply Hmono | done].
Qed.

Lemma splice_lookup_other {A} (l v : list A) off j :
  (off + length v ≤ length l)%nat →
  (j < off)%nat ∨ (off + length v ≤ j)%nat →
  (take off l ++ v ++ drop (off + length v) l) !! j = l !! j.
Proof.
  intros Hlen [Hj|Hj].
  - rewrite lookup_app_l by (rewrite length_take; lia).
    by apply lookup_take_lt.
  - rewrite lookup_app_r by (rewrite length_take; lia).
    rewrite length_take, lookup_app_r by lia.
    rewrite lookup_drop. f_equal. lia.
Qed.

Lemma splice_take_drop {A} (l v : list A) off :
  (off ≤ length l)%nat →
  take (length v) (drop off (take off l ++ v ++ drop (off + length v) l)) = v.
Proof.
  intros Hlen. rewrite drop_app_length' by (rewrite length_take; lia).
  by rewrite take_app_length.
Qed.

Lemma np_pixel_range a y x px :
  np_pixel a y x = Ok px → (y < height a)%nat ∧ (x < width a)%nat.
Proof.
  unfold np_pixel.
  destruct (Nat.ltb_spec y (height a)), (Nat.ltb_spec x (width a)); done.
Qed.

Lemma np_store_inv a y x v a' :
  np_store a y x v = Ok a' →
  length v ≠ 1%nat ∨ pixel_len a = 1%nat →
  (y < height a)%nat ∧ (x < width a)%nat ∧ length v = pixel_len a ∧
  a' = mkArray (dt a) (height a) (width a) (channels a)
         (take ((y * width a + x) * pixel_len a) (data a) ++ v ++
          drop ((y * width a + x) * pixel_len a + pixel_len a) (data a)).
Proof.
  unfold np_store. intros Hst Hv.
  destruct (Nat.ltb_spec y (height a)), (Nat.ltb_spec x (width a)); try done.
  cbn [andb] in Hst.
  destruct (Nat.eqb_spec (length v) (pixel_len a)) as [Heq|Hne].
  - cbn [res_bind] in Hst. by injection Hst as <-.
  - destruct v as [|s [|]]; try done. cbn [length] in *. lia.
Qed.

Lemma np_store_pixel a y x v :
  array_ok a → (y < height a)%nat → (x < width a)%nat →
  length v = pixel_len a →
  let a' := mkArray (dt a) (height a) (width a) (channels a)
         (take ((y * width a + x) * pixel_len a) (data a) ++ v ++
          drop ((y * width a + x) * pixel_len a + pixel_len a) (data a)) in
  array_ok a' ∧ np_pixel a' y x = Ok v ∧
  ∀ y0 x0, (y0 < height a)%nat → (x0 < width a)%nat → (y0, x0) ≠ (y, x) →
           np_pixel a' y0 x0 = np_pixel a y0 x0.
Proof.
  intros Hok Hy Hx Hv a'. unfold array_ok in Hok.
  set (c := pixel_len a) in *. set (off := ((y * width a + x) * c)%nat).
  assert (Hoff : (off + c ≤ length (data a))%nat).
  { rewrite Hok. unfold off. pose proof (pixel_index_bound _ _ _ _ Hy Hx). nia. }
  assert (Hc' : pixel_len a' = c) by done.
  split_and!.
  - unfold array_ok. rewrite Hc'. cbn [data height width a'].
    rewrite !length_app, length_take, length_drop. fold c off. lia.
  - unfold np_pixel. rewrite Hc'. cbn [data height width a'].
    replace (y <? height a)%nat with true by (symmetry; by apply Nat.ltb_lt).
    replace (x <? width a)%nat with true by (symmetry; by apply Nat.ltb_lt).
    cbn [andb]. fold off. rewrite <- Hv.
    rewrite splice_take_drop by lia. by rewrite Nat.eqb_refl.
  - intros y0 x0 Hy0 Hx0 Hne. unfold np_pixel. rewrite Hc'.
    cbn [data height width a']. fold c off.
    assert (take c (drop ((y0 * width a + x0) * c)
              (take off (data a) ++ v ++ drop (off + c) (data a))) =
            take c (drop ((y0 * width a + x0) * c) (data a))) as ->; [|done].
    apply list_eq. intros i. rewrite !lookup_take.
    case_decide; [|done]. rewrite !lookup_drop. rewrite <- Hv.
    apply splice_lookup_other; [lia|]. rewrite Hv. unfold off.
    assert (y0 * width a + x0 ≠ y * width a + x)%nat as Hidx.
    { intros Heq. apply Hne.
      by destruct (grid_coord_inj (width a) y0 x0 y x) as [-> ->]. }
    destruct (decide (y0 * width a + x0 < y * width a + x)%nat); [left|right];
      nia.
Qed.

Lemma randint_colour rand ctr size : colour_ok (randint rand ctr size).1.
Proof.
  unfold randint, colour_ok. cbn [fst]. apply Forall_fmap, Forall_forall.
  intros i _. cbn. eexists. split; [done|]. apply Z.mod_pos_bound. lia.
Qed.

Lemma paint_pixel_step rand img0 uf0 out y x st st' :
  paint_inv uf0 img0 out st →
  paint_pixel rand (ndim img0 =? 3)%nat (width img0) out y st x = Ok st' →
  paint_inv uf0 img0 out st' ∧
  painted uf0 (width img0) out (y, x) st' ∧
  ∀ b, painted uf0 (width img0) out b st → painted uf0 (width img0) out b st'.
Proof.
  destruct st as [[[h uf] cc] ctr].
  intros (Hwf & Hs & (a & Ha & Hok & (Hh & Hw & Hch) & Hdt) & Hcc).
  unfold paint_pixel.
  destruct (find uf _) as [[uf' root]|] eqn:Hf; [|done]. cbn [res_bind].
  apply (find_ok_inv _ _ _ _ Hwf) in Hf
    as (Hwf' & Hs' & _ & _ & _ & k & Hk & Hroot).
  apply np_index_nonneg_inv in Hk; [|lia]. apply Nat2Z.inj in Hk. subst k.
  apply Hs in Hroot.
  assert (Hstep : ∀ c cc' ctr',
    length c = (if (ndim img0 =? 3)%nat then 3%nat else 1%nat) →
    colour_ok c → cc' !! root = Some c →
    (∀ r c0, cc !! r = Some c0 → cc' !! r = Some c0) →
    (∀ r c0, cc' !! r = Some c0 → r = root ∨ cc !! r = Some c0) →
    (let? h := heap_store h out y x c in Ok (h, uf', cc', ctr')) = Ok st' →
    paint_inv uf0 img0 out st' ∧
    painted uf0 (width img0) out (y, x) st' ∧
    ∀ b, painted uf0 (width img0) out b (h, uf, cc, ctr) →
         painted uf0 (width img0) out b st').
  { intros c cc' ctr' Hlc Hcol Hnew Hkeep Hfrom Hrun.
    unfold heap_store, heap_get in Hrun. rewrite Ha in Hrun.
    cbn [res_bind] in Hrun.
    destruct (np_store a y x c) as [a'|] eqn:Hst; [|done].
    cbn [res_bind] in Hrun. injection Hrun as <-.
    apply np_store_inv in Hst as (Hy & Hx & Hlen & ->).
    2:{ rewrite Hlc. unfold ndim, pixel_len. rewrite Hch.
        destruct (channels img0); cbn; [left; lia | by right]. }
    destruct (np_store_pixel a y x c Hok Hy Hx Hlen) as (Hok' & Hsame & Hother).
    cbv zeta in Hok', Hsame, Hother. rewrite Hw in Hsame, Hother, Hok'.
    assert (Hlk : ∀ b, <[out := b]> h !! out = Some b).
    { intros b. apply list_lookup_insert_eq. by eapply lookup_lt_Some. }
    split_and!.
    - split_and!; [done | by eapply same_roots_trans | |].
      + eexists. split; [apply Hlk|]. rewrite Hw. split_and!; try done.
      + intros r c0 Hr. destruct (Hfrom r c0 Hr) as [->|Hold]; [|by eauto].
        rewrite Hnew in Hr. by injection Hr as <-.
    - eexists _, root, c. rewrite Hw. split_and!; [apply Hlk | done | done | done].
    - intros [y0 x0] (a0 & r0 & c0 & Ha0 & Hr0 & Hc0 & Hp0).
      rewrite Ha in Ha0. injection Ha0 as <-. cbn [fst snd] in *.
      eexists _, r0, c0. rewrite Hw. cbn [fst snd].
      split_and!; [apply Hlk | done | by apply Hkeep |].
      destruct (decide ((y0, x0) = (y, x))) as [[= -> ->]|Hne].
      + rewrite (root_of_functional _ _ _ _ Hr0 Hroot) in Hc0.
        apply Hkeep in Hc0. rewrite Hnew in Hc0. injection Hc0 as <-. done.
      + apply np_pixel_range in Hp0 as Hrange. destruct Hrange.
        rewrite Hother; [done | lia | lia | done]. }
  destruct (cc !! root) as [c|] eqn:Hc0.
  - intros Hrun. destruct (Hcc _ _ Hc0) as [Hlc Hcol].
    apply (Hstep c cc ctr); try done. by right.
  - pose proof (randint_length rand ctr
                  (if (ndim img0 =? 3)%nat then 3 else 1)) as Hrl.
    pose proof (randint_colour rand ctr
                  (if (ndim img0 =? 3)%nat then 3 else 1)) as Hrc.
    destruct (randint rand ctr _) as [c ctr']. cbn [fst] in Hrl, Hrc.
    intros Hrun. apply (Hstep c (<[root := c]> cc) ctr'); try done.
    + apply lookup_insert_eq.
    + intros r c0 Hr. rewrite lookup_insert_ne; [done|]. congruence.
    + intros r c0. rewrite lookup_insert. case_decide; [by left | by right].
Qed.

Lemma paint_all rand img0 uf0 out h st' :
  wf uf0 →
  (∃ a, h !! out = Some a ∧ array_ok a ∧ same_shape a img0 ∧ dt a = dt img0) →
  paint rand (ndim img0 =? 3)%nat (height img0) (width img0) out h uf0
    = Ok st' →
  paint_inv uf0 img0 out st' ∧
  ∀ y x, (y < height img0)%nat → (x < width img0)%nat →
         painted uf0 (width img0) out (y, x) st'.
Proof.
  intros Hwf Hout. unfold paint, paint_row.
  rewrite (res_fold_nested
             (λ y st x, paint_pixel rand (ndim img0 =? 3)%nat (width img0)
                          out y st x)).
  intros Hrun.
  apply (res_fold_ok_each (paint_inv uf0 img0 out)
           (painted uf0 (width img0) out)) in Hrun as (Hinv & Hall & _).
  - split; [done|]. intros y x Hy Hx. rewrite Forall_forall in Hall.
    apply Hall. apply list_elem_of_bind. exists y.
    split; [|apply elem_of_seq; lia].
    apply list_elem_of_fmap. exists x. split; [done|]. apply elem_of_seq. lia.
  - split_and!; [done | apply same_roots_refl | done |].
    intros r c. by rewrite lookup_empty.
  - intros s [y x] s' _ Hinv Hpx. cbn [fst snd] in Hpx.
    by apply (paint_pixel_step rand img0 uf0 out y x s s').
Qed.

(** X13.  The output of a returning run.  The array at the returned location
    has the input's shape and element type and a buffer of matching length;
    every pixel of it holds a colour drawn from 0..254; and two pixels that
    the returned forest puts in one set hold the same colour. *)
Theorem output_paints_segments gaussian h image img k min_size sigma rand
    h' out n uf :
  (∀ a s c, array_ok a →
     array_ok (gaussian a s c) ∧ height (gaussian a s c) = height a ∧
     width (gaussian a s c) = width a) →
  h !! image = Some img → array_ok img →
  felzenszwalb_huttenlocher gaussian h image k min_size sigma rand
    = Ok (h', (out, n, uf)) →
  ∃ a, h' !! out = Some a ∧ array_ok a ∧ same_shape a img ∧ dt a = dt img ∧
    (∀ y x, (y < height img)%nat → (x < width img)%nat →
       ∃ c, np_pixel a y x = Ok c ∧ colour_ok c) ∧
    (∀ y x y' x', (y < height img)%nat → (x < width img)%nat →
       (y' < height img)%nat → (x' < width img)%nat →
       same_set (parent uf) (y * width img + x) (y' * width img + x') →
       np_pixel a y x = np_pixel a y' x').
Proof.
  intros Hg Himg Hok Hrun.
  destruct (engine_stages gaussian h image img k min_size sigma rand h' out n uf
              Hg Himg Hok Hrun)
    as (Hsm_ok & Hsm_h & Hsm_w & edges & uf1 & thr & uf2 & cc & ctr & Hcg &
        Hedges & Hfp & Hwf1 & Hl1 & Hsp & Hwf2 & Hl2 & Hpaint & Hout & Hwf &
        Hs & Hl & Hn2 & Hn).
  apply (paint_all rand img uf2 out) in Hpaint as (Hinv & Hall); [|done|].
  2:{ exists (zeros_like img). rewrite Hout. split; [apply lookup_output|].
      split_and!; try done. unfold array_ok, zeros_like in *. cbn.
      by rewrite length_replicate. }
  destruct Hinv as (_ & Hs2 & (a & Ha & Hoka & Hshape & Hdt) & Hcc).
  exists a. split_and!; try done.
  - intros y x Hy Hx.
    destruct (Hall y x Hy Hx) as (a0 & r & c & Ha0 & _ & Hc & Hp).
    rewrite Ha in Ha0. injection Ha0 as <-. exists c. split; [done|].
    by apply (Hcc r).
  - intros y x y' x' Hy Hx Hy' Hx' (r & Hr & Hr').
    destruct (Hall y x Hy Hx) as (a0 & r0 & c & Ha0 & Hr0 & Hc & Hp).
    rewrite Ha in Ha0. injection Ha0 as <-.
    destruct (Hall y' x' Hy' Hx') as (a0 & r0' & c' & Ha0 & Hr0' & Hc' & Hp').
    rewrite Ha in Ha0. injection Ha0 as <-. cbn [fst snd] in *.
    apply Hs2 in Hr0, Hr0'.
    rewrite (root_of_functional _ _ _ _ Hr0 Hr) in Hc.
    rewrite (root_of_functional _ _ _ _ Hr0' Hr') in Hc'.
    congruence.
Qed.

Lemma output_paints_segments_witness :
  let gaussian := fun (a : ndarray) (_ : Q) (_ : bool) => a in
  let img := mkArray UInt8 2 3 None [0; 0; 200; 0; 0; 200]%Q in
  let h := [img] in
  let h' := [img; img; mkArray UInt8 2 3 None [0; 0; 1; 0; 0; 1]%Q] in
  let uf := mkUnionFind [0; 0; 2; 0; 0; 2]%nat [1; 0; 1; 0; 0; 0]%nat 2 in
  (∀ a s c, array_ok a →
     array_ok (gaussian a s c) ∧ height (gaussian a s c) = height a ∧
     width (gaussian a s c) = width a) ∧
  h !! 0%nat = Some img ∧ array_ok img ∧
  felzenszwalb_huttenlocher gaussian h 0%nat 10 0 0 (fun n => Z.of_nat n)
    = Ok (h', (2%nat, 2, uf)) ∧
  ∃ a, h' !! 2%nat = Some a ∧ array_ok a ∧ same_shape a img ∧ dt a = dt img ∧
    (∀ y x, (y < height img)%nat → (x < width img)%nat →
       ∃ c, np_pixel a y x = Ok c ∧ colour_ok c) ∧
    (∀ y x y' x', (y < height img)%nat → (x < width img)%nat →
       (y' < height img)%nat → (x' < width img)%nat →
       same_set (parent uf) (y * width img + x) (y' * width img + x') →
       np_pixel a y x = np_pixel a y' x').
Proof.
  intros gaussian img h h' uf.
  assert (Hg : ∀ a s c, array_ok a →
     array_ok (gaussian a s c) ∧ height (gaussian a s c) = height a ∧
     width (gaussian a s c) = width a) by (intros a s c Ha; done).
  assert (Himg : h !! 0%nat = Some img) by reflexivity.
  assert (Hok : array_ok img) by reflexivity.
  assert (Hrun : felzenszwalb_huttenlocher gaussian h 0%nat 10 0 0
                   (fun n => Z.of_nat n) = Ok (h', (2%nat, 2, uf)))
    by (vm_compute; reflexivity).
  split; [exact Hg|]. split; [exact Himg|]. split; [exact Hok|].
  split; [exact Hrun|].
  exact (output_paints_segments gaussian h 0%nat img 10 0 0
           (fun n => Z.of_nat n) h' 2%nat 2 uf Hg Himg Hok Hrun).
Defined.

(** * Reading the segments back *)

Lemma Forall2_root_of_unique par idx rs rs' :
  Forall2 (root_of par) idx rs → Forall2 (root_of par) idx rs' → rs = rs'.
Proof.
  intros H. revert rs'. induction H as [|i r idx rs Hr _ IH]; intros rs' H'.
  - by inversion H'.
  - inversion H' as [|? r' ? rs'' Hr' Hrest]; subst. f_equal.
    + by eapply root_of_functional.
    + by apply IH.
Qed.

Lemma Forall2_root_of_same_roots par par' idx rs :
  same_roots par par' →
  Forall2 (root_of par) idx rs → Forall2 (root_of par') idx rs.
Proof.
  intros Hs H. eapply Forall2_impl; [exact H|]. intros i r. apply Hs.
Qed.

Lemma mask_of_length root rs : length (mask_of root rs) = length rs.
Proof. unfold mask_of. by rewrite length_fmap. Qed.

Lemma mask_of_lookup root rs p :
  mask_of root rs !! p = Some true ↔ rs !! p = Some root.
Proof.
  unfold mask_of. rewrite list_lookup_fmap.
  destruct (rs !! p) as [r|]; cbn; [|done].
  destruct (Nat.eqb_spec r root); split; intros [=]; congruence.
Qed.

Lemma mask_of_count root rs :
  length (filter (λ b, b = true) (mask_of root rs)) = count_eq root rs.
Proof.
  unfold mask_of, count_eq. induction rs as [|r rs IH]; [done|].
  rewrite fmap_cons, !filter_cons.
  destruct (Nat.eqb_spec r root); repeat case_decide; try done; cbn; by f_equal.
Qed.

(** The loop, in closed form: entry [j] of the result comes from item
    [j]. *)
Lemma analyze_loop image N rs items : ∀ i0 uf segs infos,
  (0 < N)%nat → wf uf → length (parent uf) = N →
  Forall2 (root_of (parent uf)) (seq 0 N) rs →
  ∃ par',
    res_fold (analyze_segment image N) (zip (seq i0 (length items)) items)
      (uf, segs, infos) =
    Ok (set_parent uf par',
        segs ++ ((λ it : nat * nat, apply_mask image (mask_of it.1 rs))
                   <$> items),
        infos ++ imap (λ j (it : nat * nat),
                         mk_entry (i0 + j + 1) it.1 it.2 (mask_of it.1 rs))
                   items) ∧
    same_roots (parent uf) par' ∧ length par' = N ∧ wf (set_parent uf par').
Proof.
  induction items as [|[root size] items IH]; intros i0 uf segs infos HN Hwf Hlen Hrs.
  - exists (parent uf). rewrite set_parent_id. cbn. rewrite !app_nil_r.
    split_and!; [done | apply same_roots_refl | done | done].
  - cbn [length seq zip zip_with res_fold analyze_segment].
    destruct (find_each_spec (seq 0 N) uf Hwf)
      as (par1 & found & Hfe & Hfound & Hs1 & Hl1 & Hwf1).
    { apply Forall_forall. intros i Hi%elem_of_seq. lia. }
    rewrite Hfe. cbn [res_bind].
    rewrite (Forall2_root_of_unique _ _ _ _ Hfound Hrs).
    destruct rs as [|r0 rs0] eqn:Hrs0.
    { apply Forall2_length in Hrs. rewrite length_seq in Hrs. cbn in Hrs. lia. }
    rewrite <- Hrs0 in *. clear Hrs0.
    destruct (IH (S i0) (set_parent uf par1)
                (segs ++ [apply_mask image (mask_of root rs)])
                (infos ++ [mk_entry (i0 + 1) root size (mask_of root rs)]))
      as (par' & Hfold & Hs' & Hl' & Hwf'); [done | done | cbn; lia | |].
    { cbn [parent set_parent]. by eapply Forall2_root_of_same_roots. }
    exists par'. cbn [res_bind]. rewrite Hfold. cbn [parent set_parent] in *.
    split_and!; [|by eapply same_roots_trans | done | done].
    unfold set_parent. cbn. do 2 f_equal.
    + f_equal. by rewrite <- app_assoc.
    + rewrite <- app_assoc. cbn. do 2 f_equal.
      * f_equal. lia.
      * apply imap_ext. intros j it _. cbn. f_equal. lia.
Qed.

Lemma largest_components_spec uf n :
  wf uf → (0 < length (parent uf))%nat → 1 ≤ n →
  ∃ par' rs,
    let items :=
      take (Z.to_nat n) (sorted size_before (np_unique_counts rs)) in
    get_largest_components uf n
      = Ok (set_parent uf par', (items.*1, items.*2)) ∧
    Forall2 (root_of (parent uf)) (seq 0 (length (parent uf))) rs ∧
    same_roots (parent uf) par' ∧ length par' = length (parent uf) ∧
    wf (set_parent uf par').
Proof.
  intros Hwf Hlen Hn.
  destruct (get_component_sizes_spec uf Hwf)
    as (par' & rs & Hg & Hrs & Hs & Hl & Hwf').
  exists par', rs. cbv zeta. split_and!; try done.
  set (full := sorted size_before (np_unique_counts rs)).
  assert (Hne : (0 < length full)%nat).
  { unfold full. rewrite sorted_perm.
    destruct (Forall2_lookup_l _ _ _ 0%nat 0%nat Hrs) as (r & Hr & _).
    { by apply lookup_seq_lt. }
    assert ((r, count_eq r rs) ∈ np_unique_counts rs) as Hin.
    { apply np_unique_counts_elem. split; [|done].
      by eapply list_elem_of_lookup_2. }
    destruct (np_unique_counts rs); [by apply elem_of_nil in Hin | simpl; lia]. }
  assert (Htake : ∃ x items, take (Z.to_nat n) full = x :: items).
  { destruct full as [|x full']; [simpl in Hne; lia|].
    destruct (Z.to_nat n) as [|m] eqn:Hm; [lia|]. simpl. eauto. }
  destruct Htake as (x & items & Htake).
  unfold get_largest_components. rewrite Hg. cbn [res_bind]. fold full.
  destruct (Z.leb_spec n (Z.of_nat (length full))) as [Hle|Hgt].
  - unfold slice_to.
    replace (0 <=? n) with true by (symmetry; apply Z.leb_le; lia).
    rewrite Htake. done.
  - rewrite take_ge in Htake by lia. rewrite take_ge by lia.
    rewrite Htake. done.
Qed.

(** The whole call, in closed form. *)
Lemma analyze_segments_spec image uf top_n :
  wf uf → (0 < length (parent uf))%nat →
  length (parent uf) = (height image * width image)%nat → 1 ≤ top_n →
  ∃ par' rs,
    let comps := np_unique_counts rs in
    let items := take (Z.to_nat top_n) (sorted size_before comps) in
    analyze_segments image uf top_n =
      Ok (set_parent uf par',
          mk_analysis (num_sets uf)
            ((λ it : nat * nat, apply_mask image (mask_of it.1 rs)) <$> items)
            (imap (λ j (it : nat * nat),
                     mk_entry (j + 1) it.1 it.2 (mask_of it.1 rs)) items)
            comps) ∧
    Forall2 (root_of (parent uf)) (seq 0 (length (parent uf))) rs ∧
    same_roots (parent uf) par' ∧ wf (set_parent uf par').
Proof.
  intros Hwf Hpos Hlen Hn.
  destruct (largest_components_spec uf top_n Hwf Hpos Hn)
    as (par1 & rs & Hglc & Hrs & Hs1 & Hl1 & Hwf1).
  cbv zeta in Hglc.
  set (comps := np_unique_counts rs) in *.
  set (items := take (Z.to_nat top_n) (sorted size_before comps)) in *.
  destruct (analyze_loop image (height image * width image) rs items 0
              (set_parent uf par1) [] [])
    as (par2 & Hloop & Hs2 & Hl2 & Hwf2); [lia | done | cbn; lia | |].
  { cbn [parent set_parent]. rewrite <- Hlen.
    by eapply Forall2_root_of_same_roots. }
  cbn [parent set_parent] in Hs2, Hl2.
  destruct (get_component_sizes_spec _ Hwf2)
    as (par3 & rs3 & Hgc & Hrs3 & Hs3 & Hl3 & Hwf3).
  cbn [parent set_parent] in Hrs3, Hs3, Hl3.
  assert (Hs : same_roots (parent uf) par2) by (by eapply same_roots_trans).
  assert (rs3 = rs) as ->.
  { eapply Forall2_root_of_unique; [exact Hrs3|].
    rewrite Hl2, <- Hlen. by eapply Forall2_root_of_same_roots. }
  exists par3, rs. cbv zeta. fold comps items.
  split_and!; [| done | by eapply same_roots_trans | done].
  unfold analyze_segments. rewrite Hglc. cbn [res_bind].
  rewrite zip_fst_snd, Hloop. cbn [res_bind]. rewrite Hgc. cbn [res_bind].
  reflexivity.
Qed.

Lemma sorted_lookup {A} (R : relation A) l i j a b :
  StronglySorted R l → (i < j)%nat →
  l !! i = Some a → l !! j = Some b → R a b.
Proof.
  intros Hl. revert i j. induction Hl as [|x l _ IH Hx]; intros i j Hij Hi Hj.
  - done.
  - destruct j as [|j]; [lia|]. cbn in Hj. destruct i as [|i].
    + injection Hi as <-. rewrite Forall_forall in Hx. apply Hx.
      by eapply list_elem_of_lookup_2.
    + cbn in Hi. apply (IH i j); [lia | done | done].
Qed.

Lemma apply_mask_pixel image mask y x px :
  (y < height image)%nat → (x < width image)%nat →
  np_pixel image y x = Ok px →
  np_pixel (apply_mask image mask) y x =
    Ok (if default false (mask !! (y * width image + x)%nat) then px
        else replicate (pixel_len image) 0%Q).
Proof.
  intros Hy Hx. unfold np_pixel, apply_mask.
  change (pixel_len (mkArray _ _ _ (channels image) _)) with (pixel_len image).
  cbn [height width data].
  replace (y <? height image)%nat with true by (symmetry; by apply Nat.ltb_lt).
  replace (x <? width image)%nat with true by (symmetry; by apply Nat.ltb_lt).
  cbn [andb]. set (c := pixel_len image).
  set (off := ((y * width image + x) * c)%nat).
  set (f := λ (i : nat) (q : Q),
         if default false (mask !! (i / c)%nat) then q else 0%Q).
  destruct (Nat.eqb_spec (length (take c (drop off (data image)))) c)
    as [Hlen|]; [|done].
  intros [= <-].
  assert (Hlen' : length (take c (drop off (imap f (data image)))) = c).
  { rewrite length_take, length_drop, length_imap.
    rewrite length_take, length_drop in Hlen. done. }
  rewrite Hlen', Nat.eqb_refl. f_equal.
  apply list_eq. intros i.
  assert (Hdiv : (i < c)%nat → ((off + i) / c)%nat = (y * width image + x)%nat).
  { intros Hi. unfold off. rewrite Nat.div_add_l by lia.
    rewrite Nat.div_small by done. lia. }
  rewrite lookup_take, lookup_drop, list_lookup_imap.
  case_decide as Hi.
  - unfold f. rewrite (Hdiv Hi).
    destruct (default false (mask !! (y * width image + x)%nat)).
    + rewrite lookup_take_lt, lookup_drop by done.
      by destruct (data image !! (off + i)%nat).
    + rewrite lookup_replicate_2 by done.
      destruct (data image !! (off + i)%nat) eqn:Hd; [done|].
      apply lookup_ge_None in Hd. rewrite length_take, length_drop in Hlen. lia.
  - destruct (default false (mask !! (y * width image + x)%nat)).
    + by rewrite lookup_take_ge by lia.
    + symmetry. apply lookup_replicate_None. lia.
Qed.

(** X14.  [analyze_segments] on a non-empty image and a forest built through
    the interface with one element per pixel, for [top_n >= 1].  The call
    returns; [total_segments] is [num_sets] and [component_sizes] has that
    many entries; there are [min(top_n, num_sets)] segments, numbered from 1,
    in non-increasing size and with different roots; the mask of a segment
    marks exactly the pixels whose root is the segment's root, and the number
    of marked pixels is the segment's size; the extracted image of a segment
    has the original pixel under the mask and zeros elsewhere.  The partition
    is left as it was. *)
Theorem analyze_segments_report image uf top_n :
  built uf → (0 < length (parent uf))%nat →
  length (parent uf) = (height image * width image)%nat → 1 ≤ top_n →
  ∃ uf' r,
    analyze_segments image uf top_n = Ok (uf', r) ∧
    same_roots (parent uf) (parent uf') ∧
    total_segments r = num_sets uf ∧
    Z.of_nat (length (component_sizes r)) = num_sets uf ∧
    length (segment_info r) =
      min (Z.to_nat top_n) (length (component_sizes r)) ∧
    length (largest_segments r) = length (segment_info r) ∧
    (∀ j e, segment_info r !! j = Some e →
       seg_id e = (j + 1)%nat ∧
       (seg_root e, seg_size e) ∈ component_sizes r ∧
       length (seg_mask e) = (height image * width image)%nat ∧
       (∀ p, seg_mask e !! p = Some true ↔
             root_of (parent uf) p (seg_root e)) ∧
       length (filter (λ b, b = true) (seg_mask e)) = seg_size e ∧
       ∃ seg, largest_segments r !! j = Some seg ∧ same_shape seg image ∧
         ∀ y x px, (y < height image)%nat → (x < width image)%nat →
           np_pixel image y x = Ok px →
           np_pixel seg y x =
             Ok (if default false (seg_mask e !! (y * width image + x)%nat)
                 then px else replicate (pixel_len image) 0%Q)) ∧
    (∀ j j' e e', (j < j')%nat →
       segment_info r !! j = Some e → segment_info r !! j' = Some e' →
       (seg_size e' ≤ seg_size e)%nat ∧ seg_root e ≠ seg_root e').
Proof.
  intros Hwf%built_wf Hpos Hlen Hn.
  destruct (analyze_segments_spec image uf top_n Hwf Hpos Hlen Hn)
    as (par' & rs & Hcall & Hrs & Hs & Hwf').
  cbv zeta in Hcall.
  set (comps := np_unique_counts rs) in *.
  set (full := sorted size_before comps) in *.
  set (items := take (Z.to_nat top_n) full) in *.
  assert (Hlrs : length rs = length (parent uf)).
  { apply Forall2_length in Hrs. by rewrite length_seq in Hrs. }
  assert (Hlook : ∀ p r, rs !! p = Some r ↔ root_of (parent uf) p r).
  { intros p r. split.
    - intros Hp. destruct (Forall2_lookup_r _ _ _ _ _ Hrs Hp) as (i & Hi & Hroot).
      by apply lookup_seq in Hi as [-> _].
    - intros Hroot. pose proof (root_of_lt _ _ _ Hroot) as Hlt.
      destruct (Forall2_lookup_l _ _ _ p p Hrs) as (r' & Hr' & Hroot').
      { by apply lookup_seq_lt. }
      by rewrite (root_of_functional _ _ _ _ Hroot Hroot'). }
  assert (Hitems : ∀ j it, items !! j = Some it → it ∈ comps).
  { intros j it Hj. unfold comps. rewrite <- (sorted_perm size_before).
    apply list_elem_of_lookup_2 in Hj. by eapply subseteq_take. }
  assert (Hentry : ∀ j e,
    imap (λ j (it : nat * nat),
            mk_entry (j + 1) it.1 it.2 (mask_of it.1 rs)) items !! j = Some e →
    ∃ it, items !! j = Some it ∧
          e = mk_entry (j + 1) it.1 it.2 (mask_of it.1 rs)).
  { intros j e. rewrite list_lookup_imap.
    destruct (items !! j) as [it|]; [|done]. intros [= <-]. by exists it. }
  eexists _, _. split; [exact Hcall|]. cbn [total_segments component_sizes
    segment_info largest_segments parent set_parent].
  split_and!; [done | done | | | | |].
  - unfold comps. rewrite np_unique_counts_length, (distinct_roots uf rs Hwf Hrs).
    symmetry. apply Hwf.
  - rewrite length_imap. unfold items, full.
    by rewrite length_take, sorted_perm.
  - by rewrite length_fmap, length_imap.
  - intros j e (it & Hit & ->)%Hentry. cbn [seg_id seg_root seg_size seg_mask].
    pose proof (Hitems _ _ Hit) as Hin. destruct it as [root size].
    cbn [fst snd] in *.
    apply np_unique_counts_elem in Hin as Hin'. destruct Hin' as [_ ->].
    split_and!; [done | done | by rewrite mask_of_length, Hlrs | | |].
    + intros p. by rewrite mask_of_lookup, Hlook.
    + apply mask_of_count.
    + eexists. rewrite list_lookup_fmap, Hit. split; [done|].
      split; [done|]. intros y x px Hy Hx Hpx. by apply apply_mask_pixel.
  - intros j j' e e' Hjj (it & Hit & ->)%Hentry (it' & Hit' & ->)%Hentry.
    cbn [seg_root seg_size].
    assert (Hrank : ranked_before it it').
    { apply (sorted_lookup _ full j j'); [|done|..].
      - apply ranked_sorted, np_unique_counts_ascending.
      - unfold items in Hit. by apply lookup_take_Some in Hit as [? _].
      - unfold items in Hit'. by apply lookup_take_Some in Hit' as [? _]. }
    apply Hitems in Hit, Hit'. destruct it as [r s], it' as [r' s'].
    apply np_unique_counts_elem in Hit as [_ ->].
    apply np_unique_counts_elem in Hit' as [_ ->].
    unfold ranked_before in Hrank. cbn [fst snd] in *.
    split; [lia|]. intros ->. lia.
Qed.

Lemma analyze_segments_report_witness :
  let image := mkArray UInt8 2 2 None [5; 5; 9; 9]%Q in
  let uf := mkUnionFind [0; 0; 2; 2]%nat [1; 0; 1; 0]%nat 2 in
  let top_n := 9 in
  built uf ∧ (0 < length (parent uf))%nat ∧
  length (parent uf) = (height image * width image)%nat ∧ 1 ≤ top_n ∧
  ∃ uf' r,
    analyze_segments image uf top_n = Ok (uf', r) ∧
    same_roots (parent uf) (parent uf') ∧
    total_segments r = num_sets uf ∧
    Z.of_nat (length (component_sizes r)) = num_sets uf ∧
    length (segment_info r) =
      min (Z.to_nat top_n) (length (component_sizes r)) ∧
    length (largest_segments r) = length (segment_info r) ∧
    (∀ j e, segment_info r !! j = Some e →
       seg_id e = (j + 1)%nat ∧
       (seg_root e, seg_size e) ∈ component_sizes r ∧
       length (seg_mask e) = (height image * width image)%nat ∧
       (∀ p, seg_mask e !! p = Some true ↔
             root_of (parent uf) p (seg_root e)) ∧
       length (filter (λ b, b = true) (seg_mask e)) = seg_size e ∧
       ∃ seg, largest_segments r !! j = Some seg ∧ same_shape seg image ∧
         ∀ y x px, (y < height image)%nat → (x < width image)%nat →
           np_pixel image y x = Ok px →
           np_pixel seg y x =
             Ok (if default false (seg_mask e !! (y * width image + x)%nat)
                 then px else replicate (pixel_len image) 0%Q)) ∧
    (∀ j j' e e', (j < j')%nat →
       segment_info r !! j = Some e → segment_info r !! j' = Some e' →
       (seg_size e' ≤ seg_size e)%nat ∧ seg_root e ≠ seg_root e').
Proof.
  intros image uf top_n.
  assert (Hpos : (0 < length (parent uf))%nat) by (cbn; lia).
  assert (Hlen : length (parent uf) = (height image * width image)%nat)
    by reflexivity.
  assert (Hn : 1 ≤ top_n) by (unfold top_n; lia).
  split; [exact built_pairs|]. split; [exact Hpos|]. split; [exact Hlen|].
  split; [exact Hn|].
  exact (analyze_segments_report image uf top_n built_pairs Hpos Hlen Hn).
Defined.

(** ** An image larger than the forest *)

Lemma find_each_app uf l1 l2 :
  find_each uf (l1 ++ l2) =
  let? (uf1, rs1) := find_each uf l1 in
  let? (uf2, rs2) := find_each uf1 l2 in
  Ok (uf2, rs1 ++ rs2).
Proof.
  revert uf. induction l1 as [|i l1 IH]; intros uf.
  - cbn. by destruct (find_each uf l2) as [[??]|].
  - cbn [app find_each]. destruct (find uf _) as [[uf1 r]|]; [|done].
    cbn [res_bind]. rewrite IH.
    destruct (find_each uf1 l1) as [[uf2 rs1]|]; [|done]. cbn [res_bind].
    by destruct (find_each uf2 l2) as [[??]|].
Qed.

(** X15.  [analyze_segments] with an image that has more pixels than the
    forest has elements: for [top_n >= 1] and a non-empty forest built
    through the interface, the first mask runs [find] past the end of the
    parent array and the call raises IndexError. *)
Theorem analyze_segments_image_too_large image uf top_n :
  built uf → (0 < length (parent uf))%nat → 1 ≤ top_n →
  (length (parent uf) < height image * width image)%nat →
  analyze_segments image uf top_n = Raise IndexError.
Proof.
  intros Hwf%built_wf Hpos Hn Hbig.
  destruct (largest_components_spec uf top_n Hwf Hpos Hn)
    as (par1 & rs & Hglc & Hrs & Hs1 & Hl1 & Hwf1).
  cbv zeta in Hglc. unfold analyze_segments. rewrite Hglc. cbn [res_bind].
  rewrite zip_fst_snd.
  set (items := take (Z.to_nat top_n) (sorted size_before (np_unique_counts rs))).
  assert (Hne : ∃ it items', items = it :: items').
  { unfold items.
    assert (Hin : ∃ it, it ∈ np_unique_counts rs).
    { destruct (Forall2_lookup_l _ _ _ 0%nat 0%nat Hrs) as (r & Hr & _).
      { by apply lookup_seq_lt. }
      exists (r, count_eq r rs). apply np_unique_counts_elem.
      split; [by eapply list_elem_of_lookup_2 | done]. }
    destruct Hin as [it Hin]. rewrite <- (sorted_perm size_before) in Hin.
    destruct (sorted size_before (np_unique_counts rs)) as [|x full];
      [by apply elem_of_nil in Hin|].
    destruct (Z.to_nat top_n) as [|m] eqn:Hm; [lia|]. cbn. eauto. }
  destruct Hne as ([root size] & items' & ->).
  cbn [length seq zip zip_with res_fold analyze_segment].
  set (N := (height image * width image)%nat) in *.
  replace N with (length (parent uf) + (N - length (parent uf)))%nat by lia.
  rewrite seq_app, find_each_app.
  destruct (find_each_spec (seq 0 (length (parent uf))) (set_parent uf par1) Hwf1)
    as (par2 & found & -> & _ & _ & Hl2 & _).
  { apply Forall_forall. intros i Hi%elem_of_seq. cbn. lia. }
  cbn [res_bind]. cbn [parent set_parent] in Hl2.
  destruct (N - length (parent uf))%nat as [|m] eqn:Hm; [lia|].
  cbn [seq find_each Nat.add].
  rewrite (find_index_error _ _ IndexError); [done|].
  cbn [parent set_parent]. rewrite Hl2, Hl1. apply np_index_end.
Qed.

Lemma analyze_segments_image_too_large_witness :
  let image := mkArray UInt8 3 2 None [5; 5; 9; 9; 1; 1]%Q in
  let uf := mkUnionFind [0; 0; 2; 2]%nat [1; 0; 1; 0]%nat 2 in
  built uf ∧ (0 < length (parent uf))%nat ∧ 1 ≤ 9 ∧
  (length (parent uf) < height image * width image)%nat ∧
  analyze_segments image uf 9 = Raise IndexError.
Proof.
  intros image uf.
  assert (Hpos : (0 < length (parent uf))%nat) by (cbn; lia).
  assert (Hn : 1 ≤ 9) by lia.
  assert (Hbig : (length (parent uf) < height image * width image)%nat)
    by (cbn; lia).
  split; [exact built_pairs|]. split; [exact Hpos|]. split; [exact Hn|].
  split; [exact Hbig|].
  exact (analyze_segments_image_too_large image uf 9 built_pairs Hpos Hn Hbig).
Defined.

(** * The fresh forest *)

Lemma find_new n i :
  (i < n)%nat → find (new n) (Z.of_nat i) = Ok (new n, i).
Proof.
  intros Hi. unfold find. cbn [find_rec].
  assert (Hget : np_get (parent (new n)) (Z.of_nat i) = Ok i).
  { apply np_get_nat. cbn. by apply lookup_seq_lt. }
  rewrite Hget. cbn [res_bind]. rewrite Z.eqb_refl. cbn [negb res_bind].
  by rewrite Hget.
Qed.

Lemma find_each_new n idx :
  Forall (λ i, (i < n)%nat) idx → find_each (new n) idx = Ok (new n, idx).
Proof.
  induction 1 as [|i idx Hi _ IH]; [done|]. cbn [find_each].
  rewrite find_new by done. cbn [res_bind]. by rewrite IH.
Qed.

Lemma count_eq_NoDup (l : list nat) x : NoDup l → x ∈ l → count_eq x l = 1%nat.
Proof.
  unfold count_eq. induction 1 as [|y l Hy Hnd IH]; intros Hin.
  - by apply elem_of_nil in Hin.
  - rewrite filter_cons. apply elem_of_cons in Hin as [->|Hin].
    + rewrite decide_True by done. cbn. f_equal.
      assert (filter (λ z, z = y) l = []) as ->; [|done].
      clear IH Hnd. induction l as [|z l IHl]; [done|].
      rewrite filter_cons, decide_False by (intros ->; apply Hy; by left).
      apply IHl. intros ?. apply Hy. by right.
    + rewrite decide_False by (by intros ->). by apply IH.
Qed.

(** X16.  The constructor and what a fresh forest answers.  [UnionFind(size)]
    for a natural [size] gives [size] singletons: [num_sets] is [size],
    [find(i)] returns [i] for every element and leaves the object as it is,
    and [get_component_sizes] maps every element to 1.  A negative size is
    refused with ValueError. *)
Theorem fresh_forest (size : nat) :
  UnionFind_init (Z.of_nat size) = Ok (new size) ∧
  built (new size) ∧
  length (parent (new size)) = size ∧
  num_sets (new size) = Z.of_nat size ∧
  (∀ i, 0 ≤ i < Z.of_nat size →
        find (new size) i = Ok (new size, Z.to_nat i)) ∧
  (∃ comps, get_component_sizes (new size) = Ok (new size, comps) ∧
     ∀ r s, (r, s) ∈ comps ↔ (r < size)%nat ∧ s = 1%nat) ∧
  (∀ z, z < 0 → UnionFind_init z = Raise ValueError).
Proof.
  split_and!.
  - unfold UnionFind_init.
    destruct (Z.ltb_spec (Z.of_nat size) 0); [lia|]. by rewrite Nat2Z.id.
  - apply built_new.
  - cbn. apply length_seq.
  - done.
  - intros i Hi. rewrite <- (Z2Nat.id i) at 1 by lia. apply find_new. lia.
  - eexists. split.
    + unfold get_component_sizes, find_all. cbn [parent new].
      rewrite length_seq, find_each_new; [done|].
      apply Forall_forall. intros i Hi%elem_of_seq. lia.
    + intros r s. rewrite np_unique_counts_elem, elem_of_seq. split.
      * intros [Hr ->]. split; [lia|].
        apply count_eq_NoDup; [apply NoDup_seq | apply elem_of_seq; lia].
      * intros [Hr ->]. split; [lia|]. symmetry.
        apply count_eq_NoDup; [apply NoDup_seq | apply elem_of_seq; lia].
  - intros z Hz. unfold UnionFind_init. by destruct (Z.ltb_spec z 0); [|lia].
Qed.

(** * The forest a run returns *)

Lemma find_built uf i uf' r :
  built uf → find uf i = Ok (uf', r) →
  built uf' ∧ length (parent uf') = length (parent uf).
Proof.
  intros Hb Hf. split; [by eapply built_find|].
  by apply (find_ok_inv _ _ _ _ (built_wf _ Hb)) in Hf as (_ & _ & ? & _).
Qed.

Lemma union_built uf i j uf' v :
  built uf → union uf i j = Ok (uf', v) →
  built uf' ∧ length (parent uf') = length (parent uf).
Proof.
  intros Hb Hu. split; [by eapply built_union|].
  by apply (union_ok_inv _ _ _ _ _ (built_wf _ Hb)) in Hu as (_ & _ & ?).
Qed.

Lemma merge_edge_built k uf thr e uf' thr' :
  built uf → merge_edge k (uf, thr) e = Ok (uf', thr') →
  built uf' ∧ length (parent uf') = length (parent uf).
Proof.
  intros Hb. destruct e as [[w u] v]. unfold merge_edge.
  destruct (find uf _) as [[uf1 ru]|] eqn:Hf1; [|done]. cbn [res_bind].
  destruct (find_built _ _ _ _ Hb Hf1) as [Hb1 Hl1].
  destruct (find uf1 _) as [[uf2 rv]|] eqn:Hf2; [|done]. cbn [res_bind].
  destruct (find_built _ _ _ _ Hb1 Hf2) as [Hb2 Hl2].
  destruct (negb _); [|intros [= <- _]; split; [done|lia]].
  destruct (np_get thr _) as [tu|]; [|done]. cbn [res_bind].
  destruct (np_get thr _) as [tv|]; [|done]. cbn [res_bind].
  destruct (Qle_bool _ _); [|intros [= <- _]; split; [done|lia]].
  destruct (union uf2 _ _) as [[uf3 ?]|] eqn:Hu; [|done]. cbn [res_bind].
  destruct (union_built _ _ _ _ _ Hb2 Hu) as [Hb3 Hl3].
  destruct (find uf3 _) as [[uf4 r']|] eqn:Hf4; [|done]. cbn [res_bind].
  destruct (find_built _ _ _ _ Hb3 Hf4) as [Hb4 Hl4].
  destruct (py_float k) as [fk|]; [|done]. cbn [res_bind].
  destruct (np_set thr _ _); [|done]. cbn [res_bind].
  intros [= <- _]. split; [done|lia].
Qed.

Lemma cleanup_edge_built min_size uf e uf' :
  built uf → cleanup_edge min_size uf e = Ok uf' →
  built uf' ∧ length (parent uf') = length (parent uf).
Proof.
  intros Hb. destruct e as [[w u] v]. unfold cleanup_edge.
  destruct (find uf _) as [[uf1 ru]|] eqn:Hf1; [|done]. cbn [res_bind].
  destruct (find_built _ _ _ _ Hb Hf1) as [Hb1 Hl1].
  destruct (find uf1 _) as [[uf2 rv]|] eqn:Hf2; [|done]. cbn [res_bind].
  destruct (find_built _ _ _ _ Hb1 Hf2) as [Hb2 Hl2].
  destruct (negb _); [|intros [= <-]; split; [done|lia]].
  destruct (_ || _); [|intros [= <-]; split; [done|lia]].
  destruct (union uf2 _ _) as [[uf3 ?]|] eqn:Hu; [|done]. cbn [res_bind].
  destruct (union_built _ _ _ _ _ Hb2 Hu) as [Hb3 Hl3].
  intros [= <-]. split; [done|lia].
Qed.

Lemma paint_pixel_built rand is_color width out y st x st' :
  built st.1.1.2 → paint_pixel rand is_color width out y st x = Ok st' →
  built st'.1.1.2.
Proof.
  destruct st as [[[h uf] cc] ctr]. cbn [fst snd]. intros Hb. unfold paint_pixel.
  destruct (find uf _) as [[uf' root]|] eqn:Hf; [|done]. cbn [res_bind].
  destruct (find_built _ _ _ _ Hb Hf) as [Hb' _].
  destruct (cc !! root) as [c|].
  - destruct (heap_store h out y x c) as [h1|]; [|done].
    cbn [res_bind]. by intros [= <-].
  - destruct (randint rand ctr _) as [c ctr'].
    destruct (heap_store h out y x c) as [h1|]; [|done].
    cbn [res_bind]. by intros [= <-].
Qed.

Lemma engine_forest gaussian h image img k min_size sigma rand h' out n uf :
  h !! image = Some img →
  felzenszwalb_huttenlocher gaussian h image k min_size sigma rand
    = Ok (h', (out, n, uf)) →
  built uf ∧ length (parent uf) = (height img * width img)%nat ∧
  n = num_sets uf ∧
  ∃ uf2 h0 cc ctr,
    built uf2 ∧ length (parent uf2) = (height img * width img)%nat ∧
    paint rand (ndim img =? 3)%nat (height img) (width img) out h0 uf2
      = Ok (h', uf, cc, ctr).
Proof.
  intros Himg Hrun.
  rewrite (engine_unfold gaussian h image img k min_size sigma rand Himg)
    in Hrun.
  cbv zeta in Hrun. set (N := (height img * width img)%nat) in *.
  destruct (create_graph _) as [edges|]; [|done]. cbn [res_bind] in Hrun.
  destruct (first_pass k edges N) as [[uf1 thr]|] eqn:Hfp; [|done].
  cbn [res_bind] in Hrun.
  destruct (second_pass min_size edges uf1) as [uf2|] eqn:Hsp; [|done].
  cbn [res_bind] in Hrun.
  destruct (paint _ _ _ _ _ _ _) as [[[[h1 uf3] cc] ctr]|] eqn:Hpaint; [|done].
  cbn [res_bind] in Hrun. injection Hrun as <- <- <- <-.
  assert (H1 : built uf1 ∧ length (parent uf1) = N).
  { rewrite (first_pass_fold k _ _ _ (first_pass_float _ _ _ _ Hfp)) in Hfp.
    apply (res_fold_ok_inv
             (λ st : UnionFind * list Q,
                built st.1 ∧ length (parent st.1) = N)) in Hfp; [done| |].
    - cbn. split; [apply built_new | apply length_seq].
    - intros [uf0 thr0] e [uf0' thr0'] _ [Hb Hl] Hstep. cbn [fst snd] in *.
      destruct (merge_edge_built _ _ _ _ _ _ Hb Hstep). split; [done|lia]. }
  assert (H2 : built uf2 ∧ length (parent uf2) = N).
  { unfold second_pass in Hsp. destruct (0 <? min_size).
    - apply (res_fold_ok_inv
               (λ uf0 : UnionFind, built uf0 ∧ length (parent uf0) = N))
        in Hsp; [done | done |].
      intros uf0 e uf0' _ [Hb Hl] Hstep.
      destruct (cleanup_edge_built _ _ _ _ Hb Hstep). split; [done|lia].
    - by injection Hsp as <-. }
  destruct H2 as [Hb2 Hl2].
  assert (Hb3 : built uf3).
  { unfold paint in Hpaint.
    apply (res_fold_ok_inv (λ st : paint_state, built st.1.1.2)) in Hpaint;
      [done | done |].
    intros st y st1 _ Hst Hrow. unfold paint_row in Hrow.
    apply (res_fold_ok_inv (λ st : paint_state, built st.1.1.2)) in Hrow;
      [done | done |].
    intros s x s' _ Hs Hpx. by eapply paint_pixel_built. }
  pose proof Hpaint as Hpaint'.
  apply (paint_forest _ _ _ _ _ _ _ _ (built_wf _ Hb2)) in Hpaint'
    as (Hwf3 & _ & Hl3 & Hn3).
  cbn [fst snd] in *. split_and!; [done | lia | done |].
  by exists uf2, ((h ++ [smoothed_of gaussian img sigma]) ++ [zeros_like img]),
    cc, ctr.
Qed.

(** X17.  The forest that a run returns is one a client could have built
    through the interface: the later queries ([find], [get_component_sizes],
    [get_largest_components]) meet it in a state the constructor, [find] and
    [union] can produce.  It has one element per pixel, the returned count is
    its [num_sets], which is its number of roots, at most the number of
    pixels and at least 1 on a non-empty image. *)
Theorem engine_returns_built_forest gaussian h image img k min_size sigma rand
    h' out n uf :
  h !! image = Some img →
  felzenszwalb_huttenlocher gaussian h image k min_size sigma rand
    = Ok (h', (out, n, uf)) →
  built uf ∧
  length (parent uf) = (height img * width img)%nat ∧
  n = num_sets uf ∧
  n = Z.of_nat (count_roots (parent uf)) ∧
  n ≤ Z.of_nat (height img * width img) ∧
  ((0 < height img * width img)%nat → 1 ≤ n).
Proof.
  intros Himg Hrun.
  destruct (engine_forest gaussian h image img k min_size sigma rand h' out n uf
              Himg Hrun) as (Hb & Hl & Hn & _).
  pose proof (built_wf _ Hb) as Hwf.
  pose proof (wf_count uf Hwf) as Hc. pose proof (wf_bound uf Hwf 0) as Hbd.
  split_and!; [done | done | done | lia | lia |].
  intros Hpos. pose proof (count_roots_pos uf Hwf). lia.
Qed.

Lemma engine_returns_built_forest_witness :
  let gaussian := fun (a : ndarray) (_ : Q) (_ : bool) => a in
  let img := mkArray UInt8 2 3 None [0; 0; 200; 0; 0; 200]%Q in
  let h := [img] in
  let h' := [img; img; mkArray UInt8 2 3 None [0; 0; 1; 0; 0; 1]%Q] in
  let uf := mkUnionFind [0; 0; 2; 0; 0; 2]%nat [1; 0; 1; 0; 0; 0]%nat 2 in
  h !! 0%nat = Some img ∧
  felzenszwalb_huttenlocher gaussian h 0%nat 10 0 0 (fun n => Z.of_nat n)
    = Ok (h', (2%nat, 2, uf)) ∧
  built uf ∧
  length (parent uf) = (height img * width img)%nat ∧
  2 = num_sets uf ∧
  2 = Z.of_nat (count_roots (parent uf)) ∧
  2 ≤ Z.of_nat (height img * width img) ∧
  ((0 < height img * width img)%nat → 1 ≤ 2).
Proof.
  intros gaussian img h h' uf.
  assert (Himg : h !! 0%nat = Some img) by reflexivity.
  assert (Hrun : felzenszwalb_huttenlocher gaussian h 0%nat 10 0 0
                   (fun n => Z.of_nat n) = Ok (h', (2%nat, 2, uf)))
    by (vm_compute; reflexivity).
  split; [exact Himg|]. split; [exact Hrun|].
  exact (engine_returns_built_forest gaussian h 0%nat img 10 0 0
           (fun n => Z.of_nat n) h' 2%nat 2 uf Himg Hrun).
Defined.

(** X18.  The pipeline of the application: the forest returned by a run is
    handed to [analyze_segments] together with the same image.  On a
    non-empty image and for [top_n >= 1] the analysis returns; its
    [total_segments] is the count the run reported, it lists
    [min(top_n, count)] segments, each of at least one pixel, and the sizes
    in [component_sizes] add up to the number of pixels. *)
Theorem run_then_analyze gaussian h image img k min_size sigma rand
    h' out n uf top_n :
  h !! image = Some img →
  (0 < height img * width img)%nat → 1 ≤ top_n →
  felzenszwalb_huttenlocher gaussian h image k min_size sigma rand
    = Ok (h', (out, n, uf)) →
  ∃ uf' r,
    analyze_segments img uf top_n = Ok (uf', r) ∧
    total_segments r = n ∧
    Z.of_nat (length (component_sizes r)) = n ∧
    Z.of_nat (length (segment_info r)) = Z.min top_n n ∧
    length (largest_segments r) = length (segment_info r) ∧
    sum_list (component_sizes r).*2 = (height img * width img)%nat ∧
    Forall (λ e, (1 ≤ seg_size e)%nat ∧
                 (seg_root e, seg_size e) ∈ component_sizes r)
      (segment_info r).
Proof.
  intros Himg Hpos Hn Hrun.
  destruct (engine_forest gaussian h image img k min_size sigma rand h' out n uf
              Himg Hrun) as (Hwf%built_wf & Hl & -> & _).
  destruct (analyze_segments_spec img uf top_n Hwf) as
    (par' & rs & Hcall & Hrs & Hs & Hwf'); [lia | done | done |].
  cbv zeta in Hcall.
  set (comps := np_unique_counts rs) in *.
  set (items := take (Z.to_nat top_n) (sorted size_before comps)) in *.
  assert (Hcount : Z.of_nat (length comps) = num_sets uf).
  { unfold comps. rewrite np_unique_counts_length, (distinct_roots uf rs Hwf Hrs).
    symmetry. apply Hwf. }
  eexists _, _. split; [exact Hcall|].
  cbn [total_segments component_sizes segment_info largest_segments].
  split_and!; [done | done | | | |].
  - rewrite length_imap. unfold items.
    rewrite length_take, sorted_perm. lia.
  - by rewrite length_fmap, length_imap.
  - unfold comps.
    rewrite np_unique_counts_snd, sum_list_fmap_with, sum_counts.
    + apply Forall2_length in Hrs. rewrite length_seq in Hrs. lia.
    + apply ascending_NoDup, unique_ascending.
    + intros x. by rewrite unique_elem.
  - apply Forall_forall. intros e [j He]%list_elem_of_lookup.
    rewrite list_lookup_imap in He.
    destruct (items !! j) as [[r s]|] eqn:Hit; [|done].
    injection He as <-. cbn [seg_root seg_size fst snd].
    assert (Hin : (r, s) ∈ comps).
    { unfold comps. rewrite <- (sorted_perm size_before).
      apply list_elem_of_lookup_2 in Hit. by eapply subseteq_take. }
    split; [|done]. apply np_unique_counts_elem in Hin as [Hr ->].
    unfold count_eq.
    assert (r ∈ filter (λ y, y = r) rs) as Hf.
    { by apply list_elem_of_filter. }
    destruct (filter _ rs); [by apply elem_of_nil in Hf | simpl; lia].
Qed.

Lemma run_then_analyze_witness :
  let gaussian := fun (a : ndarray) (_ : Q) (_ : bool) => a in
  let img := mkArray UInt8 2 3 None [0; 0; 200; 0; 0; 200]%Q in
  let h := [img] in
  let h' := [img; img; mkArray UInt8 2 3 None [0; 0; 1; 0; 0; 1]%Q] in
  let uf := mkUnionFind [0; 0; 2; 0; 0; 2]%nat [1; 0; 1; 0; 0; 0]%nat 2 in
  h !! 0%nat = Some img ∧
  (0 < height img * width img)%nat ∧ 1 ≤ 9 ∧
  felzenszwalb_huttenlocher gaussian h 0%nat 10 0 0 (fun n => Z.of_nat n)
    = Ok (h', (2%nat, 2, uf)) ∧
  ∃ uf' r,
    analyze_segments img uf 9 = Ok (uf', r) ∧
    total_segments r = 2 ∧
    Z.of_nat (length (component_sizes r)) = 2 ∧
    Z.of_nat (length (segment_info r)) = Z.min 9 2 ∧
    length (largest_segments r) = length (segment_info r) ∧
    sum_list (component_sizes r).*2 = (height img * width img)%nat ∧
    Forall (λ e, (1 ≤ seg_size e)%nat ∧
                 (seg_root e, seg_size e) ∈ component_sizes r)
      (segment_info r).
Proof.
  intros gaussian img h h' uf.
  assert (Himg : h !! 0%nat = Some img) by reflexivity.
  assert (Hpos : (0 < height img * width img)%nat) by (cbn; lia).
  assert (Hn : 1 ≤ 9) by lia.
  assert (Hrun : felzenszwalb_huttenlocher gaussian h 0%nat 10 0 0
                   (fun n => Z.of_nat n) = Ok (h', (2%nat, 2, uf)))
    by (vm_compute; reflexivity).
  split; [exact Himg|]. split; [exact Hpos|]. split; [exact Hn|].
  split; [exact Hrun|].
  exact (run_then_analyze gaussian h 0%nat img 10 0 0 (fun n => Z.of_nat n)
           h' 2%nat 2 uf 9 Himg Hpos Hn Hrun).
Defined.

(** * Fully compressed forests *)

Lemma find_rec_entries fuel : ∀ uf i uf' r,
  wf uf → (i < length (parent uf))%nat →
  find_rec fuel uf (Z.of_nat i) = Ok (uf', r) →
  length (parent uf') = length (parent uf) ∧
  root_of (parent uf) i r ∧ parent uf' !! i = Some r ∧
  ∀ j, parent uf' !! j = parent uf !! j ∨
       (parent uf' !! j = Some r ∧ root_of (parent uf) j r).
Proof.
  induction fuel as [|fuel IH]; intros uf i uf' r Hwf Hi Hf; [done|].
  destruct (lookup_lt_is_Some_2 _ _ Hi) as [p Hp].
  cbn [find_rec] in Hf. rewrite (np_get_nat _ _ _ Hp) in Hf.
  cbn [res_bind] in Hf.
  destruct (decide (p = i)) as [->|Hne].
  - rewrite Z.eqb_refl in Hf. cbn [negb res_bind] in Hf.
    rewrite (np_get_nat _ _ _ Hp) in Hf. cbn [res_bind] in Hf.
    injection Hf as <- <-.
    split_and!; [done | by constructor | done | by left].
  - replace (Z.of_nat p =? Z.of_nat i) with false in Hf
      by (symmetry; apply Z.eqb_neq; lia).
    cbn [negb] in Hf.
    destruct (find_rec fuel uf (Z.of_nat p)) as [[uf1 r1]|] eqn:Hrec; [|done].
    cbn [res_bind] in Hf.
    destruct (IH uf p uf1 r1 Hwf) as (Hlen & Hroot & Hpp & Hent);
      [by eapply wf_range | done |].
    rewrite np_set_nat in Hf by lia. cbn [res_bind parent set_parent] in Hf.
    rewrite (np_get_nat _ i r1) in Hf by (apply list_lookup_insert_eq; lia).
    cbn [res_bind] in Hf. injection Hf as <- <-.
    cbn [parent set_parent]. rewrite length_insert.
    assert (Hir : root_of (parent uf) i r1) by (by econstructor).
    split_and!; [done | done | apply list_lookup_insert_eq; lia |].
    intros j. destruct (decide (i = j)) as [<-|Hij].
    + right. split; [apply list_lookup_insert_eq; lia | done].
    + rewrite list_lookup_insert_ne by done. apply Hent.
Qed.

Lemma find_keeps_flat uf i uf' r :
  wf uf → find uf i = Ok (uf', r) → 0 ≤ i →
  flat_at (parent uf') (Z.to_nat i) ∧
  ∀ j, flat_at (parent uf) j → flat_at (parent uf') j.
Proof.
  intros Hwf Hf Hi.
  pose proof (find_ok_inv _ _ _ _ Hwf Hf) as (_ & _ & _ & _ & _ & k & Hk & _).
  pose proof (np_index_ok_lt _ _ _ Hk) as Hlt.
  apply np_index_nonneg_inv in Hk; [|done]. subst i. rewrite Nat2Z.id.
  unfold find in Hf.
  apply find_rec_entries in Hf as (Hlen & Hroot & Hkr & Hent); [|done..].
  assert (Hkeep : ∀ j rj, parent uf !! j = Some rj →
                          parent uf !! rj = Some rj → parent uf' !! j = Some rj).
  { intros j rj Hj Hrj. destruct (Hent j) as [->|[-> Hjr]]; [done|].
    f_equal. eapply root_of_functional; [exact Hjr|].
    destruct (decide (rj = j)) as [->|Hne]; [by constructor|].
    eapply root_step; [done | done | by constructor]. }
  split.
  - exists r. split; [done|]. apply Hkeep; by eapply root_of_is_root.
  - intros j (rj & Hj & Hrj). exists rj. split; by apply Hkeep.
Qed.

Lemma find_each_flat idx : ∀ uf uf' rs,
  wf uf → find_each uf idx = Ok (uf', rs) →
  Forall (flat_at (parent uf')) idx ∧
  ∀ j, flat_at (parent uf) j → flat_at (parent uf') j.
Proof.
  induction idx as [|i idx IH]; intros uf uf' rs Hwf Hfe.
  - injection Hfe as <- _. by split.
  - cbn [find_each] in Hfe.
    destruct (find uf (Z.of_nat i)) as [[uf1 r]|] eqn:Hf; [|done].
    cbn [res_bind] in Hfe.
    destruct (find_each uf1 idx) as [[uf2 rs2]|] eqn:Hfe2; [|done].
    cbn [res_bind] in Hfe. injection Hfe as <- _.
    destruct (find_keeps_flat _ _ _ _ Hwf Hf) as [Hi Hkeep]; [lia|].
    rewrite Nat2Z.id in Hi.
    apply (find_ok_inv _ _ _ _ Hwf) in Hf as (Hwf1 & _).
    destruct (IH _ _ _ Hwf1 Hfe2) as [Hall Hkeep2].
    split; [|by auto]. constructor; [by apply Hkeep2 | done].
Qed.

Lemma flat_parent_is_root uf i r :
  wf uf → flat_at (parent uf) i → root_of (parent uf) i r →
  parent uf !! i = Some r.
Proof.
  intros Hwf (r' & Hi & Hr') Hroot. rewrite Hi. f_equal.
  eapply root_of_functional; [|exact Hroot].
  destruct (decide (r' = i)) as [->|Hne]; [by constructor|].
  eapply root_step; [done | done | by constructor].
Qed.

Lemma flat_parent_roots uf rs :
  wf uf → (∀ i, (i < length (parent uf))%nat → flat_at (parent uf) i) →
  Forall2 (root_of (parent uf)) (seq 0 (length (parent uf))) rs →
  parent uf = rs.
Proof.
  intros Hwf Hflat Hrs. apply list_eq. intros i.
  assert (Hlrs : length rs = length (parent uf)).
  { apply Forall2_length in Hrs. by rewrite length_seq in Hrs. }
  destruct (decide (i < length (parent uf))%nat) as [Hi|Hi].
  - destruct (Forall2_lookup_l _ _ _ i i Hrs) as (r & Hr & Hroot).
    { by apply lookup_seq_lt. }
    rewrite Hr. by apply flat_parent_is_root; [|apply Hflat|].
  - rewrite !lookup_ge_None_2 by lia. done.
Qed.

(** X19.  A side effect of [get_component_sizes] on a forest built through
    the interface: having run [find] on every element, it leaves the parent
    array equal to the array of roots, every element pointing directly at
    its root.  On that forest the number of parent entries equal to a root,
    which is what the second loop of the engine counts, is the size of the
    root's set. *)
Theorem component_sizes_flattens uf :
  built uf →
  ∃ uf' comps all_roots,
    get_component_sizes uf = Ok (uf', comps) ∧
    Forall2 (root_of (parent uf)) (seq 0 (length (parent uf))) all_roots ∧
    parent uf' = all_roots ∧
    (∀ i p, parent uf' !! i = Some p → parent uf' !! p = Some p) ∧
    (∀ r s, (r, s) ∈ comps → count_eq r (parent uf') = s).
Proof.
  intros Hwf%built_wf.
  destruct (find_all_spec uf Hwf) as (par' & rs & Hfa & Hrs & Hs & Hl & Hwf').
  pose proof Hfa as Hflat. unfold find_all in Hflat.
  apply (find_each_flat _ _ _ _ Hwf) in Hflat as [Hall _].
  rewrite Forall_forall in Hall. cbn [parent set_parent] in Hall.
  assert (Hpar : par' = rs).
  { apply (flat_parent_roots (set_parent uf par')); [done | |].
    - intros i Hi. apply Hall, elem_of_seq. cbn [parent set_parent] in Hi. lia.
    - cbn [parent set_parent]. rewrite Hl.
      eapply Forall2_impl; [exact Hrs|]. intros i r. apply Hs. }
  exists (set_parent uf par'), (np_unique_counts rs), rs.
  cbn [parent set_parent]. split_and!; [|done|done| |].
  - unfold get_component_sizes. by rewrite Hfa.
  - intros i p Hi.
    destruct (Hall i) as (r & Hir & Hr).
    { apply elem_of_seq. apply lookup_lt_Some in Hi. lia. }
    congruence.
  - intros r s [_ ->]%np_unique_counts_elem. by rewrite Hpar.
Qed.

Lemma component_sizes_flattens_witness :
  let uf := mkUnionFind [0; 0; 0; 2]%nat [2; 0; 1; 0]%nat 1 in
  built uf ∧
  ∃ uf' comps all_roots,
    get_component_sizes uf = Ok (uf', comps) ∧
    Forall2 (root_of (parent uf)) (seq 0 (length (parent uf))) all_roots ∧
    parent uf' = all_roots ∧
    (∀ i p, parent uf' !! i = Some p → parent uf' !! p = Some p) ∧
    (∀ r s, (r, s) ∈ comps → count_eq r (parent uf') = s).
Proof.
  intros uf. split; [exact built_two_levels|].
  exact (component_sizes_flattens uf built_two_levels).
Defined.

Lemma paint_pixel_flat rand is_color width out y st x st' :
  wf st.1.1.2 →
  paint_pixel rand is_color width out y st x = Ok st' →
  wf st'.1.1.2 ∧ flat_at (parent st'.1.1.2) (y * width + x) ∧
  ∀ j, flat_at (parent st.1.1.2) j → flat_at (parent st'.1.1.2) j.
Proof.
  destruct st as [[[h uf] cc] ctr]. cbn [fst snd]. intros Hwf. unfold paint_pixel.
  destruct (find uf _) as [[uf' root]|] eqn:Hf; [|done]. cbn [res_bind].
  destruct (find_keeps_flat _ _ _ _ Hwf Hf) as [Hflat Hkeep]; [lia|].
  rewrite Nat2Z.id in Hflat.
  apply (find_ok_inv _ _ _ _ Hwf) in Hf as (Hwf' & _).
  destruct (cc !! root) as [c|].
  - destruct (heap_store h out y x c) as [h1|]; [|done].
    cbn [res_bind]. by intros [= <-].
  - destruct (randint rand ctr _) as [c ctr'].
    destruct (heap_store h out y x c) as [h1|]; [|done].
    cbn [res_bind]. by intros [= <-].
Qed.

Lemma paint_flat rand is_color hh ww out h uf st' :
  wf uf → paint rand is_color hh ww out h uf = Ok st' →
  ∀ i, (i < hh * ww)%nat → flat_at (parent st'.1.1.2) i.
Proof.
  intros Hwf. unfold paint, paint_row.
  rewrite (res_fold_nested
             (λ y st x, paint_pixel rand is_color ww out y st x)).
  intros Hrun.
  apply (res_fold_ok_each (λ st : paint_state, wf st.1.1.2)
           (λ (yx : nat * nat) (st : paint_state),
              flat_at (parent st.1.1.2) (yx.1 * ww + yx.2)))
    in Hrun as (_ & Hall & _); [|done|].
  - intros i Hi. assert (0 < ww)%nat as Hw by nia.
    rewrite Forall_forall in Hall.
    specialize (Hall (i / ww, i mod ww)%nat). cbn [fst snd] in Hall.
    replace (i / ww * ww + i mod ww)%nat with i in Hall
      by (pose proof (Nat.div_mod_eq i ww); lia).
    apply Hall. apply list_elem_of_bind. exists (i / ww)%nat. split.
    + apply list_elem_of_fmap. exists (i mod ww)%nat. split; [done|].
      apply elem_of_seq. pose proof (Nat.mod_upper_bound i ww). lia.
    + apply elem_of_seq. split; [lia|]. cbn.
      apply Nat.Div0.div_lt_upper_bound. lia.
  - intros s [y x] s' _ Hs Hpx. cbn [fst snd] in *.
    destruct (paint_pixel_flat _ _ _ _ _ _ _ _ Hs Hpx) as (? & ? & Hkeep).
    split_and!; [done | done |]. intros [y0 x0]. apply Hkeep.
Qed.

(** X20.  The forest that a run returns is fully compressed: the colouring
    scan has run [find] on every pixel, so every element points directly at
    its root.  On it [get_component_sizes] changes nothing, and the number
    of parent entries equal to a root is the size of that root's segment. *)
Theorem returned_forest_is_flat gaussian h image img k min_size sigma rand
    h' out n uf :
  h !! image = Some img →
  felzenszwalb_huttenlocher gaussian h image k min_size sigma rand
    = Ok (h', (out, n, uf)) →
  (∀ i p, parent uf !! i = Some p → parent uf !! p = Some p) ∧
  (∀ i r, root_of (parent uf) i r ↔ parent uf !! i = Some r) ∧
  ∃ comps,
    get_component_sizes uf = Ok (uf, comps) ∧
    ∀ r s, (r, s) ∈ comps → count_eq r (parent uf) = s.
Proof.
  intros Himg Hrun.
  destruct (engine_forest gaussian h image img k min_size sigma rand h' out n uf
              Himg Hrun)
    as (Hwf%built_wf & Hl & _ & uf2 & h0 & cc & ctr & Hwf2%built_wf & Hl2 &
        Hpaint).
  pose proof (paint_flat _ _ _ _ _ _ _ _ Hwf2 Hpaint) as Hflat.
  cbn [fst snd] in Hflat. rewrite <- Hl in Hflat.
  assert (Hroot : ∀ i r, root_of (parent uf) i r ↔ parent uf !! i = Some r).
  { intros i r. split.
    - intros Hr. apply flat_parent_is_root; [done | | done].
      apply Hflat. by eapply root_of_lt.
    - intros Hi. destruct (Hflat i) as (r' & Hi' & Hr').
      { by eapply lookup_lt_Some. }
      assert (r' = r) as -> by congruence.
      destruct (decide (r = i)) as [->|Hne]; [by constructor|].
      eapply root_step; [done | done | by constructor]. }
  destruct (find_all_spec uf Hwf) as (par' & rs & Hfa & Hrs & Hs & Hl' & Hwf').
  assert (Hrs_eq : parent uf = rs) by (by apply flat_parent_roots).
  pose proof Hfa as Hall. unfold find_all in Hall.
  apply (find_each_flat _ _ _ _ Hwf) in Hall as [Hall _].
  rewrite Forall_forall in Hall. cbn [parent set_parent] in Hall.
  assert (Hsame : par' = parent uf).
  { rewrite Hrs_eq. apply (flat_parent_roots (set_parent uf par')); [done | |].
    - intros i Hi. apply Hall, elem_of_seq. cbn [parent set_parent] in Hi. lia.
    - cbn [parent set_parent]. rewrite Hl'.
      eapply Forall2_impl; [exact Hrs|]. intros i r. apply Hs. }
  split_and!; [|done|].
  - intros i p Hi. destruct (Hflat i) as (r & Hir & Hr).
    { by eapply lookup_lt_Some. }
    congruence.
  - exists (np_unique_counts rs). split.
    + unfold get_component_sizes. rewrite Hfa. cbn [res_bind].
      rewrite Hsame, set_parent_id. done.
    + intros r s [_ ->]%np_unique_counts_elem. by rewrite Hrs_eq.
Qed.

Lemma returned_forest_is_flat_witness :
  let gaussian := fun (a : ndarray) (_ : Q) (_ : bool) => a in
  let img := mkArray UInt8 2 3 None [0; 0; 200; 0; 0; 200]%Q in
  let h := [img] in
  let h' := [img; img; mkArray UInt8 2 3 None [0; 0; 1; 0; 0; 1]%Q] in
  let uf := mkUnionFind [0; 0; 2; 0; 0; 2]%nat [1; 0; 1; 0; 0; 0]%nat 2 in
  h !! 0%nat = Some img ∧
  felzenszwalb_huttenlocher gaussian h 0%nat 10 0 0 (fun n => Z.of_nat n)
    = Ok (h', (2%nat, 2, uf)) ∧
  (∀ i p, parent uf !! i = Some p → parent uf !! p = Some p) ∧
  (∀ i r, root_of (parent uf) i r ↔ parent uf !! i = Some r) ∧
  ∃ comps,
    get_component_sizes uf = Ok (uf, comps) ∧
    ∀ r s, (r, s) ∈ comps → count_eq r (parent uf) = s.
Proof.
  intros gaussian img h h' uf.
  assert (Himg : h !! 0%nat = Some img) by reflexivity.
  assert (Hrun : felzenszwalb_huttenlocher gaussian h 0%nat 10 0 0
                   (fun n => Z.of_nat n) = Ok (h', (2%nat, 2, uf)))
    by (vm_compute; reflexivity).
  split; [exact Himg|]. split; [exact Hrun|].
  exact (returned_forest_is_flat gaussian h 0%nat img 10 0 0
           (fun n => Z.of_nat n) h' 2%nat 2 uf Himg Hrun).
Defined.

(** ** The count of the second loop against the size of a set *)

(** X21.  What [np.sum(uf.parent == root)] is worth on a forest built
    through the interface: for a root, the number of parent entries equal to
    it is at least 1 and never more than the number of elements of its set
    (the size that [find] over all elements gives).  The second loop
    therefore never takes a set for larger than it is. *)
Theorem parent_count_underestimates uf r :
  built uf → parent uf !! r = Some r →
  ∃ uf' size,
    live_size uf r = Ok (uf', size) ∧
    same_roots (parent uf) (parent uf') ∧
    (1 ≤ count_eq r (parent uf))%nat ∧
    (count_eq r (parent uf) ≤ size)%nat.
Proof.
  intros Hwf%built_wf Hr.
  destruct (find_all_spec uf Hwf) as (par' & rs & Hfa & Hrs & Hs & Hl & Hwf').
  exists (set_parent uf par'), (count_eq r rs).
  assert (Hlrs : length rs = length (parent uf)).
  { apply Forall2_length in Hrs. by rewrite length_seq in Hrs. }
  split_and!; [| done | |].
  - unfold live_size. by rewrite Hfa.
  - unfold count_eq.
    assert (r ∈ filter (λ y, y = r) (parent uf)) as Hin.
    { apply list_elem_of_filter. split; [done|].
      by eapply list_elem_of_lookup_2. }
    destruct (filter _ (parent uf)); [by apply elem_of_nil in Hin | simpl; lia].
  - rewrite <- (index_filter_length (parent uf)), <- (index_filter_length rs).
    apply NoDup_subset_length; [apply NoDup_filter, NoDup_seq|].
    intros i [Hi Hlt%elem_of_seq]%list_elem_of_filter.
    apply list_elem_of_filter. split; [|apply elem_of_seq; lia].
    destruct (Forall2_lookup_l _ _ _ i i Hrs) as (r' & Hr' & Hroot).
    { apply lookup_seq_lt. lia. }
    rewrite Hr'. f_equal. eapply root_of_functional; [exact Hroot|].
    destruct (decide (r = i)) as [->|Hne]; [by constructor|].
    eapply root_step; [done | done | by constructor].
Qed.

Lemma parent_count_underestimates_witness :
  let uf := mkUnionFind [0; 0; 0; 2]%nat [2; 0; 1; 0]%nat 1 in
  built uf ∧ parent uf !! 0%nat = Some 0%nat ∧
  ∃ uf' size,
    live_size uf 0 = Ok (uf', size) ∧
    same_roots (parent uf) (parent uf') ∧
    (1 ≤ count_eq 0 (parent uf))%nat ∧
    (count_eq 0 (parent uf) ≤ size)%nat.
Proof.
  intros uf.
  assert (Hr : parent uf !! 0%nat = Some 0%nat) by reflexivity.
  split; [exact built_two_levels|]. split; [exact Hr|].
  exact (parent_count_underestimates uf 0 built_two_levels Hr).
Defined.

(** ** The first pass against the rule of the specification *)

Lemma rule_inv_new n fk :
  rule_inv n (new n) (replicate n fk) (seq 0 n, replicate n fk).
Proof.
  unfold rule_inv. cbn [fst snd].
  split_and!; [apply wf_new | by cbn; rewrite length_seq |
               by rewrite length_replicate | by rewrite length_seq |
               by rewrite length_replicate | | |].
  - apply Forall_forall. intros l Hl%elem_of_seq. lia.
  - intros x y rx ry lx ly Hx%root_of_new Hy%root_of_new
      [-> _]%lookup_seq [-> _]%lookup_seq. cbn. by subst.
  - intros x r l Hx [-> Hlt]%lookup_seq. apply root_of_new in Hx as ->.
    cbn. by rewrite !lookup_replicate_2.
Qed.

Lemma rule_inv_same_roots n uf uf' thr st :
  rule_inv n uf thr st → wf uf' →
  length (parent uf') = length (parent uf) →
  same_roots (parent uf) (parent uf') →
  rule_inv n uf' thr st.
Proof.
  intros (Hwf & Hl & Ht & Hll & HlT & Hlt & Hpart & Hthr) Hwf' Hl' Hs.
  split_and!; try done; [lia| |].
  - intros x y rx ry lx ly Hx%Hs Hy%Hs. by apply Hpart.
  - intros x r l Hx%Hs. by apply Hthr.
Qed.

Lemma relabel_lookup a b labels x l :
  labels !! x = Some l →
  relabel a b labels !! x = Some (if (l =? a)%nat then b else l).
Proof. intros Hl. unfold relabel. by rewrite list_lookup_fmap, Hl. Qed.

(** One iteration of the first loop is one step of the rule in binary64. *)
Lemma merge_edge_refines n k uf thr st w u v :
  py_float k = Ok (float64 k) →
  rule_inv n uf thr st → (u < n)%nat → (v < n)%nat →
  ∃ uf' thr',
    merge_edge k (uf, thr) (w, u, v) = Ok (uf', thr') ∧
    rule_inv n uf' thr'
      (rule_step binary64_le binary64_add (float64 k) st (w, u, v)).
Proof.
  intros Hk Hinv Hu Hv. pose proof Hinv as Hinv0.
  destruct Hinv as (Hwf & Hl & Ht & Hll & HlT & Hlt & Hpart & Hthr).
  destruct st as [labels T]. cbn [fst snd] in *.
  destruct (merge_edge_spec k _ uf thr w u v Hk Hwf)
    as (ru & rv & tu & tv & uf' & thr' & Hru & Hrv & Htu & Htv & Hm & Hwf' &
        Hl' & Ht' & Hkeep & Hjoin); [lia..|].
  exists uf', thr'. split; [done|].
  destruct (lookup_lt_is_Some_2 labels u) as [lu Hlu]; [lia|].
  destruct (lookup_lt_is_Some_2 labels v) as [lv Hlv]; [lia|].
  cbn [rule_step]. rewrite Hlu, Hlv.
  pose proof (Hpart u v ru rv lu lv Hru Hrv Hlu Hlv) as Huv.
  destruct (decide (ru = rv)) as [Heq|Hne].
  { replace (lu =? lv)%nat with true
      by (symmetry; apply Nat.eqb_eq; by apply Huv).
    destruct Hkeep as (_ & -> & Hs); [by left|].
    by apply (rule_inv_same_roots n uf). }
  replace (lu =? lv)%nat with false
    by (symmetry; apply Nat.eqb_neq; intros ?; by apply Hne, Huv).
  assert (Hlune : lu ≠ lv) by (intros ?; by apply Hne, Huv).
  rewrite <- (Hthr u ru lu Hru Hlu), <- (Hthr v rv lv Hrv Hlv), Htu, Htv.
  cbv zeta. unfold binary64_le at 1.
  destruct (Qle_bool (float64 w) (py_min tu tv)) eqn:Hle; last first.
  { destruct Hkeep as (_ & -> & Hs); [by right|].
    by apply (rule_inv_same_roots n uf). }
  destruct (Hjoin Hne eq_refl) as (_ & r' & Hr' & _ & _ & -> & Hmap).
  assert (Hlun : (lu < n)%nat).
  { rewrite Forall_forall in Hlt. apply Hlt. by eapply list_elem_of_lookup_2. }
  assert (Hr'n : (r' < n)%nat).
  { apply root_of_range in Hru, Hrv; [|done..]. destruct Hr' as [-> | ->]; lia. }
  assert (Hold : ∀ x rx' lx',
            root_of (parent uf') x rx' → relabel lv lu labels !! x = Some lx' →
            ∃ rx lx, root_of (parent uf) x rx ∧ labels !! x = Some lx ∧
              rx' = (if decide (rx = ru ∨ rx = rv) then r' else rx) ∧
              lx' = (if (lx =? lv)%nat then lu else lx) ∧
              (rx = ru ↔ lx = lu) ∧ (rx = rv ↔ lx = lv)).
  { intros x rx' lx' Hx' Hlx'.
    assert (Hxn : (x < n)%nat).
    { apply lookup_lt_Some in Hlx'. unfold relabel in Hlx'.
      rewrite length_fmap in Hlx'. lia. }
    destruct (root_exists uf x Hwf) as [rx Hrx]; [lia|].
    destruct (lookup_lt_is_Some_2 labels x) as [lx Hlx]; [lia|].
    exists rx, lx. split_and!; [done | done | | | |].
    - eapply root_of_functional; [exact Hx'|]. by apply Hmap.
    - rewrite (relabel_lookup _ _ _ _ _ Hlx) in Hlx'. by injection Hlx' as <-.
    - exact (Hpart x u rx ru lx lu Hrx Hru Hlx Hlu).
    - exact (Hpart x v rx rv lx lv Hrx Hrv Hlx Hlv). }
  unfold rule_inv. cbn [fst snd].
  split_and!; [done | lia | by rewrite length_insert |
               by unfold relabel; rewrite length_fmap |
               by rewrite length_insert | | |].
  - unfold relabel. apply Forall_fmap. eapply Forall_impl; [exact Hlt|].
    intros l Hl0. cbn. by destruct (l =? lv)%nat.
  - intros x y rx' ry' lx' ly' Hx' Hy' Hlx' Hly'.
    destruct (Hold x rx' lx' Hx' Hlx')
      as (rx & lx & Hrx & Hlx & -> & -> & Hxu & Hxv).
    destruct (Hold y ry' ly' Hy' Hly')
      as (ry & ly & Hry & Hly & -> & -> & Hyu & Hyv).
    pose proof (Hpart x y rx ry lx ly Hrx Hry Hlx Hly) as Hxy.
    assert (Hg : ∀ r l, (r = ru ↔ l = lu) → (r = rv ↔ l = lv) →
              ((r = ru ∨ r = rv) →
                 (if (l =? lv)%nat then lu else l) = lu) ∧
              (¬ (r = ru ∨ r = rv) →
                 (if (l =? lv)%nat then lu else l) = l ∧ l ≠ lu ∧ r ≠ r')).
    { intros r l Hu0 Hv0. destruct (Nat.eqb_spec l lv) as [Hlv0|Hlv0].
      - split; [done|]. tauto.
      - split; [tauto|]. intros Hno. split_and!; [done | tauto |].
        destruct Hr' as [-> | ->]; tauto. }
    destruct (Hg rx lx Hxu Hxv) as [Hgx1 Hgx2].
    destruct (Hg ry ly Hyu Hyv) as [Hgy1 Hgy2].
    destruct (decide (rx = ru ∨ rx = rv)) as [Hdx|Hdx],
             (decide (ry = ru ∨ ry = rv)) as [Hdy|Hdy].
    + by rewrite Hgx1, Hgy1.
    + rewrite Hgx1 by done. destruct (Hgy2 Hdy) as (-> & ? & ?).
      split; intros; congruence.
    + rewrite Hgy1 by done. destruct (Hgx2 Hdx) as (-> & ? & ?).
      split; intros; congruence.
    + destruct (Hgx2 Hdx) as (-> & _). by destruct (Hgy2 Hdy) as (-> & _).
  - intros x rx' lx' Hx' Hlx'.
    destruct (Hold x rx' lx' Hx' Hlx')
      as (rx & lx & Hrx & Hlx & -> & -> & Hxu & Hxv).
    case_decide as Hd.
    + assert ((if (lx =? lv)%nat then lu else lx) = lu) as ->.
      { destruct (Nat.eqb_spec lx lv); [done|]. tauto. }
      rewrite !list_lookup_insert_eq by lia. done.
    + assert ((if (lx =? lv)%nat then lu else lx) = lx) as ->.
      { destruct (Nat.eqb_spec lx lv); [|done]. tauto. }
      rewrite !list_lookup_insert_ne;
        [by apply (Hthr x) |
         intros Heq; apply Hd; left; apply Hxu; congruence |
         intros Heq; apply Hd; destruct Hr'; [left|right]; congruence].
Qed.

Lemma first_pass_refines n k edges :
  py_float k = Ok (float64 k) → Forall (edge_in n) edges →
  ∃ uf thr,
    first_pass k edges n = Ok (uf, thr) ∧
    rule_inv n uf thr (binary64_pass k edges n).
Proof.
  intros Hk Hedges. rewrite (first_pass_fold k _ _ _ Hk).
  unfold binary64_pass, rule_pass.
  pose proof (rule_inv_new n (float64 k)) as Hinv.
  revert Hinv. generalize (seq 0 n, replicate n (float64 k)).
  generalize (replicate n (float64 k)). generalize (new n).
  induction Hedges as [|[[w u] v] edges [Hu Hv] _ IH]; intros uf thr st Hinv.
  { by exists uf, thr. }
  cbn [res_fold fold_left]. cbn [fst snd] in Hu, Hv.
  destruct (merge_edge_refines n k uf thr st w u v Hk Hinv Hu Hv)
    as (uf' & thr' & -> & Hinv').
  cbn [res_bind]. by apply IH.
Qed.

Lemma rule_inv_refines n uf thr st : rule_inv n uf thr st → refines n uf thr st.
Proof.
  intros (Hwf & Hl & Ht & Hll & HlT & Hlt & Hpart & Hthr).
  split_and!; [done | done | |].
  - intros x y Hx Hy.
    destruct (root_exists uf x Hwf) as [rx Hrx]; [lia|].
    destruct (root_exists uf y Hwf) as [ry Hry]; [lia|].
    destruct (lookup_lt_is_Some_2 st.1 x) as [lx Hlx]; [lia|].
    destruct (lookup_lt_is_Some_2 st.1 y) as [ly Hly]; [lia|].
    rewrite Hlx, Hly.
    pose proof (Hpart x y rx ry lx ly Hrx Hry Hlx Hly) as Hxy. split.
    + intros (r & Hxr & Hyr).
      assert (rx = ry); [|f_equal; tauto].
      rewrite (root_of_functional _ _ _ _ Hrx Hxr).
      by rewrite (root_of_functional _ _ _ _ Hry Hyr).
    + intros [= Heq]. exists rx. split; [done|].
      by replace rx with ry by (symmetry; tauto).
  - intros x r l Hx Hlx.
    assert (Hr : (r < length thr)%nat).
    { rewrite Ht, <- Hl. by eapply root_of_range. }
    destruct (lookup_lt_is_Some_2 thr r Hr) as [t Htr].
    exists t. split; [done|]. by rewrite <- (Hthr x r l Hx Hlx).
Qed.

Lemma first_pass_built k edges n uf thr :
  first_pass k edges n = Ok (uf, thr) → built uf.
Proof.
  intros Hfp.
  rewrite (first_pass_fold k _ _ _ (first_pass_float _ _ _ _ Hfp)) in Hfp.
  apply (res_fold_ok_inv (λ st : UnionFind * list Q, built st.1)) in Hfp;
    [done | apply built_new |].
  intros [uf0 thr0] e [uf0' thr0'] _ Hb Hstep. cbn [fst snd] in *.
  by destruct (merge_edge_built _ _ _ _ _ _ Hb Hstep).
Qed.

Lemma float64_pow2 e : (float64 (2 ^ e) == 2 ^ e)%Q.
Proof.
  assert (He : (2 ^ e == inject_Z 1 * 2 ^ e)%Q).
  { change (inject_Z 1) with 1%Q. by rewrite Qmult_1_l. }
  rewrite (float64_comp _ _ He).
  eapply Qeq_trans; [|symmetry; exact He].
  apply float64_exact. by vm_compute.
Qed.

Lemma float64_opp_pow2 e : (float64 (- 2 ^ e) == - 2 ^ e)%Q.
Proof.
  assert (He : (- 2 ^ e == inject_Z (-1) * 2 ^ e)%Q).
  { change (inject_Z (-1)) with (-1)%Q. ring. }
  rewrite (float64_comp _ _ He).
  eapply Qeq_trans; [|symmetry; exact He].
  apply float64_exact. by vm_compute.
Qed.

Lemma py_float_in_range k : in_binary64_range k → py_float k = Ok (float64 k).
Proof.
  intros [_ Hk]. apply Qabs_Qle_condition in Hk as [Hlo Hhi].
  apply float64_mono in Hlo, Hhi.
  rewrite float64_pow2 in Hhi. rewrite float64_opp_pow2 in Hlo.
  unfold py_float.
  destruct (Qle_bool (2 ^ 1024) (Qabs (float64 k))) eqn:Hle; [|done].
  apply Qle_bool_iff in Hle. exfalso.
  assert (Habs : (Qabs (float64 k) <= 2 ^ 1022)%Q)
    by (by apply Qabs_Qle_condition).
  assert (Hlt : (2 ^ 1022 < 2 ^ 1024)%Q) by (by apply pow2_lt).
  lra.
Qed.

(** On integers of magnitude up to [2^52] the binary64 comparison and sum
    are the exact ones. *)
Lemma binary64_small (w k : Z) :
  Z.abs w ≤ 2 ^ 52 → Z.abs k ≤ 2 ^ 52 →
  py_float (inject_Z k) = Ok (inject_Z k) ∧
  float64 (inject_Z k) = inject_Z k ∧
  float64 (inject_Z w) = inject_Z w ∧
  (binary64_add (inject_Z w) (float64 (inject_Z k))
   == inject_Z w + inject_Z k)%Q.
Proof.
  intros Hw Hk.
  assert (H52 : 2 ^ 53 = 2 * 2 ^ 52) by (by vm_compute).
  split_and!; [apply py_float_Z; lia | apply float64_Z; lia |
               apply float64_Z; lia |].
  unfold binary64_add. rewrite !float64_Z by lia.
  assert (He : (inject_Z w + inject_Z k == inject_Z (w + k))%Q)
    by (by rewrite inject_Z_plus).
  rewrite (float64_comp _ _ He), float64_Z by lia. by symmetry.
Qed.

Lemma Qle_bool_comp a a' b b' :
  (a == a')%Q → (b == b')%Q → Qle_bool a b = Qle_bool a' b'.
Proof.
  intros Ha Hb.
  destruct (Qle_bool a b) eqn:H1, (Qle_bool a' b') eqn:H2; try done.
  - apply Qle_bool_iff in H1. rewrite Ha, Hb in H1.
    apply Qle_bool_iff in H1. congruence.
  - apply Qle_bool_iff in H2. rewrite <- Ha, <- Hb in H2.
    apply Qle_bool_iff in H2. congruence.
Qed.

Lemma py_min_comp a a' b b' :
  (a == a')%Q → (b == b')%Q → (py_min a b == py_min a' b')%Q.
Proof.
  intros Ha Hb. unfold py_min. rewrite (Qle_bool_comp a a' b b' Ha Hb).
  by destruct (Qle_bool a' b').
Qed.

Lemma rule_step_small (kz : Z) (labels : list nat) (T T' : list Q) (e : edge) :
  Z.abs kz ≤ 2 ^ 52 →
  (∃ z, weight_of e = inject_Z z ∧ Z.abs z ≤ 2 ^ 52) →
  Forall2 Qeq T T' →
  (rule_step binary64_le binary64_add (float64 (inject_Z kz)) (labels, T) e).1 =
  (rule_step Qle_bool Qplus (inject_Z kz) (labels, T') e).1 ∧
  Forall2 Qeq
    (rule_step binary64_le binary64_add (float64 (inject_Z kz)) (labels, T) e).2
    (rule_step Qle_bool Qplus (inject_Z kz) (labels, T') e).2.
Proof.
  intros Hk (z & Hw & Hz) HT. destruct e as [[w u] v].
  cbn [weight_of fst snd] in Hw. subst w. cbn [rule_step].
  destruct (binary64_small z kz Hz Hk) as (_ & Hfk & Hfw & Hadd).
  destruct (labels !! u) as [ru|]; [|done].
  destruct (labels !! v) as [rv|]; [|done].
  destruct (ru =? rv)%nat; [done|].
  pose proof (proj1 (Forall2_lookup _ _ _) HT ru) as Hu.
  pose proof (proj1 (Forall2_lookup _ _ _) HT rv) as Hv.
  destruct Hu as [tu tu' Hu|]; [|done].
  destruct Hv as [tv tv' Hv|]; [|done]. cbv zeta.
  unfold binary64_le. rewrite Hfw.
  rewrite (Qle_bool_comp (inject_Z z) (inject_Z z) (py_min tu tv)
             (py_min tu' tv') (Qeq_refl _) (py_min_comp _ _ _ _ Hu Hv)).
  destruct (Qle_bool (inject_Z z) (py_min tu' tv')); [|done].
  cbn [fst snd]. split; [done|]. by apply Forall2_insert.
Qed.

Lemma rule_pass_small (kz : Z) (edges : list edge) (n : nat) :
  Z.abs kz ≤ 2 ^ 52 →
  Forall (λ e, ∃ z, weight_of e = inject_Z z ∧ Z.abs z ≤ 2 ^ 52) edges →
  (binary64_pass (inject_Z kz) edges n).1 = (exact_pass (inject_Z kz) edges n).1 ∧
  Forall2 Qeq (binary64_pass (inject_Z kz) edges n).2
              (exact_pass (inject_Z kz) edges n).2.
Proof.
  intros Hk Hedges. unfold binary64_pass, exact_pass, rule_pass.
  assert (H0 : Forall2 Qeq (replicate n (float64 (inject_Z kz)))
                           (replicate n (inject_Z kz))).
  { rewrite float64_Z by (assert (2 ^ 53 = 2 * 2 ^ 52) by (by vm_compute); lia).
    apply Forall2_replicate. apply Qeq_refl. }
  revert H0. generalize (replicate n (float64 (inject_Z kz))).
  generalize (replicate n (inject_Z kz)). generalize (seq 0 n).
  induction Hedges as [|e edges He _ IH]; intros labels T' T HT; [done|].
  cbn [fold_left].
  destruct (rule_step_small kz labels T T' e Hk He HT) as [H1 H2].
  destruct (rule_step binary64_le binary64_add _ (labels, T) e) as [l1 T1].
  destruct (rule_step Qle_bool Qplus _ (labels, T') e) as [l2 T2].
  cbn [fst snd] in H1, H2. subst l2. by apply IH.
Qed.

(** C1 (amended).  Pass 1 is the rule of the specification read in binary64.
    - For [k] and edge weights within the range of binary64 and edges
      between pixels of the image, the first loop returns, and its forest
      and threshold array stand for the state the rule reaches when it
      starts from singleton components that all have threshold [float(k)]
      and takes the edges in list order: for an edge [(w, u, v)] whose ends
      are in different components [ru] and [rv], with
      [m = min(threshold[ru], threshold[rv])], the components are merged
      exactly when [w] converted to binary64 is [<= m], and the threshold of
      the merged component is then the binary64 sum of the converted [w] and
      [float(k)], each conversion and the sum being rounded to the nearest
      binary64 number; nothing else changes.
    - A run of the entry point that returns has made this pass over the list
      of the graph builder, which holds the edges of the pixel grid in
      ascending weight order; the returned
      forest has the sets that the second pass made of the forest of the
      first, which is that forest itself when [min_size <= 0].
    - When [k] and all the weights are integers of magnitude at most [2^52],
      the rule in binary64 and the rule over the real numbers, with [w <= m]
      and [w + k] exact, reach the same components and equal thresholds. *)
Theorem first_pass_binary64_rule :
  (∀ k edges n,
     in_binary64_range k →
     Forall (λ e, in_binary64_range (weight_of e)) edges →
     Forall (edge_in n) edges →
     ∃ uf thr,
       first_pass k edges n = Ok (uf, thr) ∧ built uf ∧
       refines n uf thr (binary64_pass k edges n)) ∧
  (∀ gaussian h image img k min_size sigma rand h' out n uf,
     (∀ a s c, array_ok a →
        array_ok (gaussian a s c) ∧ height (gaussian a s c) = height a ∧
        width (gaussian a s c) = width a) →
     h !! image = Some img → array_ok img →
     felzenszwalb_huttenlocher gaussian h image k min_size sigma rand
       = Ok (h', (out, n, uf)) →
     ∃ edges uf1 thr uf2,
       create_graph (smoothed_of gaussian img sigma) = Ok edges ∧
       edges ≡ₚ grid_edges (smoothed_of gaussian img sigma) ∧
       StronglySorted weight_le edges ∧
       Forall (edge_in (height img * width img)) edges ∧
       first_pass k edges (height img * width img) = Ok (uf1, thr) ∧
       second_pass min_size edges uf1 = Ok uf2 ∧
       (min_size ≤ 0 → uf2 = uf1) ∧
       same_roots (parent uf2) (parent uf)) ∧
  (∀ kz edges n,
     Z.abs kz ≤ 2 ^ 52 →
     Forall (λ e, ∃ z, weight_of e = inject_Z z ∧ Z.abs z ≤ 2 ^ 52) edges →
     (binary64_pass (inject_Z kz) edges n).1 =
       (exact_pass (inject_Z kz) edges n).1 ∧
     Forall2 Qeq (binary64_pass (inject_Z kz) edges n).2
                 (exact_pass (inject_Z kz) edges n).2).
Proof.
  split_and!.
  - intros k edges n Hk _ Hedges.
    destruct (first_pass_refines n k edges (py_float_in_range k Hk) Hedges)
      as (uf & thr & Hfp & Hinv).
    exists uf, thr. split_and!; [done | by eapply first_pass_built |
                                 by apply rule_inv_refines].
  - intros gaussian h image img k min_size sigma rand h' out n uf
      Hg Himg Hok Hrun.
    destruct (engine_stages gaussian h image img k min_size sigma rand
                h' out n uf Hg Himg Hok Hrun)
      as (_ & _ & _ & edges & uf1 & thr & uf2 & cc & ctr & Hcg &
          Hedges & Hfp & _ & _ & Hsp & _ & _ & _ & _ & _ & Hs & _).
    exists edges, uf1, thr, uf2.
    split_and!; [done | by apply create_graph_grid_perm |
                 by eapply create_graph_sorted | done..| | done].
    intros Hmin. unfold second_pass in Hsp.
    destruct (Z.ltb_spec 0 min_size); [lia|]. by injection Hsp as <-.
  - apply rule_pass_small.
Qed.

Lemma first_pass_binary64_rule_witness :
  let gaussian := fun (a : ndarray) (_ : Q) (_ : bool) => a in
  let img := mkArray Int64 1 4 None [0; 1; 134217729; 134217730]%Q in
  let out := mkArray Int64 1 4 None [7; 7; 7; 7]%Q in
  let k := inject_Z (2 ^ 54 - 2) in
  let edges :=
    [mk_edge 1 0 1; mk_edge 1 2 3; mk_edge (inject_Z (2 ^ 54)) 1 2] in
  let uf := mkUnionFind [0; 0; 0; 0]%nat [2; 0; 1; 0]%nat 1 in
  (in_binary64_range k ∧
   Forall (λ e, in_binary64_range (weight_of e)) edges ∧
   Forall (edge_in 4) edges ∧
   ∃ uf1 thr,
     first_pass k edges 4 = Ok (uf1, thr) ∧ built uf1 ∧
     refines 4 uf1 thr (binary64_pass k edges 4)) ∧
  ((∀ a s c, array_ok a →
      array_ok (gaussian a s c) ∧ height (gaussian a s c) = height a ∧
      width (gaussian a s c) = width a) ∧
   [img] !! 0%nat = Some img ∧ array_ok img ∧
   felzenszwalb_huttenlocher gaussian [img] 0%nat k 0 0 (fun _ => 7)
     = Ok ([img; img; out], (2%nat, 1, uf)) ∧
   ∃ edges' uf1 thr uf2,
     create_graph (smoothed_of gaussian img 0) = Ok edges' ∧
     edges' ≡ₚ grid_edges (smoothed_of gaussian img 0) ∧
     StronglySorted weight_le edges' ∧
     Forall (edge_in (height img * width img)) edges' ∧
     first_pass k edges' (height img * width img) = Ok (uf1, thr) ∧
     second_pass 0 edges' uf1 = Ok uf2 ∧
     (0 ≤ 0 → uf2 = uf1) ∧
     same_roots (parent uf2) (parent uf)).
Proof.
  intros gaussian img out k edges uf.
  assert (Hk : in_binary64_range k) by (split; [right|]; by vm_compute).
  assert (Hw : Forall (λ e, in_binary64_range (weight_of e)) edges).
  { repeat (constructor; [split; [right|]; by vm_compute|]). constructor. }
  assert (He : Forall (edge_in 4) edges).
  { repeat constructor; simpl; lia. }
  assert (Hg : ∀ a s c, array_ok a →
     array_ok (gaussian a s c) ∧ height (gaussian a s c) = height a ∧
     width (gaussian a s c) = width a) by (intros a s c Ha; done).
  assert (Himg : [img] !! 0%nat = Some img) by reflexivity.
  assert (Hok : array_ok img) by reflexivity.
  assert (Hrun :
    felzenszwalb_huttenlocher gaussian [img] 0%nat k 0 0 (fun _ => 7)
      = Ok ([img; img; out], (2%nat, 1, uf))) by (vm_compute; reflexivity).
  split.
  - split; [exact Hk|]. split; [exact Hw|]. split; [exact He|].
    exact (proj1 first_pass_binary64_rule k edges 4%nat Hk Hw He).
  - split; [exact Hg|]. split; [exact Himg|]. split; [exact Hok|].
    split; [exact Hrun|].
    exact (proj1 (proj2 first_pass_binary64_rule) gaussian [img] 0%nat img k
             0 0%Q (fun _ => 7) [img; img; out] 2%nat 1 uf Hg Himg Hok Hrun).
Defined.

(** C1, as stated, fails over the real numbers.  On the int64 row
    [0, 1, 2^27 + 1, 2^27 + 2] with [k = 2^54 - 2] the first two merges have
    [w + k = 2^54 - 1], which binary64 does not hold: the loop stores
    [2^54].  The last edge has weight [2^54]: it is [<=] the stored
    threshold, so the loop merges and ends with one component, where the
    rule with [w + k] exact keeps two. *)
Lemma first_pass_exact_rule_counterexample :
  let img := mkArray Int64 1 4 None [0; 1; 134217729; 134217730]%Q in
  let k := inject_Z (2 ^ 54 - 2) in
  let edges :=
    [mk_edge 1 0 1; mk_edge 1 2 3; mk_edge (inject_Z (2 ^ 54)) 1 2] in
  let uf := mkUnionFind [0; 0; 0; 2]%nat [2; 0; 1; 0]%nat 1 in
  create_graph img = Ok edges ∧
  py_float k = Ok k ∧
  res_map snd (first_pass k (take 2 edges) 4) =
    Ok [inject_Z (2 ^ 54); k; inject_Z (2 ^ 54); k] ∧
  (exact_pass k (take 2 edges) 4).2 =
    [inject_Z (2 ^ 54 - 1); k; inject_Z (2 ^ 54 - 1); k] ∧
  first_pass k edges 4 =
    Ok (uf, [inject_Z (2 ^ 55); k; inject_Z (2 ^ 54); k]) ∧
  (binary64_pass k edges 4).1 = [0; 0; 0; 0]%nat ∧
  (exact_pass k edges 4).1 = [0; 0; 2; 2]%nat ∧
  res_map (fun r => snd (fst (snd r)))
    (felzenszwalb_huttenlocher (fun a _ _ => a) [img] 0%nat k 0 0
       (fun _ => 0)) = Ok 1 ∧
  same_set (parent uf) 1 2 ∧
  ¬ refines 4 uf [inject_Z (2 ^ 55); k; inject_Z (2 ^ 54); k]
      (exact_pass k edges 4).
Proof.
  intros img k edges uf.
  assert (Hexact : (exact_pass k edges 4).1 = [0; 0; 2; 2]%nat)
    by (vm_compute; reflexivity).
  assert (Hsame : same_set (parent uf) 1 2).
  { exists 0%nat. split.
    - eapply root_step; [reflexivity | done | by apply root_here].
    - eapply root_step; [reflexivity | done | by apply root_here]. }
  split_and!; try (vm_compute; reflexivity); [done|].
  intros (_ & _ & Hpart & _).
  destruct (Hpart 1%nat 2%nat) as [H _]; [lia..|].
  specialize (H Hsame). rewrite Hexact in H. discriminate.
Qed.
